(** * nowpayments-api: the resilience layer, embedded and verified

    A shallow embedding of the parts of the NOWPayments client that carry
    state and failure handling:

    - [lib/index.js]: the axios interceptors, [_makeRequest],
      [_retryRequest], [_isRetryable], [verifyIPN], [_validateSchema] and
      the public methods;
    - [lib/errors.js]: [NOWPaymentsError], [APIError] and
      [ValidationError];
    - [lib/constants.js]: the exported configuration object;
    - [lib/utils.js]: [sortObject] and [generateSignature],
      [parseAPIError], [isValidCryptoAddress], [generateOrderId] and the
      functions on payments and their expiration;
    - [lib/WebSocketClient.js]: the reconnecting, heartbeat-monitored
      socket client, over an explicit world of timers and sockets.

    Definitions come first, module by module; the theorems follow. *)

From Stdlib Require Import ZArith List String Ascii Bool Lia.
From Stdlib Require Import DecimalString.
From Stdlib Require Import Permutation Sorted.
From Stdlib Require OrderedTypeEx DecimalPos DecimalN.
Import ListNotations.

Local Open Scope string_scope.
Local Open Scope Z_scope.

(* ================================================================== *)
(** ** JavaScript values *)

Module JS.

(** Plain data as the code handles it: what [JSON.parse] produces, plus
    [undefined].  The number type is a parameter: numbers inside payloads
    are opaque to every function embedded here, while the library's own
    configuration uses integers ([value Z]).  An object lists its own
    properties in insertion order. *)
#[local] Set Warnings "-register-all".
Inductive value (num : Type) : Type :=
| VUndefined
| VNull
| VBool (b : bool)
| VNum (n : num)
| VStr (s : string)
| VArr (items : list (value num))
| VObj (props : list (string * value num)).

Arguments VUndefined {num}.
Arguments VNull {num}.
Arguments VBool {num} b.
Arguments VNum {num} n.
Arguments VStr {num} s.
Arguments VArr {num} items.
Arguments VObj {num} props.

(** Induction over values, with the hypothesis for every element of an
    array and every property value of an object. *)
Section ValueInd.
Context {num : Type}.
Variable P : value num -> Prop.
Hypothesis Hundef : P VUndefined.
Hypothesis Hnull : P VNull.
Hypothesis Hbool : forall b, P (VBool b).
Hypothesis Hnum : forall n, P (VNum n).
Hypothesis Hstr : forall s, P (VStr s).
Hypothesis Harr : forall items, Forall P items -> P (VArr items).
Hypothesis Hobj : forall props, Forall (fun kv => P (snd kv)) props -> P (VObj props).

Fixpoint value_nested_ind (v : value num) : P v :=
  match v with
  | VUndefined => Hundef
  | VNull => Hnull
  | VBool b => Hbool b
  | VNum n => Hnum n
  | VStr s => Hstr s
  | VArr items =>
      Harr items
        ((fix go (l : list (value num)) : Forall P l :=
            match l with
            | [] => Forall_nil P
            | x :: l' => Forall_cons x (value_nested_ind x) (go l')
            end) items)
  | VObj props =>
      Hobj props
        ((fix go (l : list (string * value num)) : Forall (fun kv => P (snd kv)) l :=
            match l with
            | [] => Forall_nil _
            | kv :: l' => Forall_cons kv (value_nested_ind (snd kv)) (go l')
            end) props)
  end.

End ValueInd.

(** First binding of [key] in a property list. *)
Fixpoint lookup {A : Type} (key : string) (props : list (string * A)) : option A :=
  match props with
  | [] => None
  | (k, v) :: rest => if String.eqb k key then Some v else lookup key rest
  end.

(** The message V8 gives to the [TypeError] of a property read on
    [undefined] or [null]. *)
Definition cannot_read (what key : string) : string :=
  "Cannot read properties of " ++ what ++ " (reading '" ++ key ++ "')".

(** [v.key]: a read on [undefined] or [null] throws a [TypeError] (left);
    a missing property reads as [undefined].  It is only used with the
    property names the source reads ([message], [RETRY_CONFIG],
    [INITIAL_DELAY], [BACKOFF_FACTOR]), none of which a string, number,
    boolean or array carries. *)
Definition member {num} (v : value num) (key : string) : string + value num :=
  match v with
  | VUndefined => inl (cannot_read "undefined" key)
  | VNull => inl (cannot_read "null" key)
  | VObj props =>
      match lookup key props with
      | Some x => inr x
      | None => inr VUndefined
      end
  | _ => inr VUndefined
  end.

(** *** Numbers

    A Number is [NaN], an infinity, or a finite double, held exactly as
    [m * 2 ^ e].  The sign of a zero is not kept: no comparison reads
    it. *)
Inductive number : Type :=
| NaN
| Infinite (negative : bool)
| Finite (m e : Z).

Definition negate (x : number) : number :=
  match x with
  | NaN => NaN
  | Infinite negative => Infinite (negb negative)
  | Finite m e => Finite (- m) e
  end.

(** [x >= k] and [x <= k] for an integer [k]; a comparison with [NaN] is
    false. *)
Definition number_ge (x : number) (k : Z) : bool :=
  match x with
  | NaN => false
  | Infinite negative => negb negative
  | Finite m e => if 0 <=? e then k <=? m * 2 ^ e else k * 2 ^ (- e) <=? m
  end.

Definition number_le (x : number) (k : Z) : bool :=
  match x with
  | NaN => false
  | Infinite negative => negative
  | Finite m e => if 0 <=? e then m * 2 ^ e <=? k else m <=? k * 2 ^ (- e)
  end.

(** The integer a Number is, when it is one. *)
Definition number_to_Z (x : number) : option Z :=
  match x with
  | Finite m e =>
      if 0 <=? e then Some (m * 2 ^ e)
      else if m mod 2 ^ (- e) =? 0 then Some (m / 2 ^ (- e)) else None
  | _ => None
  end.

(** The integer nearest to [n / d], the even one of two that are equally
    near. *)
Definition round_half_even (n d : Z) : Z :=
  let q := n / d in
  match 2 * (n mod d) ?= d with
  | Lt => q
  | Gt => q + 1
  | Eq => if Z.even q then q else q + 1
  end.

(** The exponent of the power of two at or below [n / d]. *)
Definition binade (n d : Z) : Z :=
  let e := Z.log2 n - Z.log2 d in
  let below := if 0 <=? e then n <? d * 2 ^ e else n * 2 ^ (- e) <? d in
  if below then e - 1 else e.

(** The Number value for the positive rational [n / d]: the nearest
    double, with 53 significant bits down to the exponent [-1074], ties
    to the even significand, and the infinity from [2 ^ 1024] on. *)
Definition to_double (n d : Z) : number :=
  let e := Z.max (binade n d - 52) (- 1074) in
  let m := if 0 <=? e then round_half_even n (d * 2 ^ e)
           else round_half_even (n * 2 ^ (- e)) d in
  if (0 <=? e) && (2 ^ 1024 <=? m * 2 ^ e) then Infinite false else Finite m e.

(** The Number value for [digits * 10 ^ exponent]. *)
Definition decimal_value (digits exponent : Z) : number :=
  if digits =? 0 then Finite 0 0
  else if 0 <=? exponent then to_double (digits * 10 ^ exponent) 1
  else to_double digits (10 ^ (- exponent)).

(** *** [ToNumber] of a string

    [StringToNumber]: white space around a [StrNumericLiteral], which is
    a signed decimal literal (digits with an optional fraction and an
    optional exponent, or [Infinity]) or an unsigned literal in radix 16,
    8 or 2; the empty string is [0] and every other string [NaN].  The
    value is the double nearest to the literal's, as V8 computes it.  A
    string is read as its sequence of code units, each below 256, where
    the white space is TAB, LF, VT, FF, CR, SP and NBSP. *)
Definition is_white (a : ascii) : bool :=
  let n := N_of_ascii a in
  ((n =? 9) || (n =? 10) || (n =? 11) || (n =? 12) || (n =? 13) || (n =? 32)
   || (n =? 160))%N.

Fixpoint skip_white (s : string) : string :=
  match s with
  | String a rest => if is_white a then skip_white rest else s
  | EmptyString => s
  end.

Fixpoint all_white (s : string) : bool :=
  match s with
  | String a rest => is_white a && all_white rest
  | EmptyString => true
  end.

(** The value of a digit of the radix. *)
Definition digit_in (radix : Z) (a : ascii) : option Z :=
  let n := Z.of_N (N_of_ascii a) in
  let v := if (48 <=? n) && (n <=? 57) then Some (n - 48)
           else if (97 <=? n) && (n <=? 102) then Some (n - 87)
           else if (65 <=? n) && (n <=? 70) then Some (n - 55)
           else None in
  match v with
  | Some d => if d <? radix then Some d else None
  | None => None
  end.

(** The digits [s] starts with: their value after those already read,
    their number, and what follows them. *)
Fixpoint read_digits (radix acc : Z) (count : nat) (s : string) : Z * nat * string :=
  match s with
  | String a rest =>
      match digit_in radix a with
      | Some d => read_digits radix (radix * acc + d) (S count) rest
      | None => (acc, count, s)
      end
  | EmptyString => (acc, count, s)
  end.

(** [ExponentPart], when [s] starts with one: its value, and what
    follows. *)
Definition read_exponent (s : string) : Z * string :=
  match s with
  | String c rest =>
      if Ascii.eqb c "e" || Ascii.eqb c "E" then
        let '(negative, rest) :=
          match rest with
          | String "+" r => (false, r)
          | String "-" r => (true, r)
          | _ => (false, rest)
          end in
        let '(v, count, rest) := read_digits 10 0 0 rest in
        match count with
        | O => (0, s)
        | S _ => (if negative then - v else v, rest)
        end
      else (0, s)
  | EmptyString => (0, s)
  end.

(** The decimal literal [s] starts with ([1], [1.], [1.5], [.5], each
    with an optional exponent): its digits, the power of ten they are
    scaled by, and what follows. *)
Definition read_decimal (s : string) : option (Z * Z * string) :=
  let '(whole, count, rest) := read_digits 10 0 0 s in
  let '(digits, decimals, rest) :=
    match rest with
    | String "." r => read_digits 10 whole 0 r
    | _ => (whole, 0%nat, rest)
    end in
  match (count + decimals)%nat with
  | O => None
  | S _ =>
      let '(exponent, rest) := read_exponent rest in
      Some (digits, exponent - Z.of_nat decimals, rest)
  end.

(** [StrUnsignedDecimalLiteral] *)
Definition read_unsigned (s : string) : option (number * string) :=
  if String.prefix "Infinity" s
  then Some (Infinite false, String.substring 8 (String.length s - 8) s)
  else
    match read_decimal s with
    | Some (digits, exponent, rest) => Some (decimal_value digits exponent, rest)
    | None => None
    end.

(** [NonDecimalIntegerLiteral]: [0x], [0o] or [0b], in either case, and
    at least one digit. *)
Definition read_non_decimal (s : string) : option (number * string) :=
  match s with
  | String "0" (String c rest) =>
      let radix :=
        if Ascii.eqb c "x" || Ascii.eqb c "X" then Some 16
        else if Ascii.eqb c "o" || Ascii.eqb c "O" then Some 8
        else if Ascii.eqb c "b" || Ascii.eqb c "B" then Some 2
        else None in
      match radix with
      | Some radix =>
          let '(v, count, rest) := read_digits radix 0 0 rest in
          match count with
          | O => None
          | S _ => Some (decimal_value v 0, rest)
          end
      | None => None
      end
  | _ => None
  end.

(** [StrNumericLiteral] *)
Definition read_numeric (s : string) : option (number * string) :=
  match read_non_decimal s with
  | Some r => Some r
  | None =>
      match s with
      | String "+" rest => read_unsigned rest
      | String "-" rest =>
          match read_unsigned rest with
          | Some (x, rest) => Some (negate x, rest)
          | None => None
          end
      | _ => read_unsigned s
      end
  end.

Definition string_to_number (s : string) : number :=
  match skip_white s with
  | EmptyString => Finite 0 0
  | literal =>
      match read_numeric literal with
      | Some (x, rest) => if all_white rest then x else NaN
      | None => NaN
      end
  end.

(** [ToNumber] on the library's configuration, whose numbers are
    integers; [None] is [NaN].  A string there reads as the integer it
    converts to; a configuration with a fraction in it, written as a
    number or as a string, is not among those modelled. *)
Definition to_number (v : value Z) : option Z :=
  match v with
  | VNum n => Some n
  | VNull => Some 0
  | VBool b => Some (if b then 1 else 0)
  | VStr s => number_to_Z (string_to_number s)
  | _ => None
  end.

(** A decimal numeral: its value. *)
Definition is_digit (a : ascii) : bool :=
  let n := N_of_ascii a in ((48 <=? n) && (n <=? 57))%N.

Fixpoint digits_value (acc : Z) (s : string) : option Z :=
  match s with
  | EmptyString => Some acc
  | String a rest =>
      if is_digit a then digits_value (10 * acc + Z.of_N (N_of_ascii a) - 48) rest
      else None
  end.

(** An array index: a canonical decimal numeral below [2^32 - 1]. *)
Definition index_value (s : string) : option Z :=
  match s with
  | EmptyString => None
  | String a rest =>
      if (Ascii.eqb a "0" && negb (String.eqb rest ""))%bool then None
      else
        match digits_value 0 s with
        | Some n => if n <=? 4294967294 then Some n else None
        | None => None
        end
  end.

Definition is_index (s : string) : bool :=
  match index_value s with Some _ => true | None => false end.

(** [Array.prototype.sort] as a stable insertion sort under [leb]. *)
Fixpoint insert {A : Type} (leb : A -> A -> bool) (x : A) (l : list A) : list A :=
  match l with
  | [] => [x]
  | y :: rest => if leb x y then x :: l else y :: insert leb x rest
  end.

Definition sort {A : Type} (leb : A -> A -> bool) (l : list A) : list A :=
  fold_right (insert leb) [] l.

(** [Object.keys(obj)]: the array-index keys in ascending numeric order,
    then the other keys in insertion order. *)
Definition index_leb (a b : string) : bool :=
  match index_value a, index_value b with
  | Some m, Some n => m <=? n
  | _, _ => true
  end.

Definition Object_keys {A : Type} (props : list (string * A)) : list string :=
  let keys := map fst props in
  sort index_leb (filter is_index keys) ++ filter (fun k => negb (is_index k)) keys.

(** [obj[key]] on an object's property list. *)
Definition get {num} (props : list (string * value num)) (key : string) : value num :=
  match lookup key props with
  | Some v => v
  | None => VUndefined
  end.

Fixpoint replace {A : Type} (key : string) (v : A) (props : list (string * A))
  : list (string * A) :=
  match props with
  | [] => []
  | (k, w) :: rest =>
      if String.eqb k key then (k, v) :: rest else (k, w) :: replace key v rest
  end.

(** [obj[key] = v] on an ordinary object: an existing property keeps
    its place, a new one is added last.  Assigning to [__proto__] runs the
    setter inherited from [Object.prototype] and creates no own
    property. *)
Definition set_prop {A : Type} (props : list (string * A)) (key : string) (v : A)
  : list (string * A) :=
  if String.eqb key "__proto__" then props
  else
    match lookup key props with
    | Some _ => replace key v props
    | None => props ++ [(key, v)]
    end.

End JS.

Import JS.

(* ================================================================== *)
(** ** lib/constants.js *)

Module Constants.

Definition num (n : Z) : value Z := VNum n.

(** [DEFAULT_CONFIG.RETRY] *)
Definition RETRY : value Z :=
  VObj [ ("MAX_RETRIES", num 3); ("BACKOFF_FACTOR", num 2); ("INITIAL_DELAY", num 1000) ].

Definition DEFAULT_CONFIG : value Z :=
  VObj
    [ ("TIMEOUT", num 30000);
      ("RATE_LIMIT", VObj [ ("REQUESTS_PER_MINUTE", num 100); ("BURST", num 20) ]);
      ("RETRY", RETRY);
      ("WEBSOCKET",
        VObj
          [ ("MAX_RECONNECT_ATTEMPTS", num 5);
            ("RECONNECT_DELAY", num 1000);
            ("PING_INTERVAL", num 30000);
            ("PONG_TIMEOUT", num 5000) ]);
      ("PAGINATION", VObj [ ("DEFAULT_LIMIT", num 50); ("MAX_LIMIT", num 500) ]) ].

Definition API_ENDPOINTS : value Z :=
  VObj
    [ ("PRODUCTION", VStr "https://api.nowpayments.io/v1");
      ("SANDBOX", VStr "https://api-sandbox.nowpayments.io/v1") ].

Definition WEBSOCKET_ENDPOINTS : value Z :=
  VObj
    [ ("PRODUCTION", VStr "wss://api.nowpayments.io/ws");
      ("SANDBOX", VStr "wss://api-sandbox.nowpayments.io/ws") ].

Definition HTTP_METHODS : value Z :=
  VObj
    [ ("GET", VStr "get"); ("POST", VStr "post"); ("PUT", VStr "put");
      ("DELETE", VStr "delete"); ("PATCH", VStr "patch") ].

Definition PAYMENT_STATUSES : value Z :=
  VObj
    [ ("WAITING", VStr "waiting"); ("CONFIRMING", VStr "confirming");
      ("CONFIRMED", VStr "confirmed"); ("SENDING", VStr "sending");
      ("PARTIALLY_PAID", VStr "partially_paid"); ("FINISHED", VStr "finished");
      ("FAILED", VStr "failed"); ("REFUNDED", VStr "refunded");
      ("EXPIRED", VStr "expired") ].

Definition PAYOUT_STATUSES : value Z :=
  VObj
    [ ("PENDING", VStr "pending"); ("PROCESSING", VStr "processing");
      ("COMPLETED", VStr "completed"); ("FAILED", VStr "failed") ].

Definition WEBSOCKET_EVENTS : value Z :=
  VObj
    [ ("CONNECTED", VStr "connected"); ("DISCONNECTED", VStr "disconnected");
      ("PAYMENT_UPDATE", VStr "payment_update"); ("ERROR", VStr "error");
      ("RECONNECTING", VStr "reconnecting"); ("PONG", VStr "pong") ].

Definition ERROR_CODES : value Z :=
  VObj
    [ ("VALIDATION_ERROR", VStr "VALIDATION_ERROR"); ("API_ERROR", VStr "API_ERROR");
      ("WEBSOCKET_ERROR", VStr "WEBSOCKET_ERROR");
      ("MAX_RECONNECT_ERROR", VStr "MAX_RECONNECT_ERROR");
      ("MESSAGE_PARSE_ERROR", VStr "MESSAGE_PARSE_ERROR") ].

Definition SUPPORTED_CURRENCIES : value Z :=
  VObj
    [ ("FIAT", VArr (map VStr ["USD"; "EUR"; "GBP"; "JPY"; "CAD"; "AUD"; "CNY"; "INR"]));
      ("CRYPTO",
        VArr (map VStr ["BTC"; "ETH"; "USDT"; "BNB"; "USDC"; "XRP"; "ADA"; "DOGE"; "SOL"])) ].

Definition NETWORK_TYPES : value Z :=
  VObj [ ("MAINNET", VStr "mainnet"); ("TESTNET", VStr "testnet") ].

(** [module.exports]: the object [require('./constants')] evaluates to.
    These ten names are all it exports. *)
Definition exported : list (string * value Z) :=
  [ ("API_ENDPOINTS", API_ENDPOINTS);
    ("WEBSOCKET_ENDPOINTS", WEBSOCKET_ENDPOINTS);
    ("HTTP_METHODS", HTTP_METHODS);
    ("PAYMENT_STATUSES", PAYMENT_STATUSES);
    ("PAYOUT_STATUSES", PAYOUT_STATUSES);
    ("WEBSOCKET_EVENTS", WEBSOCKET_EVENTS);
    ("DEFAULT_CONFIG", DEFAULT_CONFIG);
    ("ERROR_CODES", ERROR_CODES);
    ("SUPPORTED_CURRENCIES", SUPPORTED_CURRENCIES);
    ("NETWORK_TYPES", NETWORK_TYPES) ].

Definition exports : value Z := VObj exported.

End Constants.

(* ================================================================== *)
(** ** lib/errors.js *)

Module Errors.

(** [code: string | number], and [undefined] for errors that carry none. *)
Inductive code_t : Type :=
| CodeUndefined
| CodeNum (n : Z)
| CodeStr (s : string).

Section WithNum.
Context {num : Type}.

(** [message] holds the argument handed to [Error]; a string argument is
    the error's message as is. *)
Record NOWPaymentsError : Type := {
  name : string;
  message : value num;
  code : code_t;
  data : value num
}.

(** [constructor(message, code, data)] of [NOWPaymentsError]. *)
Definition new_NOWPaymentsError (msg : value num) (c : code_t) (d : value num)
  : NOWPaymentsError :=
  {| name := "NOWPaymentsError"; message := msg; code := c; data := d |}.

Record APIError : Type := {
  base : NOWPaymentsError;
  statusCode : Z;
  responseData : value num
}.

(** [constructor(message, statusCode, responseData)] of [APIError]:
    [super(message, statusCode, responseData)], then the three
    assignments. *)
Definition new_APIError (msg : value num) (status : Z) (rdata : value num) : APIError :=
  let super := new_NOWPaymentsError msg (CodeNum status) rdata in
  {| base := {| name := "APIError"; message := message super;
                code := code super; data := data super |};
     statusCode := status;
     responseData := rdata |}.

End WithNum.

Arguments NOWPaymentsError num : clear implicits.
Arguments APIError num : clear implicits.

End Errors.

(* ================================================================== *)
(** ** lib/utils.js: signatures *)

Module Utils.

Section WithNum.
Context {num : Type}.

(** The property list of [obj] with [f] applied to every value. *)
Definition map_values (f : value num -> value num) (props : list (string * value num))
  : list (string * value num) :=
  map (fun kv : string * value num => let (k, v) := kv in (k, f v)) props.

(** [sortObject]: primitives and [null] are returned as they are, an
    array is mapped, and an object is rebuilt by assigning its properties
    in sorted key order.  The recursive call on [obj[key]] is made on
    every property value first, so that the reducer reads the sorted
    child ([sortObject_obj] below states the source's form). *)
Fixpoint sortObject (obj : value num) : value num :=
  match obj with
  | VArr items => VArr (map sortObject items)
  | VObj props =>
      let children := map_values sortObject props in
      VObj (fold_left (fun result key => set_prop result key (get children key))
                      (sort String.leb (Object_keys props)) [])
  | _ => obj
  end.

(** [JSON.stringify]; [None] when it yields [undefined]. *)
Variable JSON_stringify : value num -> option string.

(** [crypto.createHmac('sha512', secret).update(s).digest('hex')] *)
Variable hmac_sha512_hex : string -> string -> string.

(** [generateSignature(data, secret)]; [None] when [update] throws on an
    [undefined] data string. *)
Definition generateSignature (data : value num) (secret : string) : option string :=
  let sortedData := sortObject data in
  match JSON_stringify sortedData with
  | Some dataString => Some (hmac_sha512_hex secret dataString)
  | None => None
  end.

End WithNum.

End Utils.

Import Errors.

(* ================================================================== *)
(** ** lib/index.js: the request executor *)

Module Api.

(** What the HTTP transport answers to one dispatch: a status line with a
    decoded body, or a failure below HTTP (no response at all), which
    carries a symbolic code such as [ECONNABORTED] or none. *)
Inductive reply (num : Type) : Type :=
| Reply (status : Z) (body : value num)
| NetworkError (errcode : option string) (msg : string).

Arguments Reply {num} status body.
Arguments NetworkError {num} errcode msg.

(** The axios request configuration, as far as the executor reads it. *)
Record Config : Type := { method : string; url : string }.

(** Observable effects of a call, in the order they happen. *)
Inductive effect : Type :=
| RemoveTokens (n : Z)          (* [rateLimiter.removeTokens(n)] *)
| Dispatch (c : Config)         (* the request goes out *)
| LogRequest (c : Config)       (* [_logRequest], on a fulfilled response *)
| Sleep (ms : option Z).        (* [_sleep(ms)]; [None] is [NaN] *)

Definition is_dispatch (e : effect) : bool :=
  match e with Dispatch _ => true | _ => false end.

Definition dispatches (tr : list effect) : nat := List.length (filter is_dispatch tr).

Definition sleeps (tr : list effect) : list (option Z) :=
  flat_map (fun e => match e with Sleep ms => [ms] | _ => [] end) tr.

Section WithNum.
Context {num : Type}.

(** The error axios rejects with: [response] is present exactly when the
    server answered with a status outside 2xx. *)
Record AxiosError : Type := {
  ax_message : string;
  ax_code : option string;
  ax_response : option (Z * value num)
}.

(** Everything a call of the executor can throw. *)
Inductive thrown : Type :=
| ThrowAPIError (e : APIError num)
| ThrowAxios (e : AxiosError)
| ThrowTypeError (msg : string).

(** [error.code] *)
Definition error_code (e : thrown) : code_t :=
  match e with
  | ThrowAPIError a => code (base a)
  | ThrowAxios x =>
      match ax_code x with
      | Some s => CodeStr s
      | None => CodeUndefined
      end
  | ThrowTypeError _ => CodeUndefined
  end.

(** [error.response] *)
Definition error_response (e : thrown) : option (Z * value num) :=
  match e with
  | ThrowAxios x => ax_response x
  | _ => None
  end.

(** *** A state and exception monad for the async methods

    The state is the number of dispatches made so far together with the
    effect trace; [await] is sequencing. *)
Record state : Type := { sent : nat; trace : list effect }.

Definition M (A : Type) : Type := state -> (thrown + A) * state.

Definition ret {A} (a : A) : M A := fun s => (inr a, s).
Definition throw {A} (e : thrown) : M A := fun s => (inl e, s).

Definition bind {A B} (m : M A) (k : A -> M B) : M B :=
  fun s =>
    match m s with
    | (inl e, s') => (inl e, s')
    | (inr a, s') => k a s'
    end.

Definition try_catch {A} (m : M A) (handler : thrown -> M A) : M A :=
  fun s =>
    match m s with
    | (inl e, s') => handler e s'
    | (inr a, s') => (inr a, s')
    end.

Definition tell (e : effect) : M unit :=
  fun s => (inr tt, {| sent := sent s; trace := trace s ++ [e] |}).

Notation "x <- m ;; k" := (bind m (fun x => k))
  (at level 61, m at next level, right associativity).
Notation "m ;;; k" := (bind m (fun _ => k))
  (at level 61, right associativity).

(** The transport collaborator: the reply to the [k]-th dispatch,
    counted from 1. *)
Variable transport : nat -> reply num.

(** axios' default [validateStatus]: 2xx fulfils, every other status
    rejects with the response attached. *)
Definition validateStatus (status : Z) : bool := (200 <=? status) && (status <? 300).

Definition send (c : Config) : M (Z * value num) :=
  fun s =>
    let k := S (sent s) in
    let s' := {| sent := k; trace := trace s ++ [Dispatch c] |} in
    match transport k with
    | Reply status body =>
        if validateStatus status then (inr (status, body), s')
        else
          (inl (ThrowAxios
                  {| ax_message := "Request failed with status code "
                                   ++ NilZero.string_of_int (Z.to_int status);
                     ax_code := if (400 <=? status) && (status <? 500)
                                then Some "ERR_BAD_REQUEST"
                                else if (500 <=? status) && (status <? 600)
                                     then Some "ERR_BAD_RESPONSE"
                                     else None;
                     ax_response := Some (status, body) |}), s')
    | NetworkError c' m =>
        (inl (ThrowAxios {| ax_message := m; ax_code := c'; ax_response := None |}), s')
    end.

(** [new APIError(error.response.data.message, error.response.status,
    error.response.data)]; reading [.message] off a [null] or absent
    body throws instead. *)
Definition wrap_response (status : Z) (body : value num) : thrown :=
  match member body "message" with
  | inl te => ThrowTypeError te
  | inr m => ThrowAPIError (new_APIError m status body)
  end.

(** [this.client.request(config)] with the interceptors installed by
    [_setupInterceptors]: the request interceptor takes a rate-limiter
    token, the response interceptor logs a fulfilled response and wraps
    a rejection that carries a response. *)
Definition client_request (c : Config) : M (Z * value num) :=
  tell (RemoveTokens 1) ;;;
  try_catch
    (response <- send c ;;
     tell (LogRequest c) ;;;
     ret response)
    (fun error =>
       match error_response error with
       | Some (status, body) => throw (wrap_response status body)
       | None => throw error
       end).

Definition _makeRequest (c : Config) : M (value num) :=
  try_catch
    (response <- client_request c ;;
     ret (snd response))
    (fun error =>
       match error_response error with
       | Some (status, body) => throw (wrap_response status body)
       | None => throw error
       end).

Definition _isRetryable (error : thrown) : bool :=
  match error_code error with
  | CodeNum n => (n =? 429) || ((500 <=? n) && (n <=? 599))
  | CodeStr s =>
      let n := string_to_number s in
      number_ge n 500 && number_le n 599
  | CodeUndefined => false
  end.

Definition _sleep (ms : option Z) : M unit := tell (Sleep ms).

(** The module object bound to [constants] in [lib/index.js]. *)
Variable constants : value Z.

Definition lift_member (v : value Z) (key : string) : M (value Z) :=
  match member v key with
  | inl te => throw (ThrowTypeError te)
  | inr x => ret x
  end.

(** [constants.RETRY_CONFIG.INITIAL_DELAY *
     Math.pow(constants.RETRY_CONFIG.BACKOFF_FACTOR, attempt - 1)],
    evaluated left to right. *)
Definition retry_delay (attempt : nat) : M (option Z) :=
  rc1 <- lift_member constants "RETRY_CONFIG" ;;
  initial <- lift_member rc1 "INITIAL_DELAY" ;;
  rc2 <- lift_member constants "RETRY_CONFIG" ;;
  factor <- lift_member rc2 "BACKOFF_FACTOR" ;;
  ret (match to_number initial, to_number factor with
       | Some i, Some f => Some (i * f ^ (Z.of_nat attempt - 1))
       | _, _ => None
       end).

(** The [for] loop of [_retryRequest]: [remaining] counts the iterations
    still allowed by [attempt <= retries], so it reaches [0] exactly when
    the loop condition fails and the function falls off its end. *)
Fixpoint retry_loop (c : Config) (retries : nat) (remaining : nat) (attempt : nat)
  : M (value num) :=
  match remaining with
  | O => ret VUndefined
  | S remaining' =>
      try_catch (_makeRequest c)
        (fun error =>
           if Nat.eqb attempt retries || negb (_isRetryable error)
           then throw error
           else
             ms <- retry_delay attempt ;;
             _sleep ms ;;;
             retry_loop c retries remaining' (S attempt))
  end.

Definition _retryRequest (c : Config) (retries : nat) : M (value num) :=
  retry_loop c retries retries 1%nat.

(** Every public method calls [_retryRequest(config)] with the default
    [retries = 3]. *)
Definition getStatus : M (value num) :=
  _retryRequest {| method := "get"; url := "/status" |} 3%nat.

Definition initial : state := {| sent := 0%nat; trace := [] |}.

(** [verifyIPN(ipnData, signature)] on a client constructed with
    [config.ipnSecret]; the empty string is as falsy as [undefined]. *)
Inductive verdict : Type :=
| Threw (msg : string)
| Returned (valid : bool).

Variable JSON_stringify : value num -> option string.
Variable hmac_sha512_hex : string -> string -> string.

Definition verifyIPN (ipnSecret : option string) (ipnData : value num) (signature : string)
  : verdict :=
  match ipnSecret with
  | None | Some EmptyString => Threw "IPN secret key is not configured"
  | Some secret =>
      match Utils.generateSignature JSON_stringify hmac_sha512_hex ipnData secret with
      | Some sig => Returned (String.eqb sig signature)
      | None => Threw "The data argument must be of type string"
      end
  end.

End WithNum.

Arguments AxiosError num : clear implicits.
Arguments thrown num : clear implicits.

End Api.

(* ================================================================== *)
(** ** lib/WebSocketClient.js *)

Module WebSocketClient.

(** [this.options], after the constructor has filled in the defaults. *)
Module Options.
Record t : Type := {
  maxReconnectAttempts : Z;
  reconnectDelay : Z;
  pingInterval : Z;
  pongTimeout : Z;
  endpoint : string
}.
End Options.

(** [WebSocketOptions]: what the caller passes, every field optional. *)
Record WebSocketOptions : Type := {
  opt_maxReconnectAttempts : option Z;
  opt_reconnectDelay : option Z;
  opt_pingInterval : option Z;
  opt_pongTimeout : option Z;
  opt_endpoint : option string
}.

(** [x || d] on an optional number and on an optional string: [0] and the
    empty string are falsy. *)
Definition or_number (x : option Z) (d : Z) : Z :=
  match x with
  | Some v => if v =? 0 then d else v
  | None => d
  end.

Definition or_string (x : option string) (d : string) : string :=
  match x with
  | Some EmptyString | None => d
  | Some s => s
  end.

(** Timer handles are the identifiers the runtime gave out. *)
Definition handle : Type := nat.

(** The three closures the client hands to [setInterval] and
    [setTimeout]; each captures only [this]. *)
Inductive callback : Type :=
| PingTick        (* the interval body of [_startPingPong] *)
| PongExpired     (* the timeout body armed by a tick *)
| Reconnect.      (* the timeout body armed by [_handleDisconnect] *)

Definition callback_eqb (a b : callback) : bool :=
  match a, b with
  | PingTick, PingTick | PongExpired, PongExpired | Reconnect, Reconnect => true
  | _, _ => false
  end.

Record Timer : Type := {
  id : handle;
  run : callback;
  due : Z;
  repeat : option Z      (* [Some period] for an interval *)
}.

Inductive ReadyState : Type := CONNECTING | OPEN | CLOSING | CLOSED.

(** A [ws] socket: [listening] says whether the five handlers of
    [_setupEventHandlers] are attached. *)
Record Socket : Type := {
  url : string;
  readyState : ReadyState;
  listening : bool
}.

(** Events the client emits to its subscribers. *)
Inductive emitted : Type :=
| connected
| disconnected (reason : string)
| reconnecting (attempt : Z)
| payment_update (message : string)
| pong (latency : Z)
| error (code msg : string).

(** Calls the client makes on a socket. *)
Inductive call : Type :=
| ws_ping (s : nat)
| ws_removeAllListeners (s : nat)
| ws_close (s : nat) (code : Z) (reason : string).

(** The fields of [this]. *)
Record Client : Type := {
  apiKey : string;
  options : Options.t;
  reconnectAttempts : Z;
  isConnected : bool;
  lastPing : option Z;
  pongTimeout : option handle;
  pingInterval : option handle;
  reconnectTimer : option handle;
  ws : option nat
}.

(** The client together with the runtime around it: the clock of the
    timers, the active timers, the sockets created so far (a socket's
    identifier is its position), what has been emitted and called, the
    [TypeError]s its callbacks have thrown, the ['error'] events of
    sockets that found no listener, each of which the emitter throws, and
    the system clock, which [Date.now()] reads.  The timers run on a clock
    of their own, which only advances; the system clock can be set. *)
Record World : Type := {
  this : Client;
  now : Z;
  timers : list Timer;
  next_timer : handle;
  sockets : list Socket;
  events : list emitted;
  calls : list call;
  uncaught : list string;
  unhandled : list string;
  date : Z
}.

(** *** Field updates *)

Definition set_reconnectAttempts (n : Z) (c : Client) : Client :=
  {| apiKey := apiKey c; options := options c; reconnectAttempts := n;
     isConnected := isConnected c; lastPing := lastPing c; pongTimeout := pongTimeout c;
     pingInterval := pingInterval c; reconnectTimer := reconnectTimer c; ws := ws c |}.

Definition set_isConnected (b : bool) (c : Client) : Client :=
  {| apiKey := apiKey c; options := options c; reconnectAttempts := reconnectAttempts c;
     isConnected := b; lastPing := lastPing c; pongTimeout := pongTimeout c;
     pingInterval := pingInterval c; reconnectTimer := reconnectTimer c; ws := ws c |}.

Definition set_lastPing (t : option Z) (c : Client) : Client :=
  {| apiKey := apiKey c; options := options c; reconnectAttempts := reconnectAttempts c;
     isConnected := isConnected c; lastPing := t; pongTimeout := pongTimeout c;
     pingInterval := pingInterval c; reconnectTimer := reconnectTimer c; ws := ws c |}.

Definition set_pongTimeout (h : option handle) (c : Client) : Client :=
  {| apiKey := apiKey c; options := options c; reconnectAttempts := reconnectAttempts c;
     isConnected := isConnected c; lastPing := lastPing c; pongTimeout := h;
     pingInterval := pingInterval c; reconnectTimer := reconnectTimer c; ws := ws c |}.

Definition set_pingInterval (h : option handle) (c : Client) : Client :=
  {| apiKey := apiKey c; options := options c; reconnectAttempts := reconnectAttempts c;
     isConnected := isConnected c; lastPing := lastPing c; pongTimeout := pongTimeout c;
     pingInterval := h; reconnectTimer := reconnectTimer c; ws := ws c |}.

Definition set_reconnectTimer (h : option handle) (c : Client) : Client :=
  {| apiKey := apiKey c; options := options c; reconnectAttempts := reconnectAttempts c;
     isConnected := isConnected c; lastPing := lastPing c; pongTimeout := pongTimeout c;
     pingInterval := pingInterval c; reconnectTimer := h; ws := ws c |}.

Definition set_ws (s : option nat) (c : Client) : Client :=
  {| apiKey := apiKey c; options := options c; reconnectAttempts := reconnectAttempts c;
     isConnected := isConnected c; lastPing := lastPing c; pongTimeout := pongTimeout c;
     pingInterval := pingInterval c; reconnectTimer := reconnectTimer c; ws := s |}.

Definition upd_this (f : Client -> Client) (w : World) : World :=
  {| this := f (this w); now := now w; timers := timers w; next_timer := next_timer w;
     sockets := sockets w; events := events w; calls := calls w; uncaught := uncaught w;
     unhandled := unhandled w; date := date w |}.

Definition upd_timers (f : list Timer -> list Timer) (w : World) : World :=
  {| this := this w; now := now w; timers := f (timers w); next_timer := next_timer w;
     sockets := sockets w; events := events w; calls := calls w; uncaught := uncaught w;
     unhandled := unhandled w; date := date w |}.

Definition upd_sockets (f : list Socket -> list Socket) (w : World) : World :=
  {| this := this w; now := now w; timers := timers w; next_timer := next_timer w;
     sockets := f (sockets w); events := events w; calls := calls w; uncaught := uncaught w;
     unhandled := unhandled w; date := date w |}.

(** [this.emit(...)] *)
Definition emit (e : emitted) (w : World) : World :=
  {| this := this w; now := now w; timers := timers w; next_timer := next_timer w;
     sockets := sockets w; events := events w ++ [e]; calls := calls w;
     uncaught := uncaught w; unhandled := unhandled w; date := date w |}.

Definition record_call (c : call) (w : World) : World :=
  {| this := this w; now := now w; timers := timers w; next_timer := next_timer w;
     sockets := sockets w; events := events w; calls := calls w ++ [c];
     uncaught := uncaught w; unhandled := unhandled w; date := date w |}.

Definition record_uncaught (msg : string) (w : World) : World :=
  {| this := this w; now := now w; timers := timers w; next_timer := next_timer w;
     sockets := sockets w; events := events w; calls := calls w;
     uncaught := uncaught w ++ [msg]; unhandled := unhandled w; date := date w |}.

Definition record_unhandled (msg : string) (w : World) : World :=
  {| this := this w; now := now w; timers := timers w; next_timer := next_timer w;
     sockets := sockets w; events := events w; calls := calls w;
     uncaught := uncaught w; unhandled := unhandled w ++ [msg]; date := date w |}.

(** Time passes: both clocks advance. *)
Definition advance (dt : Z) (w : World) : World :=
  {| this := this w; now := now w + dt; timers := timers w; next_timer := next_timer w;
     sockets := sockets w; events := events w; calls := calls w; uncaught := uncaught w;
     unhandled := unhandled w; date := date w + dt |}.

(** The system clock is set to [t]; the timers' clock is not. *)
Definition set_date (t : Z) (w : World) : World :=
  {| this := this w; now := now w; timers := timers w; next_timer := next_timer w;
     sockets := sockets w; events := events w; calls := calls w; uncaught := uncaught w;
     unhandled := unhandled w; date := t |}.

(** *** The timer runtime *)

(** Node replaces a delay outside [1 .. 2^31 - 1] by [1]. *)
Definition timer_delay (ms : Z) : Z :=
  if (1 <=? ms) && (ms <=? 2147483647) then ms else 1.

Definition arm (cb : callback) (ms : Z) (period : option Z) (w : World) : handle * World :=
  let h := next_timer w in
  (h,
   {| this := this w; now := now w;
      timers := timers w ++ [ {| id := h; run := cb; due := now w + ms; repeat := period |} ];
      next_timer := S h;
      sockets := sockets w; events := events w; calls := calls w; uncaught := uncaught w;
      unhandled := unhandled w; date := date w |}).

Definition setTimeout (cb : callback) (ms : Z) (w : World) : handle * World :=
  arm cb (timer_delay ms) None w.

Definition setInterval (cb : callback) (ms : Z) (w : World) : handle * World :=
  arm cb (timer_delay ms) (Some (timer_delay ms)) w.

Definition cancel (h : handle) (ts : list Timer) : list Timer :=
  filter (fun t => negb (Nat.eqb (id t) h)) ts.

(** [clearTimeout(h)] and [clearInterval(h)]; a [null] handle, or that
    of a timer that has fired, is ignored. *)
Definition clearTimer (h : option handle) (w : World) : World :=
  match h with
  | Some t => upd_timers (cancel t) w
  | None => w
  end.

Definition clearTimeout := clearTimer.
Definition clearInterval := clearTimer.

Definition find_timer (h : handle) (w : World) : option Timer :=
  find (fun t => Nat.eqb (id t) h) (timers w).

(** *** The socket runtime *)

Definition set_nth {A : Type} (n : nat) (f : A -> A) (l : list A) : list A :=
  firstn n l ++ match nth_error l n with
                | Some x => f x :: skipn (S n) l
                | None => []
                end.

Definition set_readyState (r : ReadyState) (s : Socket) : Socket :=
  {| url := url s; readyState := r; listening := listening s |}.

Definition set_listening (b : bool) (s : Socket) : Socket :=
  {| url := url s; readyState := readyState s; listening := b |}.

Definition socket (s : nat) (w : World) : option Socket := nth_error (sockets w) s.

(** [new WebSocket(endpoint, ...)] *)
Definition new_WebSocket (endpoint : string) (w : World) : nat * World :=
  (List.length (sockets w),
   upd_sockets
     (fun l => (l ++ [ {| url := endpoint; readyState := CONNECTING; listening := false |} ])%list)
     w).

(** *** The constructor *)

Definition DEFAULT_ENDPOINT : string := "wss://api.nowpayments.io/ws".

Definition new_client (key : string) (o : WebSocketOptions) : Client :=
  {| apiKey := key;
     options :=
       {| Options.maxReconnectAttempts := or_number (opt_maxReconnectAttempts o) 5;
          Options.reconnectDelay := or_number (opt_reconnectDelay o) 1000;
          Options.pingInterval := or_number (opt_pingInterval o) 30000;
          Options.pongTimeout := or_number (opt_pongTimeout o) 5000;
          Options.endpoint := or_string (opt_endpoint o) DEFAULT_ENDPOINT |};
     reconnectAttempts := 0;
     isConnected := false;
     lastPing := None;
     pongTimeout := None;
     pingInterval := None;
     reconnectTimer := None;
     ws := None |}.

(** A freshly constructed client in a runtime whose clocks read [t0]. *)
Definition boot (t0 : Z) (key : string) (o : WebSocketOptions) : World :=
  {| this := new_client key o; now := t0; timers := []; next_timer := 0%nat;
     sockets := []; events := []; calls := []; uncaught := []; unhandled := [];
     date := t0 |}.

Definition no_options : WebSocketOptions :=
  {| opt_maxReconnectAttempts := None; opt_reconnectDelay := None;
     opt_pingInterval := None; opt_pongTimeout := None; opt_endpoint := None |}.

(** *** The methods *)

(** [close()] *)
Definition close (w : World) : World :=
  let w := clearInterval (pingInterval (this w)) w in
  let w := clearTimeout (pongTimeout (this w)) w in
  let w := clearTimeout (reconnectTimer (this w)) w in
  let w :=
    match ws (this w) with
    | Some s =>
        let w := record_call (ws_removeAllListeners s)
                   (upd_sockets (set_nth s (set_listening false)) w) in
        let w :=
          match socket s w with
          | Some {| readyState := OPEN |} | Some {| readyState := CONNECTING |} =>
              record_call (ws_close s 1000 "Client closed connection")
                (upd_sockets (set_nth s (set_readyState CLOSING)) w)
          | _ => w
          end in
        upd_this (set_ws None) w
    | None => w
    end in
  upd_this (set_isConnected false) w.

(** [_startPingPong()] *)
Definition _startPingPong (w : World) : World :=
  let (h, w) := setInterval PingTick (Options.pingInterval (options (this w))) w in
  upd_this (set_pingInterval (Some h)) w.

(** [_setupEventHandlers()]: the five handlers are attached to
    [this.ws]; what each does is [on_open] ... [on_error] below. *)
Definition _setupEventHandlers (w : World) : World :=
  match ws (this w) with
  | Some s => upd_sockets (set_nth s (set_listening true)) w
  | None => record_uncaught (cannot_read "undefined" "on") w
  end.

(** [connect()] *)
Definition connect (w : World) : World :=
  let w := match ws (this w) with
           | Some _ => close w
           | None => w
           end in
  let (s, w) := new_WebSocket (Options.endpoint (options (this w))) w in
  let w := upd_this (set_ws (Some s)) w in
  let w := _setupEventHandlers w in
  _startPingPong w.

(** [_handleDisconnect(code, reason)] *)
Definition _handleDisconnect (code : Z) (reason : string) (w : World) : World :=
  let w := upd_this (set_isConnected false) w in
  let w := clearInterval (pingInterval (this w)) w in
  let w := clearTimeout (pongTimeout (this w)) w in
  let w := emit (disconnected reason) w in
  let w := match reconnectTimer (this w) with
           | Some h => clearTimeout (Some h) w
           | None => w
           end in
  if reconnectAttempts (this w) <? Options.maxReconnectAttempts (options (this w)) then
    let w := upd_this (set_reconnectAttempts (reconnectAttempts (this w) + 1)) w in
    let delay := Options.reconnectDelay (options (this w))
                 * 2 ^ (reconnectAttempts (this w) - 1) in
    let w := emit (reconnecting (reconnectAttempts (this w))) w in
    let (h, w) := setTimeout Reconnect delay w in
    upd_this (set_reconnectTimer (Some h)) w
  else
    emit (error "MaxReconnectError" "Maximum reconnection attempts reached") w.

(** The ['open'] handler. *)
Definition on_open (w : World) : World :=
  let w := upd_this (set_isConnected true) w in
  let w := upd_this (set_reconnectAttempts 0) w in
  emit connected w.

(** An inbound frame as the ['message'] handler sees it: a document, with
    whether its [type] is ['payment_update'], or data that makes the
    [try] block throw ([JSON.parse] rejects it, or it parses to [null]). *)
Inductive frame : Type :=
| Document (is_payment_update : bool) (text : string)
| Garbled (parse_error : string).

(** The ['message'] handler. *)
Definition on_message (f : frame) (w : World) : World :=
  match f with
  | Document true text => emit (payment_update text) w
  | Document false _ => w
  | Garbled msg => emit (error "MessageParseError" msg) w
  end.

(** The ['pong'] handler; [Date.now() - null] is [Date.now()]. *)
Definition on_pong (w : World) : World :=
  let w := clearTimeout (pongTimeout (this w)) w in
  let latency := date w - match lastPing (this w) with Some t => t | None => 0 end in
  emit (pong latency) w.

(** The ['close'] handler. *)
Definition on_close (code : Z) (reason : string) (w : World) : World :=
  _handleDisconnect code reason w.

(** The ['error'] handler. *)
Definition on_error (msg : string) (w : World) : World :=
  emit (error "WebSocketError" msg) w.

(** The interval body of [_startPingPong]. *)
Definition ping_tick (w : World) : World :=
  if isConnected (this w) then
    let w := upd_this (set_lastPing (Some (date w))) w in
    match ws (this w) with
    | None => record_uncaught (cannot_read "null" "ping") w
    | Some s =>
        let w := record_call (ws_ping s) w in
        let (h, w) := setTimeout PongExpired (Options.pongTimeout (options (this w))) w in
        upd_this (set_pongTimeout (Some h)) w
    end
  else w.

(** The timeout body armed by a tick. *)
Definition pong_expired (w : World) : World := _handleDisconnect 1001 "Pong timeout" w.

(** The timeout body armed by [_handleDisconnect]. *)
Definition reconnect_due (w : World) : World := connect w.

(** The body behind each closure. *)
Definition run_callback (cb : callback) (w : World) : World :=
  match cb with
  | PingTick => ping_tick w
  | PongExpired => pong_expired w
  | Reconnect => reconnect_due w
  end.

(** *** The event loop

    What can happen to a client: its owner calls [connect()] or
    [close()], time passes, the runtime runs a timer, a socket emits, or
    the system clock is set (to a time after the epoch).  Timers run in
    deadline order: one runs only when it is due and no active timer is
    due earlier.  An interval is re-armed one period after
    the run, unless its body cleared it.  A socket event reaches the
    client only through attached handlers; the owner's calls come
    between callbacks, not from inside a listener of the client's
    events. *)
Inductive transport_event : Type :=
| ev_open
| ev_message (f : frame)
| ev_pong
| ev_close (code : Z) (reason : string)
| ev_error (msg : string).

Inductive event : Type :=
| CallConnect
| CallClose
| Elapse (dt : Z)
| Fire (h : handle)
| Transport (s : nat) (e : transport_event)
| SetDate (t : Z).

(** No active timer is due before [t]. *)
Definition earliest (t : Timer) (w : World) : bool :=
  forallb (fun o => due t <=? due o) (timers w).

(** The interval [h], if still active, is due again at [at_]. *)
Definition rearm (h : handle) (at_ : Z) (ts : list Timer) : list Timer :=
  map (fun t => if Nat.eqb (id t) h
                then {| id := id t; run := run t; due := at_; repeat := repeat t |}
                else t) ts.

(** The runtime runs timer [h]: a timeout is removed before its body
    runs, an interval is re-armed after. *)
Definition fire (h : handle) (w : World) : option World :=
  match find_timer h w with
  | Some t =>
      if (due t <=? now w) && earliest t w then
        match repeat t with
        | Some period =>
            let w := run_callback (run t) w in
            Some (upd_timers (rearm h (now w + period)) w)
        | None =>
            Some (run_callback (run t) (upd_timers (cancel h) w))
        end
      else None
  | None => None
  end.

(** The state a socket in state [r] is in when it emits [e]; [None] when
    it cannot emit it: a closed socket emits nothing, only a connecting
    one opens, only an opened one receives. *)
Definition ready_after (e : transport_event) (r : ReadyState) : option ReadyState :=
  match e, r with
  | _, CLOSED => None
  | ev_open, CONNECTING => Some OPEN
  | ev_open, _ => None
  | ev_message _, CONNECTING => None
  | ev_pong, CONNECTING => None
  | ev_message _, r => Some r
  | ev_pong, r => Some r
  | ev_close _ _, _ => Some CLOSED
  | ev_error _, _ => Some CLOSING
  end.

(** The handlers attached by [_setupEventHandlers]. *)
Definition handler (e : transport_event) (w : World) : World :=
  match e with
  | ev_open => on_open w
  | ev_message f => on_message f w
  | ev_pong => on_pong w
  | ev_close code reason => on_close code reason w
  | ev_error msg => on_error msg w
  end.

(** An event of a socket that has no listener attached: nothing runs,
    except that an emitter throws an ['error'] nobody listens to. *)
Definition unheard (e : transport_event) (w : World) : World :=
  match e with
  | ev_error msg => record_unhandled msg w
  | _ => w
  end.

(** Socket [s] emits [e]. *)
Definition deliver (s : nat) (e : transport_event) (w : World) : option World :=
  match socket s w with
  | Some sock =>
      match ready_after e (readyState sock) with
      | Some r =>
          let w := upd_sockets (set_nth s (set_readyState r)) w in
          Some (if listening sock then handler e w else unheard e w)
      | None => None
      end
  | None => None
  end.

(** One event; [None] when it cannot happen in [w]. *)
Definition step (w : World) (e : event) : option World :=
  match e with
  | CallConnect => Some (connect w)
  | CallClose => Some (close w)
  | Elapse dt => if 0 <=? dt then Some (advance dt w) else None
  | Fire h => fire h w
  | Transport s te => deliver s te w
  | SetDate t => if 0 <? t then Some (set_date t w) else None
  end.

Fixpoint exec (w : World) (es : list event) : option World :=
  match es with
  | [] => Some w
  | e :: rest =>
      match step w e with
      | Some w' => exec w' rest
      | None => None
      end
  end.

(** *** Observations *)

Definition is_pong_timer (t : Timer) : bool := callback_eqb (run t) PongExpired.
Definition is_ping_timer (t : Timer) : bool := callback_eqb (run t) PingTick.
Definition is_reconnect_timer (t : Timer) : bool := callback_eqb (run t) Reconnect.

(** The probes still awaiting their pong: the armed pong timeouts. *)
Definition outstanding_probes (w : World) : list Timer := filter is_pong_timer (timers w).

Definition is_max_reconnect_error (e : emitted) : bool :=
  match e with
  | error code _ => String.eqb code "MaxReconnectError"
  | _ => false
  end.

Definition is_disconnected (e : emitted) : bool :=
  match e with disconnected _ => true | _ => false end.

Definition max_reconnect_errors (w : World) : nat :=
  List.length (filter is_max_reconnect_error (events w)).

End WebSocketClient.

(* ================================================================== *)
(** ** Vocabulary of the properties *)

Module Properties.

Import Api.

Section Executor.
Context {num : Type}.

(** A code string that [code >= 500 && code <= 599] accepts: one that
    converts to a number from 500 to 599. *)
Definition converts_to_5xx (s : string) : bool :=
  number_ge (string_to_number s) 500 && number_le (string_to_number s) 599.

(** What one call of [_makeRequest] makes of the transport's reply: the
    body of a 2xx response, or the error it throws. *)
Definition outcome (r : reply num) : thrown num + value num :=
  match r with
  | Reply status body =>
      if validateStatus status then inr body else inl (wrap_response status body)
  | NetworkError errcode msg =>
      inl (ThrowAxios {| ax_message := msg; ax_code := errcode; ax_response := None |})
  end.

(** The effects of one attempt. *)
Definition attempt_trace (c : Config) (r : reply num) : list effect :=
  [RemoveTokens 1; Dispatch c] ++
  match outcome r with
  | inr _ => [LogRequest c]
  | inl _ => []
  end.

(** A reply the executor classifies as worth another attempt. *)
Definition retryable_reply (r : reply num) : Prop :=
  exists e, outcome r = inl e /\ _isRetryable e = true.

(** A rejected first dispatch of the terminal kind, with the error
    [_makeRequest] throws for it: a 4xx status other than 429, whatever
    was decoded of its body; an error below HTTP, whose code is absent or
    converts to no number from 500 to 599; a response outside 2xx whose
    body is [null] or missing, so that no message can be read off it. *)
Inductive terminal_failure : reply num -> thrown num -> Prop :=
| terminal_4xx (status : Z) (body msg : value num) :
    400 <= status <= 499 -> status <> 429 ->
    member body "message" = inr msg ->
    terminal_failure (Reply status body) (ThrowAPIError (new_APIError msg status body))
| terminal_network (errcode : option string) (msg : string) :
    match errcode with
    | Some s => converts_to_5xx s = false
    | None => True
    end ->
    terminal_failure (NetworkError errcode msg)
      (ThrowAxios {| ax_message := msg; ax_code := errcode; ax_response := None |})
| terminal_malformed (status : Z) (body : value num) (te : string) :
    validateStatus status = false ->
    member body "message" = inl te ->
    terminal_failure (Reply status body) (ThrowTypeError te).

(** The effects of a call that fails [k] times and then succeeds, when
    every retry sleeps [i * f ^ (attempt - 1)]. *)
Fixpoint backoff_trace (c : Config) (i f : Z) (attempt : nat) (k : nat) : list effect :=
  match k with
  | O => [RemoveTokens 1; Dispatch c; LogRequest c]
  | S k' =>
      [RemoveTokens 1; Dispatch c; Sleep (Some (i * f ^ (Z.of_nat attempt - 1)))]
      ++ backoff_trace c i f (S attempt) k'
  end.

End Executor.

(** The scenario of the specification: 503, 503, then 200. *)
Definition unavailable : value Z := VObj [("message", VStr "Service Unavailable")].
Definition ok_body : value Z := VObj [("message", VStr "OK")].

Definition flaky (k : nat) : reply Z :=
  match k with
  | 1%nat | 2%nat => Reply 503 unavailable
  | _ => Reply 200 ok_body
  end.

Definition status_request : Config := {| method := "get"; url := "/status" |}.

(** A malformed response: a 200 whose body is no JSON, which axios hands
    on as the text it received. *)
Definition malformed_ok (k : nat) : reply Z := Reply 200 (VStr "<html>not json</html>").

(** A request that timed out below HTTP. *)
Definition timed_out (k : nat) : reply Z :=
  NetworkError (Some "ECONNABORTED") "timeout of 30000ms exceeded".

(** [lib/constants.js] as it would read with the retry settings exported
    under the name [lib/index.js] looks them up by. *)
Definition exports_with_RETRY_CONFIG : value Z :=
  VObj (Constants.exported ++ [ ("RETRY_CONFIG", Constants.RETRY) ]).

(** Two payloads with the same entries: equal primitives, arrays equal
    element by element, and objects (no key twice) in which every key of
    one is a key of the other, bound to a payload with the same entries;
    the order of the keys is free. *)
Fixpoint same_entries {num : Type} (a b : value num) : Prop :=
  match a with
  | VArr xs =>
      match b with
      | VArr ys =>
          (fix all2 (xs : list (value num)) (ys : list (value num)) : Prop :=
             match xs, ys with
             | [], [] => True
             | x :: xs', y :: ys' => same_entries x y /\ all2 xs' ys'
             | _, _ => False
             end) xs ys
      | _ => False
      end
  | VObj ps =>
      match b with
      | VObj qs =>
          NoDup (map fst ps) /\ NoDup (map fst qs) /\
          List.length ps = List.length qs /\
          (fix all (ps : list (string * value num)) : Prop :=
             match ps with
             | [] => True
             | (k, v) :: ps' =>
                 match lookup k qs with
                 | Some w => same_entries v w
                 | None => False
                 end /\ all ps'
             end) ps
      | _ => False
      end
  | _ => a = b
  end.

(** Stand-ins for [JSON.stringify] and the HMAC in examples. *)
Definition stringify_stub (v : value Z) : option string :=
  match v with
  | VUndefined => None
  | _ => Some "{}"
  end.

Definition hmac_stub (secret dataString : string) : string := secret ++ ":" ++ dataString.

(** One payload written with two key orders, at both nesting levels. *)
Definition payload_1 : value Z :=
  VObj [ ("payment_id", VStr "42");
         ("outcome", VObj [ ("currency", VStr "BTC"); ("amount", VNum 7) ]);
         ("history", VArr [ VObj [ ("to", VStr "finished"); ("from", VStr "sending") ] ]) ].

Definition payload_2 : value Z :=
  VObj [ ("history", VArr [ VObj [ ("from", VStr "sending"); ("to", VStr "finished") ] ]);
         ("outcome", VObj [ ("amount", VNum 7); ("currency", VStr "BTC") ]);
         ("payment_id", VStr "42") ].

End Properties.

(* ================================================================== *)
(** ** Vocabulary of the socket client's properties *)

Module SocketProperties.

Import WebSocketClient.

(** The pong timeout is shorter than the ping interval, as the runtime
    counts them: each is the option's value from 1 to 2 147 483 647 ms,
    and 1 ms for any other.  5000 against 30000 by default. *)
Definition timing_ok (o : Options.t) : Prop :=
  timer_delay (Options.pongTimeout o) < timer_delay (Options.pingInterval o).

(** The timers left by [clearTimeout(h)] or [clearInterval(h)]. *)
Definition cancel_handle (h : option handle) (ts : list Timer) : list Timer :=
  match h with
  | Some t => cancel t ts
  | None => ts
  end.

(** The timers left once the three handles held by [this] are cleared. *)
Definition cleared (w : World) : list Timer :=
  cancel_handle (reconnectTimer (this w))
    (cancel_handle (pongTimeout (this w))
       (cancel_handle (pingInterval (this w)) (timers w))).

(** The timer [_handleDisconnect] arms while attempts remain: the delay
    is computed after [reconnectAttempts] has been incremented. *)
Definition reconnect_timer (w : World) : Timer :=
  {| id := next_timer w;
     run := Reconnect;
     due := now w
            + timer_delay (Options.reconnectDelay (options (this w))
                           * 2 ^ (reconnectAttempts (this w) + 1 - 1));
     repeat := None |}.

(** The timeout a tick arms. *)
Definition pong_timer (w : World) : Timer :=
  {| id := next_timer w;
     run := PongExpired;
     due := now w + timer_delay (Options.pongTimeout (options (this w)));
     repeat := None |}.

(** The interval [_startPingPong] arms. *)
Definition ping_timer (w : World) : Timer :=
  {| id := next_timer w;
     run := PingTick;
     due := now w + timer_delay (Options.pingInterval (options (this w)));
     repeat := Some (timer_delay (Options.pingInterval (options (this w)))) |}.

(** What holds of every world a client can reach when its pong timeout is
    shorter than its ping interval: handles are fresh and distinct; every
    active timer is the one its field of [this] refers to; an armed pong
    timeout is due before the next tick; and a client without a socket has
    neither heartbeat timer. *)
Record Inv (w : World) : Prop := {
  inv_timing : timing_ok (options (this w));
  inv_fresh : forall t, In t (timers w) -> (id t < next_timer w)%nat;
  inv_nodup : NoDup (map id (timers w));
  inv_pong : forall t, In t (timers w) -> run t = PongExpired ->
             pongTimeout (this w) = Some (id t);
  inv_ping : forall t, In t (timers w) -> run t = PingTick ->
             pingInterval (this w) = Some (id t)
             /\ repeat t = Some (timer_delay (Options.pingInterval (options (this w))));
  inv_order : forall p i, In p (timers w) -> In i (timers w) ->
              run p = PongExpired -> run i = PingTick -> due p < due i;
  inv_reconnect : forall t, In t (timers w) -> run t = Reconnect ->
                  reconnectTimer (this w) = Some (id t);
  inv_idle : ws (this w) = None -> forall t, In t (timers w) -> run t = Reconnect
}.

Definition quiet (ts : list Timer) : Prop := forall t, In t ts -> run t = Reconnect.

Definition no_pong (ts : list Timer) : Prop := forall t, In t ts -> run t <> PongExpired.

(** The part of [connect()] after the previous socket, if any, has been
    closed. *)
Definition connect_fresh (w : World) : World :=
  let (s, w) := new_WebSocket (Options.endpoint (options (this w))) w in
  let w := upd_this (set_ws (Some s)) w in
  let w := _setupEventHandlers w in
  _startPingPong w.

(** What [_handleDisconnect] emits after ['disconnected']. *)
Definition announcement (c : Client) : emitted :=
  if reconnectAttempts c <? Options.maxReconnectAttempts (options c)
  then reconnecting (reconnectAttempts c + 1)
  else error "MaxReconnectError" "Maximum reconnection attempts reached".

(** Only the client's current socket has its handlers attached. *)
Definition attached_to_current (w : World) : Prop :=
  forall s sock, socket s w = Some sock -> listening sock = true -> ws (this w) = Some s.

(** The world after a run of events. *)
Definition after (es : list event) (w : World) : World :=
  match exec w es with
  | Some w' => w'
  | None => w
  end.

(** *** Scenarios *)

(** A session that connects and opens, with the default options. *)
Definition connected_session : list event := [CallConnect; Transport 0%nat ev_open].

(** The socket closes, and then each of the first four reconnections,
    made when its delay has elapsed, fails with a close: five consecutive
    close events. *)
Definition five_closes (code : nat -> Z) (reason : nat -> string) : list event :=
  [ Transport 0%nat (ev_close (code 1%nat) (reason 1%nat));
    Elapse 1000; Fire 1%nat; Transport 1%nat (ev_close (code 2%nat) (reason 2%nat));
    Elapse 2000; Fire 3%nat; Transport 2%nat (ev_close (code 3%nat) (reason 3%nat));
    Elapse 4000; Fire 5%nat; Transport 3%nat (ev_close (code 4%nat) (reason 4%nat));
    Elapse 8000; Fire 7%nat; Transport 4%nat (ev_close (code 5%nat) (reason 5%nat)) ].

(** The fifth reconnection fails as well: the sixth close event. *)
Definition sixth_close (code : nat -> Z) (reason : nat -> string) : list event :=
  [ Elapse 16000; Fire 9%nat; Transport 5%nat (ev_close (code 6%nat) (reason 6%nat)) ].

Definition abnormal (_ : nat) : Z := 1006.
Definition no_reason (_ : nat) : string := "".

(** Options with a ping every second and five seconds to answer. *)
Definition eager_ping : WebSocketOptions :=
  {| opt_maxReconnectAttempts := None; opt_reconnectDelay := None;
     opt_pingInterval := Some 1000; opt_pongTimeout := Some 5000;
     opt_endpoint := None |}.

(** Two ticks one second apart on an open connection that answers
    neither ping. *)
Definition first_tick : list event :=
  [CallConnect; Transport 0%nat ev_open; Elapse 1000; Fire 0%nat; Elapse 1000].

Definition two_ticks : list event := (first_tick ++ [Fire 0%nat])%list.

(** A ping interval beyond what a timer takes, with one second to
    answer; and two ticks of it, a millisecond apart. *)
Definition overlong_interval : WebSocketOptions :=
  {| opt_maxReconnectAttempts := None; opt_reconnectDelay := None;
     opt_pingInterval := Some 3000000000; opt_pongTimeout := Some 1000;
     opt_endpoint := None |}.

Definition hasty_ticks : list event :=
  [CallConnect; Transport 0%nat ev_open; Elapse 1; Fire 0%nat; Elapse 1; Fire 0%nat].

(** A default session whose first ping, sent after 30 s, has gone
    unanswered for 5 s. *)
Definition silent_peer : list event :=
  [CallConnect; Transport 0%nat ev_open; Elapse 30000; Fire 0%nat; Elapse 5000].

(** A default session with one answered ping and a second tick. *)
Definition healthy : list event :=
  [CallConnect; Transport 0%nat ev_open; Elapse 30000; Fire 0%nat; Elapse 40;
   Transport 0%nat ev_pong; Elapse 29960; Fire 0%nat].

(** *** The reconnection budget, for any options *)

Definition reconnection_fails (code : Z) (reason : string) (w : World) : option World :=
  match reconnectTimer (this w) with
  | None => None
  | Some h =>
      match find_timer h w with
      | None => None
      | Some t =>
          match exec w [Elapse (due t - now w); Fire h] with
          | None => None
          | Some w1 =>
              match ws (this w1) with
              | None => None
              | Some s => step w1 (Transport s (ev_close code reason))
              end
          end
      end
  end.

Fixpoint reconnections_fail (k : nat) (code : Z) (reason : string) (w : World)
  : option World :=
  match k with
  | O => Some w
  | S k' =>
      match reconnections_fail k' code reason w with
      | Some w' => reconnection_fails code reason w'
      | None => None
      end
  end.

Record Waiting (k : Z) (w : World) : Prop := {
  waiting_attempts : reconnectAttempts (this w) = k;
  waiting_silent : max_reconnect_errors w = 0%nat;
  waiting_timer :
    exists r, timers w = [r] /\ run r = Reconnect /\ repeat r = None
              /\ reconnectTimer (this w) = Some (id r)
              /\ due r = now w + timer_delay (Options.reconnectDelay (options (this w))
                                              * 2 ^ (k - 1))
}.

Definition Exhausted (w : World) : Prop :=
  max_reconnect_errors w = 1%nat /\ timers w = [].

End SocketProperties.

(* ================================================================== *)
(** ** Vocabulary of the session invariants *)

Module SessionProperties.

Import WebSocketClient SocketProperties.

(** The socket [this.ws] refers to exists and has the handlers of
    [_setupEventHandlers] attached. *)
Definition current_is_attached (w : World) : Prop :=
  forall s, ws (this w) = Some s ->
    exists sock, socket s w = Some sock /\ listening sock = true.

(** A client whose [isConnected] is set holds a socket that has opened
    and has not reported its close. *)
Definition connected_is_open (w : World) : Prop :=
  isConnected (this w) = true ->
  exists s sock,
    ws (this w) = Some s /\ socket s w = Some sock
    /\ (readyState sock = OPEN \/ readyState sock = CLOSING).

(** What holds of the sockets in every world a client can reach. *)
Record Sound (w : World) : Prop := {
  sound_attached : attached_to_current w;
  sound_current : current_is_attached w;
  sound_connected : connected_is_open w;
  sound_uncaught : uncaught w = []
}.

(** An announced reconnection attempt lies within the budget [n]. *)
Definition reconnecting_within (n : Z) (e : emitted) : Prop :=
  match e with
  | reconnecting k => 1 <= k <= n
  | _ => True
  end.

(** The options are those the constructor set, the attempt counter lies
    between 0 and the budget, and so did every announced attempt. *)
Record Budgeted (o : Options.t) (w : World) : Prop := {
  budget_options : options (this w) = o;
  budget_attempts :
    0 <= reconnectAttempts (this w) <= Z.max 0 (Options.maxReconnectAttempts o);
  budget_events : Forall (reconnecting_within (Options.maxReconnectAttempts o)) (events w)
}.

Definition is_ping (c : call) : bool :=
  match c with ws_ping _ => true | _ => false end.

(** No event of the run that starts in [w] sets the system clock
    back. *)
Fixpoint steady (w : World) (es : list event) : bool :=
  match es with
  | [] => true
  | e :: rest =>
      match e with
      | SetDate t => date w <=? t
      | _ => true
      end
      && match step w e with
         | Some w' => steady w' rest
         | None => true
         end
  end.

Definition latency_nonneg (e : emitted) : Prop :=
  match e with
  | pong latency => 0 <= latency
  | _ => True
  end.

(** The system clock is past the epoch, [lastPing] is not ahead of it,
    and no negative latency was reported. *)
Record Clocked (w : World) : Prop := {
  clock_epoch : 0 <= date w;
  clock_lastPing : forall t, lastPing (this w) = Some t -> t <= date w;
  clock_latency : Forall latency_nonneg (events w)
}.

(** [lastPing] is set exactly when a ping has been sent, and then to a
    clock reading past the epoch. *)
Record PingLog (w : World) : Prop := {
  pings_clock : 0 < date w;
  pings_none : lastPing (this w) = None -> filter is_ping (calls w) = [];
  pings_some : forall t, lastPing (this w) = Some t ->
               0 < t /\ filter is_ping (calls w) <> []
}.

(** The active timers of one kind. *)
Definition timers_running (cb : callback) (w : World) : list Timer :=
  filter (fun t => callback_eqb (run t) cb) (timers w).

(** [getState()]: [lastConnected] is [new Date(this.lastPing)] when
    [lastPing] is truthy, a clock reading of [0] being as falsy as
    [null]. *)
Record ConnectionState : Type := {
  st_isConnected : bool;
  st_lastConnected : option Z;
  st_reconnectAttempts : Z
}.

Definition getState (w : World) : ConnectionState :=
  {| st_isConnected := isConnected (this w);
     st_lastConnected :=
       match lastPing (this w) with
       | Some t => if t =? 0 then None else Some t
       | None => None
       end;
     st_reconnectAttempts := reconnectAttempts (this w) |}.

(** A session that is pinged once, and whose system clock is set back
    to a second past the epoch before it answers. *)
Definition set_back : list event :=
  [CallConnect; Transport 0%nat ev_open; Elapse 30000; Fire 0%nat; SetDate 1000;
   Elapse 40; Transport 0%nat ev_pong].

(** A session that opens, is pinged once, and answers. *)
Definition answered_ping : list event :=
  [CallConnect; Transport 0%nat ev_open; Elapse 30000; Fire 0%nat; Elapse 40;
   Transport 0%nat ev_pong].

Definition is_connect (e : event) : bool :=
  match e with CallConnect => true | _ => false end.

(** What goes on around a client its owner has closed and leaves
    closed: time passes, sockets it has abandoned emit, [close()] is
    called again. *)
Definition left_closed (es : list event) : Prop := forallb (fun e => negb (is_connect e)) es = true.

(** A closed client: no timer, no socket with handlers attached, no
    socket held, not connected. *)
Record Closed (w : World) : Prop := {
  closed_timers : timers w = [];
  closed_detached : forall s sock, socket s w = Some sock -> listening sock = false;
  closed_ws : ws (this w) = None;
  closed_isConnected : isConnected (this w) = false
}.

(** The close frame of the abandoned socket arrives, time passes, and
    the owner calls [close()] once more. *)
Definition aftermath : list event :=
  [Transport 0%nat (ev_close 1000 "Client closed connection"); Elapse 60000; CallClose].

(** *** A listener that calls back

    [emit] runs the listeners of the client's owner before it returns.
    The event loop takes the owner's calls to come between callbacks;
    this is [_handleDisconnect] for an owner whose listener of
    ['disconnected'] does [listener] to the client, in the middle of the
    method. *)
Definition _handleDisconnect_heard (listener : World -> World)
           (code : Z) (reason : string) (w : World) : World :=
  let w := upd_this (set_isConnected false) w in
  let w := clearInterval (pingInterval (this w)) w in
  let w := clearTimeout (pongTimeout (this w)) w in
  let w := listener (emit (disconnected reason) w) in
  let w := match reconnectTimer (this w) with
           | Some h => clearTimeout (Some h) w
           | None => w
           end in
  if reconnectAttempts (this w) <? Options.maxReconnectAttempts (options (this w)) then
    let w := upd_this (set_reconnectAttempts (reconnectAttempts (this w) + 1)) w in
    let delay := Options.reconnectDelay (options (this w))
                 * 2 ^ (reconnectAttempts (this w) - 1) in
    let w := emit (reconnecting (reconnectAttempts (this w))) w in
    let (h, w) := setTimeout Reconnect delay w in
    upd_this (set_reconnectTimer (Some h)) w
  else
    emit (error "MaxReconnectError" "Maximum reconnection attempts reached") w.

(** A default session whose socket has just closed, as its ['close']
    handler finds it. *)
Definition peer_gone : World :=
  upd_sockets (set_nth 0 (set_readyState CLOSED))
    (after connected_session (boot 0 "key" no_options)).

(** The message of the ['error'] that [ws] emits when a socket is closed
    while it is still connecting. *)
Definition closed_before_open : string :=
  "WebSocket was closed before the connection was established".

(** Options that ask for no reconnection at all. *)
Definition never_reconnect : WebSocketOptions :=
  {| opt_maxReconnectAttempts := Some 0; opt_reconnectDelay := None;
     opt_pingInterval := None; opt_pongTimeout := None; opt_endpoint := None |}.

End SessionProperties.

(* ================================================================== *)
(** ** Vocabulary of the executor's traces *)

Module ExecutorProperties.

Import Api.

Definition is_log (e : effect) : bool :=
  match e with LogRequest _ => true | _ => false end.

Definition logged (tr : list effect) : nat := List.length (filter is_log tr).

(** The effects of a run of attempts at [c]: each attempt takes one
    rate-limiter token and then dispatches [c], a fulfilled one is logged,
    and sleeps may separate them. *)
Inductive attempts (c : Config) : list effect -> Prop :=
| attempts_done : attempts c []
| attempts_rejected (tr : list effect) :
    attempts c tr -> attempts c (RemoveTokens 1 :: Dispatch c :: tr)
| attempts_fulfilled (tr : list effect) :
    attempts c tr -> attempts c (RemoveTokens 1 :: Dispatch c :: LogRequest c :: tr)
| attempts_sleep (ms : option Z) (tr : list effect) :
    attempts c tr -> attempts c (Sleep ms :: tr).

(** A reply that [_makeRequest] turns into an error [_isRetryable]
    accepts: a 429 or 5xx response whose body a message can be read off,
    or an error below HTTP whose code converts to a number from 500 to
    599. *)
Definition retryable_shape {num : Type} (r : reply num) : Prop :=
  match r with
  | Reply status body =>
      (status = 429 \/ 500 <= status <= 599) /\ body <> VUndefined /\ body <> VNull
  | NetworkError (Some errcode) _ =>
      Properties.converts_to_5xx errcode = true
  | NetworkError None _ => False
  end.

(** A payment service that is down: every dispatch is answered 502 with
    an HTML page for a body. *)
Definition bad_gateway : nat -> reply Z :=
  fun _ => Reply 502 (VStr "<html>Bad Gateway</html>").

Definition create_payment_request : Config := {| method := "post"; url := "/payment" |}.

End ExecutorProperties.

(* ================================================================== *)
(** ** Regular expressions, as far as lib/utils.js writes them *)

Module RegExp.

(** A character set: a bracket expression given by its ranges (a single
    character is a range of one), or the dot, which matches every
    character that is no line terminator.  A string is read as its
    sequence of code units, each below 256; of the line terminators only
    the line feed and the carriage return lie there. *)
Inductive charset : Type :=
| Ranges (rs : list (ascii * ascii))
| Dot.

Definition code_unit (a : ascii) : N := N_of_ascii a.

Definition in_range (a : ascii) (r : ascii * ascii) : bool :=
  ((code_unit (fst r) <=? code_unit a) && (code_unit a <=? code_unit (snd r)))%N.

Definition is_line_terminator (a : ascii) : bool :=
  ((code_unit a =? 10) || (code_unit a =? 13))%N.

Definition matches_set (cs : charset) (a : ascii) : bool :=
  match cs with
  | Ranges rs => existsb (in_range a) rs
  | Dot => negb (is_line_terminator a)
  end.

(** Patterns: the assertions [^] and [$] (no flag is set, so they hold
    at the two ends of the input only), literal text, one character of a
    set, a quantified set ([{min,max}], and [+] as [{1,}]), sequence and
    alternation. *)
Inductive regex : Type :=
| Bos
| Eos
| Lit (s : string)
| One (cs : charset)
| Many (cs : charset) (min : nat) (max : option nat)
| Seq (a b : regex)
| Alt (a b : regex).

(** A place in the input: how many characters lie before it, and those
    that follow. *)
Definition place : Type := (nat * string)%type.

Fixpoint strip_prefix (p s : string) : option string :=
  match p, s with
  | EmptyString, _ => Some s
  | String a p', String b s' => if Ascii.eqb a b then strip_prefix p' s' else None
  | String _ _, EmptyString => None
  end.

(** The places a sequence of [min] to [max] characters of [cs] can end at. *)
Fixpoint many (cs : charset) (min : nat) (max : option nat) (pos : nat) (rest : string)
  : list place :=
  ((if Nat.eqb min 0 then [(pos, rest)] else []) ++
   match max with
   | Some O => []
   | _ =>
       match rest with
       | String a rest' =>
           if matches_set cs a
           then many cs (Nat.pred min) (option_map Nat.pred max) (S pos) rest'
           else []
       | EmptyString => []
       end
   end)%list.

(** The places a match of [r] that starts at [p] can end at. *)
Fixpoint ends (r : regex) (p : place) : list place :=
  match r with
  | Bos => if Nat.eqb (fst p) 0 then [p] else []
  | Eos => match snd p with EmptyString => [p] | _ => [] end
  | Lit s =>
      match strip_prefix s (snd p) with
      | Some rest => [((fst p + String.length s)%nat, rest)]
      | None => []
      end
  | One cs =>
      match snd p with
      | String a rest => if matches_set cs a then [(S (fst p), rest)] else []
      | EmptyString => []
      end
  | Many cs min max => many cs min max (fst p) (snd p)
  | Seq a b => flat_map (ends b) (ends a p)
  | Alt a b => (ends a p ++ ends b p)%list
  end.

Definition matches_at (r : regex) (p : place) : bool :=
  match ends r p with [] => false | _ => true end.

(** A match that starts at [pos] or further on. *)
Fixpoint search (r : regex) (pos : nat) (s : string) : bool :=
  matches_at r (pos, s)
  || match s with
     | String _ rest => search r (S pos) rest
     | EmptyString => false
     end.

(** [pattern.test(s)] *)
Definition test (r : regex) (s : string) : bool := search r 0 s.

(** A pattern that matches at the start of the input or nowhere. *)
Definition anchored (r : regex) : Prop :=
  forall p, (0 < fst p)%nat -> ends r p = [].

End RegExp.

(* ================================================================== *)
(** ** lib/utils.js: addresses *)

Module Addresses.

Import RegExp.

(** The properties every object literal inherits from
    [Object.prototype]: read off an object that has no own property of
    the name, each gives a function, or the prototype itself. *)
Definition Object_prototype_names : list string :=
  [ "constructor"; "__defineGetter__"; "__defineSetter__"; "hasOwnProperty";
    "__lookupGetter__"; "__lookupSetter__"; "isPrototypeOf"; "propertyIsEnumerable";
    "toString"; "valueOf"; "__proto__"; "toLocaleString" ].

Definition inherited (key : string) : bool :=
  existsb (String.eqb key) Object_prototype_names.

(** What [table[key] || table.default] evaluates to, for a table whose
    own values are all truthy: an own value, a value inherited from
    [Object.prototype], or [undefined]. *)
Inductive found (A : Type) : Type :=
| Own (x : A)
| Inherited (name : string)
| Missing.

Arguments Own {A} x.
Arguments Inherited {A} name.
Arguments Missing {A}.

Definition or_default {A : Type} (table : list (string * A)) (key : string) : found A :=
  match lookup key table with
  | Some x => Own x
  | None =>
      if inherited key then Inherited key
      else match lookup "default" table with
           | Some x => Own x
           | None => Missing
           end
  end.

Definition range (lo hi : string) : ascii * ascii :=
  match lo, hi with
  | String a _, String b _ => (a, b)
  | _, _ => (Ascii.zero, Ascii.zero)
  end.

Definition single (c : string) : ascii * ascii := range c c.

(** [/^[13][a-km-zA-HJ-NP-Z1-9]{25,34}$|^bc1[ac-hj-np-z02-9]{11,71}$/] *)
Definition base58_set : charset :=
  Ranges [ range "a" "k"; range "m" "z"; range "A" "H"; range "J" "N"; range "P" "Z";
           range "1" "9" ].

Definition bech32_set : charset :=
  Ranges [ single "a"; range "c" "h"; range "j" "n"; range "p" "z"; single "0";
           range "2" "9" ].

Definition BTC_pattern : regex :=
  Alt (Seq Bos (Seq (One (Ranges [single "1"; single "3"]))
                  (Seq (Many base58_set 25%nat (Some 34%nat)) Eos)))
      (Seq Bos (Seq (Lit "bc1") (Seq (Many bech32_set 11%nat (Some 71%nat)) Eos))).

(** [/^0x[a-fA-F0-9]{40}$/] *)
Definition hex_set : charset := Ranges [ range "a" "f"; range "A" "F"; range "0" "9" ].

Definition ETH_pattern : regex :=
  Seq Bos (Seq (Lit "0x") (Seq (Many hex_set 40%nat (Some 40%nat)) Eos)).

(** [/.+/] *)
Definition default_pattern : regex := Many Dot 1%nat None.

Definition addressPatterns : list (string * regex) :=
  [ ("BTC", BTC_pattern); ("ETH", ETH_pattern); ("default", default_pattern) ].

Inductive answer : Type :=
| Raised (msg : string)
| Answered (valid : bool).

(** [isValidCryptoAddress(address, currency)]; a value inherited from
    [Object.prototype] has no [test] method, and calling it throws. *)
Definition isValidCryptoAddress (address currency : string) : answer :=
  match or_default addressPatterns currency with
  | Own pattern => Answered (test pattern address)
  | Inherited _ => Raised "pattern.test is not a function"
  | Missing => Raised (cannot_read "undefined" "test")
  end.

(** The currency codes of [SUPPORTED_CURRENCIES.CRYPTO]. *)
Definition supported_crypto : list string :=
  match member Constants.SUPPORTED_CURRENCIES "CRYPTO" with
  | inr (VArr items) =>
      flat_map (fun v : value Z => match v with VStr s => [s] | _ => [] end) items
  | _ => []
  end.

Definition all_of (cs : charset) (s : string) : Prop :=
  forall a, In a (list_ascii_of_string s) -> matches_set cs a = true.

End Addresses.

(* ================================================================== *)
(** ** lib/utils.js: error reports *)

Module ErrorReports.

Import Api.

Section WithNum.
Context {num : Type}.

(** [ToBoolean] on a number: [0] and [NaN] are falsy. *)
Variable number_is_truthy : num -> bool.

Definition truthy (v : value num) : bool :=
  match v with
  | VUndefined | VNull => false
  | VBool b => b
  | VNum n => number_is_truthy n
  | VStr s => negb (String.eqb s "")
  | VArr _ | VObj _ => true
  end.

(** [v?.key] *)
Definition optional_member (v : value num) (key : string) : value num :=
  match member v key with
  | inl _ => VUndefined
  | inr x => x
  end.

(** [ToString] on values that are no strings. *)
Variable ToString : value num -> string.

(** The [message] of an error constructed with [arg]: [Error] stores the
    argument's string, and nothing for [undefined], in which case the
    empty string of [Error.prototype] is read. *)
Definition Error_message (arg : value num) : string :=
  match arg with
  | VUndefined => ""
  | VStr s => s
  | v => ToString v
  end.

(** [error.message] *)
Definition error_message (error : thrown num) : string :=
  match error with
  | ThrowAPIError a => Error_message (message (base a))
  | ThrowAxios x => ax_message x
  | ThrowTypeError msg => msg
  end.

(** [ERROR_CODES.API_ERROR] *)
Definition API_ERROR : code_t :=
  match member Constants.ERROR_CODES "API_ERROR" with
  | inr (VStr s) => CodeStr s
  | _ => CodeUndefined
  end.

(** The object [parseAPIError] returns. *)
Record report : Type := {
  r_code : code_t;
  r_message : value num;
  r_details : value num
}.

(** [parseAPIError(error)], on the errors of the request executor and of
    axios; a status of [0] is falsy. *)
Definition parseAPIError (error : thrown num) : report :=
  let response := error_response error in
  {| r_code :=
       match response with
       | Some (status, _) => if status =? 0 then API_ERROR else CodeNum status
       | None => API_ERROR
       end;
     r_message :=
       let m := match response with
                | Some (_, data) => optional_member data "message"
                | None => VUndefined
                end in
       if truthy m then m else VStr (error_message error);
     r_details :=
       match response with
       | Some (_, data) => if truthy data then data else VNull
       | None => VNull
       end |}.

End WithNum.

(** A 404 with a structured body. *)
Definition not_found_body : value Z :=
  VObj [("message", VStr "Payment not found"); ("statusCode", VNum 404)].

Definition not_found : nat -> reply Z := fun _ => Reply 404 not_found_body.

Definition nonzero (n : Z) : bool := negb (n =? 0).

Definition show (v : value Z) : string := "[object Object]".

End ErrorReports.

(* ================================================================== *)
(** ** lib/index.js: the public methods *)

Module PublicApi.

Import Api.

Section WithNum.
Context {num : Type}.

(** [ValidationError], of lib/errors.js. *)
Record ValidationError : Type := {
  v_base : NOWPaymentsError num;
  v_details : value num
}.

(** [constructor(message, details)]: [super(message, 'VALIDATION_ERROR',
    details)], then the two assignments. *)
Definition new_ValidationError (msg : value num) (details : value num) : ValidationError :=
  let super := new_NOWPaymentsError msg (CodeStr "VALIDATION_ERROR") details in
  {| v_base := {| name := "ValidationError"; message := message super;
                  code := code super; data := data super |};
     v_details := details |}.

(** A Joi schema, as [_validateSchema] uses it: [validateAsync(data)]
    resolves, or rejects with an error that has a [message] and
    [details]. *)
Definition schema : Type := value num -> option (string * value num).

(** lib/validation.js, as far as the client reads it. *)
Record Schemas : Type := {
  createPayment_schema : schema;
  createInvoice_schema : schema;
  createPayout_schema : schema;
  createBatchPayout_schema : schema;
  getPayments_schema : schema
}.

(** What a public method rejects with. *)
Inductive rejection : Type :=
| Invalid (e : ValidationError)
| Failed (e : thrown num).

Definition Method (A : Type) : Type := state -> (rejection + A) * state.

(** [_validateSchema(data, schema)] *)
Definition _validateSchema (data : value num) (sch : schema) : Method unit :=
  fun s =>
    match sch data with
    | Some (msg, details) => (inl (Invalid (new_ValidationError (VStr msg) details)), s)
    | None => (inr tt, s)
    end.

Variable transport : nat -> reply num.
Variable schemas : Schemas.

(** [return this._retryRequest(config)], with the default [retries].
    [constants] is the module lib/constants.js exports, off which the
    methods below read their verb: [constants.HTTP_METHODS.GET] is
    ['get'] and [constants.HTTP_METHODS.POST] is ['post'].  The [params]
    and [data] of a configuration go to the transport with it; the
    executor reads neither, and [Config] leaves them out. *)
Definition request (c : Config) : Method (value num) :=
  fun s =>
    match _retryRequest transport Constants.exports c 3 s with
    | (inl e, s') => (inl (Failed e), s')
    | (inr v, s') => (inr v, s')
    end.

(** [await this._validateSchema(data, schema)] and then the request. *)
Definition validated (data : value num) (sch : schema) (c : Config) : Method (value num) :=
  fun s =>
    match _validateSchema data sch s with
    | (inl e, s') => (inl e, s')
    | (inr _, s') => request c s'
    end.

Definition getStatus : Method (value num) :=
  request {| method := "get"; url := "/status" |}.

Definition getCurrencies : Method (value num) :=
  request {| method := "get"; url := "/currencies" |}.

Definition getEstimatePrice (params : value num) : Method (value num) :=
  request {| method := "get"; url := "/estimate" |}.

Definition createPayment (payment : value num) : Method (value num) :=
  validated payment (createPayment_schema schemas) {| method := "post"; url := "/payment" |}.

Definition getPaymentStatus (paymentId : string) : Method (value num) :=
  request {| method := "get"; url := "/payment/" ++ paymentId |}.

Definition getMinimumPaymentAmount (currency : value num) : Method (value num) :=
  request {| method := "get"; url := "/min-amount" |}.

Definition createInvoice (invoice : value num) : Method (value num) :=
  validated invoice (createInvoice_schema schemas) {| method := "post"; url := "/invoice" |}.

(** The default [params = {}] of [getPayments]. *)
Definition or_empty (params : value num) : value num :=
  match params with
  | VUndefined => VObj []
  | _ => params
  end.

Definition getPayments (params : value num) : Method (value num) :=
  let params := or_empty params in
  validated params (getPayments_schema schemas) {| method := "get"; url := "/payment" |}.

Definition createPayout (payout : value num) : Method (value num) :=
  validated payout (createPayout_schema schemas) {| method := "post"; url := "/payout" |}.

Definition createBatchPayout (params : value num) : Method (value num) :=
  validated params (createBatchPayout_schema schemas)
    {| method := "post"; url := "/batch-payout" |}.

Definition getPaymentFlow (paymentId : string) : Method (value num) :=
  request {| method := "get"; url := "/payment/" ++ paymentId ++ "/flow" |}.

(** The methods that validate: each with what it validates of its
    argument, the schema, and the request. *)
Inductive validating :
  (value num -> Method (value num)) -> (value num -> value num) -> schema -> Config -> Prop :=
| validating_createPayment :
    validating createPayment (fun payment => payment) (createPayment_schema schemas)
      {| method := "post"; url := "/payment" |}
| validating_createInvoice :
    validating createInvoice (fun invoice => invoice) (createInvoice_schema schemas)
      {| method := "post"; url := "/invoice" |}
| validating_getPayments :
    validating getPayments or_empty (getPayments_schema schemas)
      {| method := "get"; url := "/payment" |}
| validating_createPayout :
    validating createPayout (fun payout => payout) (createPayout_schema schemas)
      {| method := "post"; url := "/payout" |}
| validating_createBatchPayout :
    validating createBatchPayout (fun params => params) (createBatchPayout_schema schemas)
      {| method := "post"; url := "/batch-payout" |}.

End WithNum.

Arguments ValidationError num : clear implicits.
Arguments rejection num : clear implicits.
Arguments Schemas num : clear implicits.

(** A schema that asks for a numeric [price_amount] and nothing else. *)
Definition needs_amount : schema (num:=Z) :=
  fun data =>
    match member data "price_amount" with
    | inr (VNum _) => None
    | _ => Some ("price_amount is required", VArr [])
    end.

Definition lenient : schema (num:=Z) := fun _ => None.

Definition test_schemas : Schemas Z :=
  {| createPayment_schema := needs_amount; createInvoice_schema := needs_amount;
     createPayout_schema := lenient; createBatchPayout_schema := lenient;
     getPayments_schema := lenient |}.

End PublicApi.

(* ================================================================== *)
(** ** Vocabulary of the canonical form *)

Module CanonicalProperties.

Definition is_proto (key : string) : bool := String.eqb key "__proto__".

(** The properties of an object other than [__proto__]. *)
Definition strip_proto {A : Type} (props : list (string * A)) : list (string * A) :=
  filter (fun kv => negb (is_proto (fst kv))) props.

(** A payload with its [__proto__] members removed, at every depth. *)
Fixpoint without_proto {num : Type} (v : value num) : value num :=
  match v with
  | VArr items => VArr (map without_proto items)
  | VObj props =>
      VObj ((fix members (l : list (string * value num)) : list (string * value num) :=
               match l with
               | [] => []
               | (k, x) :: l' =>
                   if is_proto k then members l' else (k, without_proto x) :: members l'
               end) props)
  | _ => v
  end.

(** A payload in which, at every depth, no object has a key twice (as
    in every JavaScript object) or a member named [__proto__]. *)
Fixpoint plain {num : Type} (v : value num) : Prop :=
  match v with
  | VArr items =>
      (fix all (l : list (value num)) : Prop :=
         match l with
         | [] => True
         | x :: l' => plain x /\ all l'
         end) items
  | VObj props =>
      NoDup (map fst props) /\ ~ In "__proto__" (map fst props) /\
      (fix all (l : list (string * value num)) : Prop :=
         match l with
         | [] => True
         | kv :: l' => plain (snd kv) /\ all l'
         end) props
  | _ => True
  end.

(** A list in ascending order under [leb]. *)
Definition ascending {A : Type} (leb : A -> A -> bool) (l : list A) : Prop :=
  StronglySorted (fun a b => leb a b = true) l.

(** An IPN payload into which a [__proto__] member has been put, as
    [JSON.parse] reads it. *)
Definition honest_payload : value Z :=
  VObj [ ("payment_id", VStr "42"); ("payment_status", VStr "finished") ].

Definition tampered_payload : value Z :=
  VObj [ ("payment_id", VStr "42");
         ("__proto__", VObj [ ("payment_status", VStr "failed") ]);
         ("payment_status", VStr "finished") ].

End CanonicalProperties.

(* ================================================================== *)
(** ** lib/utils.js: payments and time *)

Module Payments.

Section WithNum.
Context {num : Type}.

(** *** What the runtime provides

    A time value is a number of milliseconds since the epoch, or [NaN]
    ([None]); every number met here is an integer below [2^53], where the
    arithmetic of doubles is exact. *)

(** The time value of [new Date(v)]. *)
Variable Date_of : value num -> option Z.

(** The offset of local time, at a time value read as UTC ([true]) or as
    local time ([false]). *)
Variable LocalTZA : Z -> bool -> Z.

(** [a >= b] *)
Variable ge : value num -> value num -> bool.

(** The reading of the clock: [Date.now()], and the time value of
    [new Date()]. *)
Variable now : Z.

Definition msPerSecond : Z := 1000.
Definition msPerMinute : Z := 60000.
Definition msPerHour : Z := 3600000.
Definition msPerDay : Z := 86400000.

Definition Day (t : Z) : Z := t / msPerDay.
Definition HourFromTime (t : Z) : Z := (t / msPerHour) mod 24.
Definition MinFromTime (t : Z) : Z := (t / msPerMinute) mod 60.
Definition SecFromTime (t : Z) : Z := (t / msPerSecond) mod 60.
Definition msFromTime (t : Z) : Z := t mod msPerSecond.

Definition MakeTime (hour min sec ms : Z) : Z :=
  hour * msPerHour + min * msPerMinute + sec * msPerSecond + ms.

Definition MakeDate (day time : Z) : Z := day * msPerDay + time.

Definition LocalTime (t : Z) : Z := t + LocalTZA t true.
Definition UTC (t : Z) : Z := t - LocalTZA t false.

Definition TimeClip (t : Z) : option Z :=
  if Z.abs t <=? 8640000000000000 then Some t else None.

(** [date.getMinutes()] *)
Definition getMinutes (date : option Z) : option Z :=
  option_map (fun t => MinFromTime (LocalTime t)) date.

(** [date.setMinutes(min)]: the new time value of [date]. *)
Definition setMinutes (date : option Z) (min : option Z) : option Z :=
  match date, min with
  | Some t0, Some m =>
      let t := LocalTime t0 in
      TimeClip (UTC (MakeDate (Day t)
                       (MakeTime (HourFromTime t) m (SecFromTime t) (msFromTime t))))
  | _, _ => None
  end.

(** [Math.max(0, x)] *)
Definition Math_max_0 (x : option Z) : option Z := option_map (Z.max 0) x.

(** *** The functions *)

(** [calculatePaymentExpiration(createdAt, expirationMinutes)]: the time
    value of the date returned. *)
Definition calculatePaymentExpiration (createdAt : value num) (expirationMinutes : Z)
  : option Z :=
  let expirationDate := Date_of createdAt in
  setMinutes expirationDate
    (option_map (fun m => m + expirationMinutes) (getMinutes expirationDate)).

(** [isPaymentExpired(payment)]; a comparison with [NaN] is false. *)
Definition isPaymentExpired (payment : value num) : string + bool :=
  match member payment "created_at" with
  | inl te => inl te
  | inr created_at =>
      inr match calculatePaymentExpiration created_at 60 with
          | Some expiration => expiration <? now
          | None => false
          end
  end.

(** [calculateRemainingTime(payment)] *)
Definition calculateRemainingTime (payment : value num) : string + option Z :=
  match member payment "created_at" with
  | inl te => inl te
  | inr created_at =>
      let remaining :=
        option_map (fun expiration => expiration - now)
                   (calculatePaymentExpiration created_at 60) in
      inr (Math_max_0 remaining)
  end.

(** [calculateProcessingTime(payment)] *)
Definition calculateProcessingTime (payment : value num) : string + option Z :=
  match member payment "created_at" with
  | inl te => inl te
  | inr created_at =>
      match member payment "updated_at" with
      | inl te => inl te
      | inr updated_at =>
          inr match Date_of updated_at, Date_of created_at with
              | Some updated, Some created => Some (updated - created)
              | _, _ => None
              end
      end
  end.

(** The four statuses of [PAYMENT_STATUSES] that [isPaymentStatusFinal]
    lists. *)
Definition finalStatuses : list (value Z) :=
  map (get match Constants.PAYMENT_STATUSES with VObj props => props | _ => [] end)
      ["FINISHED"; "FAILED"; "REFUNDED"; "EXPIRED"].

(** [list.includes(x)], for a list of strings. *)
Definition includes (l : list (value Z)) (x : value num) : bool :=
  existsb (fun c => match c, x with
                    | VStr a, VStr b => String.eqb a b
                    | _, _ => false
                    end) l.

(** [isPaymentStatusFinal(payment)] *)
Definition isPaymentStatusFinal (payment : value num) : string + bool :=
  match member payment "payment_status" with
  | inl te => inl te
  | inr status => inr (includes finalStatuses status)
  end.

(** [calculatePaymentRiskScore(payment)] *)
Definition calculatePaymentRiskScore (payment : value num) : string + Z :=
  let score := 0 in
  match member payment "actually_paid" with
  | inl te => inl te
  | inr actually_paid =>
      match member payment "pay_amount" with
      | inl te => inl te
      | inr pay_amount =>
          let score := if ge actually_paid pay_amount then score + 50 else score in
          match isPaymentStatusFinal payment with
          | inl te => inl te
          | inr final =>
              let score := if final then score + 30 else score in
              match isPaymentExpired payment with
              | inl te => inl te
              | inr expired =>
                  let score := if negb expired then score + 20 else score in
                  inr score
              end
          end
      end
  end.

End WithNum.

(** A runtime on UTC whose payloads carry time values as numbers. *)
Definition numeric_date (v : value Z) : option Z :=
  match v with
  | VNum t => Some t
  | _ => None
  end.

Definition utc (t : Z) (isUTC : bool) : Z := 0.

Definition number_ge (a b : value Z) : bool :=
  match a, b with
  | VNum x, VNum y => y <=? x
  | _, _ => false
  end.

(** A payment finished and paid in full, created at 1 000 000. *)
Definition finished_payment : value Z :=
  VObj [ ("payment_status", VStr "finished"); ("created_at", VNum 1000000);
         ("updated_at", VNum 1900000);
         ("pay_amount", VNum 5); ("actually_paid", VNum 5) ].

(** A payment whose [created_at] does not parse. *)
Definition undated_payment : value Z :=
  VObj [ ("payment_status", VStr "waiting"); ("created_at", VStr "yesterday");
         ("pay_amount", VNum 5); ("actually_paid", VNum 0) ].

End Payments.

(* ================================================================== *)
(** ** lib/utils.js: order identifiers *)

Module Orders.

(** [ToString] of a non-negative integer below [10^21]: its decimal
    digits. *)
Definition decimal (n : N) : string := NilZero.string_of_uint (N.to_uint n).

(** [generateOrderId(prefix)], with the readings [timestamp] of
    [Date.now()] and [random] of [Math.floor(Math.random() * 1000000)];
    the prefix defaults to ['ORDER'] when it is [undefined]. *)
Definition generateOrderId (prefix : option string) (timestamp random : N) : string :=
  let prefix := match prefix with Some p => p | None => "ORDER" end in
  prefix ++ "_" ++ decimal timestamp ++ "_" ++ decimal random.

Definition is_underscore (a : ascii) : bool := Ascii.eqb a "_".

Fixpoint has_underscore (s : string) : bool :=
  match s with
  | EmptyString => false
  | String a rest => is_underscore a || has_underscore rest
  end.

End Orders.

(* ================================================================== *)
(** * Theorems *)

Import Api Properties.

(** ** The request executor *)

Section ExecutorFacts.
Context {num : Type}.
Variable transport : nat -> reply num.

Lemma wrap_response_no_response (status : Z) (body : value num) :
  error_response (wrap_response status body) = None.
Proof. unfold wrap_response. destruct (member body "message"); reflexivity. Qed.

(** One call of [_makeRequest] consumes one reply of the transport. *)
Lemma _makeRequest_eq (c : Config) (s : state) :
  _makeRequest transport c s =
  (outcome (transport (S (sent s))),
   {| sent := S (sent s); trace := trace s ++ attempt_trace c (transport (S (sent s))) |}).
Proof.
  unfold _makeRequest, client_request, try_catch, bind, tell, send, ret, throw,
    attempt_trace, outcome.
  cbn [sent trace].
  destruct (transport (S (sent s))) as [st b|ec m]; cbn.
  - destruct (validateStatus st); cbn.
    + rewrite <- !app_assoc. reflexivity.
    + rewrite wrap_response_no_response, <- !app_assoc. reflexivity.
  - rewrite <- !app_assoc. reflexivity.
Qed.

(** One iteration of the [for] loop. *)
Lemma retry_loop_unfold (constants : value Z) (c : Config) (retries k attempt : nat)
      (s : state) :
  retry_loop transport constants c retries (S k) attempt s =
  match _makeRequest transport c s with
  | (inl error, s') =>
      if Nat.eqb attempt retries || negb (_isRetryable error) then (inl error, s')
      else
        match retry_delay constants attempt s' with
        | (inl e, s'') => (inl e, s'')
        | (inr ms, s'') =>
            retry_loop transport constants c retries k (S attempt)
              (snd (_sleep (num:=num) ms s''))
        end
  | (inr a, s') => (inr a, s')
  end.
Proof.
  simpl. unfold try_catch.
  destruct (_makeRequest transport c s) as [[e|a] s']; [|reflexivity].
  destruct (Nat.eqb attempt retries || negb (_isRetryable e)); [reflexivity|].
  unfold bind. destruct (retry_delay constants attempt s') as [[e'|ms] s'']; reflexivity.
Qed.

(** [lib/constants.js] exports no [RETRY_CONFIG]: computing the delay
    throws before anything is slept. *)
Lemma retry_delay_throws (attempt : nat) (s : state) :
  retry_delay (num:=num) Constants.exports attempt s
  = (inl (ThrowTypeError (cannot_read "undefined" "INITIAL_DELAY")), s).
Proof. reflexivity. Qed.

(** With the constants as exported, a call makes one attempt and no
    more, whatever [retries] is. *)
Lemma single_attempt (c : Config) (retries : nat) (s : state) :
  retries <> 0%nat ->
  snd (_retryRequest transport Constants.exports c retries s)
  = {| sent := S (sent s);
       trace := trace s ++ attempt_trace c (transport (S (sent s))) |}.
Proof.
  intros Hr. unfold _retryRequest. destruct retries as [|k]; [congruence|].
  rewrite retry_loop_unfold, _makeRequest_eq.
  destruct (outcome (transport (S (sent s)))) as [e|a]; [|reflexivity].
  destruct (Nat.eqb 1 (S k) || negb (_isRetryable e)); [reflexivity|].
  rewrite retry_delay_throws. reflexivity.
Qed.

(** A retryable failure on an attempt that is not the last is answered
    with the [TypeError] of the delay computation, not with a retry. *)
Lemma retryable_failure_aborts (c : Config) (retries : nat) (s : state) :
  (2 <= retries)%nat ->
  retryable_reply (transport (S (sent s))) ->
  _retryRequest transport Constants.exports c retries s
  = (inl (ThrowTypeError (cannot_read "undefined" "INITIAL_DELAY")),
     {| sent := S (sent s); trace := trace s ++ [RemoveTokens 1; Dispatch c] |}).
Proof.
  intros Hr (e & He & Hretry). unfold _retryRequest.
  destruct retries as [|[|k]]; try lia.
  rewrite retry_loop_unfold, _makeRequest_eq. unfold attempt_trace. rewrite He, Hretry.
  cbn [Nat.eqb orb negb]. rewrite retry_delay_throws. reflexivity.
Qed.

Lemma terminal_failure_outcome (r : reply num) (e : thrown num) :
  terminal_failure r e -> outcome r = inl e /\ _isRetryable e = false.
Proof.
  intros H.
  destruct H as [status body msg Hrange Hne Hmsg|errcode msg Hcode|status body te Hst Hmsg].
  - unfold outcome, validateStatus, wrap_response. rewrite Hmsg.
    replace (200 <=? status) with true by lia.
    replace (status <? 300) with false by lia.
    split; [reflexivity|]. unfold _isRetryable. cbn.
    replace (status =? 429) with false by lia.
    replace (500 <=? status) with false by lia. reflexivity.
  - split; [reflexivity|]. unfold _isRetryable. cbn.
    destruct errcode as [code|]; [|reflexivity]. exact Hcode.
  - unfold outcome, wrap_response. rewrite Hst, Hmsg. split; reflexivity.
Qed.

End ExecutorFacts.

Section Backoff.
Context {num : Type}.
Variable transport : nat -> reply num.
Variable constants : value Z.
Variables (i f : Z).

(** Any constants object under which the delay expression evaluates. *)
Hypothesis delay_defined :
  forall (attempt : nat) (s : state),
    retry_delay (num:=num) constants attempt s
    = (inr (Some (i * f ^ (Z.of_nat attempt - 1))), s).

(** With such constants the loop does retry: [k] retryable failures
    followed by a success cost [k + 1] dispatches and [k] sleeps. *)
Lemma retry_loop_backoff (c : Config) (retries : nat) :
  forall (k attempt : nat) (s : state) (body : value num),
    (attempt + k = retries)%nat ->
    (forall j, (j < k)%nat -> retryable_reply (transport (S (sent s) + j))) ->
    outcome (transport (S (sent s) + k)) = inr body ->
    retry_loop transport constants c retries (S k) attempt s
    = (inr body,
       {| sent := (S (sent s) + k)%nat; trace := trace s ++ backoff_trace c i f attempt k |}).
Proof.
  induction k as [|k IH]; intros attempt s body Hsum Hfail Hok.
  - rewrite retry_loop_unfold, _makeRequest_eq.
    rewrite Nat.add_0_r in Hok. unfold attempt_trace. rewrite Hok.
    rewrite Nat.add_0_r. reflexivity.
  - rewrite retry_loop_unfold, _makeRequest_eq.
    destruct (Hfail 0%nat ltac:(lia)) as (e & He & Hretry).
    rewrite Nat.add_0_r in He. unfold attempt_trace. rewrite He, Hretry.
    replace (Nat.eqb attempt retries) with false
      by (symmetry; apply Nat.eqb_neq; lia).
    cbn [orb negb]. rewrite delay_defined.
    unfold _sleep, tell. cbn [snd sent trace].
    rewrite (IH (S attempt) _ body).
    + cbn [sent trace backoff_trace]. f_equal. f_equal; [lia|].
      rewrite <- !app_assoc. reflexivity.
    + lia.
    + intros j Hj. cbn [sent]. replace (S (S (sent s)) + j)%nat with (S (sent s) + S j)%nat by lia.
      apply Hfail. lia.
    + cbn [sent]. replace (S (S (sent s)) + k)%nat with (S (sent s) + S k)%nat by lia.
      exact Hok.
Qed.

End Backoff.

Lemma dispatches_backoff_trace (c : Config) (i f : Z) (k attempt : nat) :
  dispatches (backoff_trace c i f attempt k) = S k.
Proof.
  revert attempt. induction k as [|k IH]; intros attempt; [reflexivity|].
  unfold dispatches in *. cbn. rewrite IH. reflexivity.
Qed.

Lemma sleeps_backoff_trace (c : Config) (i f : Z) (k attempt : nat) :
  sleeps (backoff_trace c i f attempt k)
  = map (fun a => Some (i * f ^ (Z.of_nat a - 1))) (seq attempt k).
Proof.
  revert attempt. induction k as [|k IH]; intros attempt; [reflexivity|].
  cbn -[Z.of_nat Z.pow Z.mul]. rewrite IH. reflexivity.
Qed.

(** Had [lib/constants.js] exported the retry settings as [RETRY_CONFIG],
    a call failing [maxAttempts - 1] times with 429 or 5xx and then
    succeeding would return the success after [maxAttempts] dispatches,
    sleeping [1000 * 2 ^ (k - 1)] before attempt [k + 1]. *)
Lemma retry_with_RETRY_CONFIG {num : Type} (transport : nat -> reply num) (c : Config)
      (maxAttempts : nat) (body : value num) :
  (1 <= maxAttempts)%nat ->
  (forall k, (1 <= k < maxAttempts)%nat -> retryable_reply (transport k)) ->
  outcome (transport maxAttempts) = inr body ->
  exists s,
    _retryRequest transport exports_with_RETRY_CONFIG c maxAttempts initial = (inr body, s)
    /\ dispatches (trace s) = maxAttempts
    /\ sleeps (trace s)
       = map (fun k => Some (1000 * 2 ^ (Z.of_nat k - 1))) (seq 1 (maxAttempts - 1)).
Proof.
  intros Hpos Hfail Hok. unfold _retryRequest.
  destruct maxAttempts as [|k]; [lia|].
  eexists. split.
  - apply (retry_loop_backoff transport exports_with_RETRY_CONFIG 1000 2).
    + intros attempt s. reflexivity.
    + lia.
    + intros j Hj. apply Hfail. cbn [sent initial]. lia.
    + exact Hok.
  - cbn [trace initial app]. rewrite dispatches_backoff_trace, sleeps_backoff_trace.
    replace (S k - 1)%nat with k by lia. split; reflexivity.
Qed.

(** C1 (defect in the code): the executor is driven through the scenario
    of the claim, replies 503, 503 and then 200 with [retries = 3].  The
    first 503 is classified retryable, but the delay expression reads
    [constants.RETRY_CONFIG], which [lib/constants.js] does not export:
    the call throws a [TypeError] after one dispatch instead of returning
    the 200 payload after three. *)
Theorem C1_retry_aborts_after_first_dispatch :
  let r := _retryRequest flaky Constants.exports status_request 3 initial in
  fst r = inl (ThrowTypeError "Cannot read properties of undefined (reading 'INITIAL_DELAY')")
  /\ dispatches (trace (snd r)) = 1%nat
  /\ outcome (flaky 3) = inr ok_body.
Proof. repeat split. Qed.

(** C2 (defect in the code): with the constants as exported no backoff
    delay is ever waited.  Whatever the transport answers and whatever
    [retries] is, the trace of a call contains no sleep; in the scenario
    of the claim the delays 1000 and 2000 are not waited, the call stops
    at the first failure. *)
Theorem C2_no_backoff_delay_is_waited :
  (forall (transport : nat -> reply Z) (c : Config) (retries : nat),
      sleeps (trace (snd (_retryRequest transport Constants.exports c retries initial))) = [])
  /\ sleeps (trace (snd (_retryRequest flaky exports_with_RETRY_CONFIG status_request 3 initial)))
     = [Some 1000; Some 2000].
Proof.
  split; [|reflexivity].
  intros transport c retries. destruct retries as [|k]; [reflexivity|].
  rewrite single_attempt by discriminate.
  cbn [trace initial app]. unfold attempt_trace.
  destruct (outcome (transport (S (sent initial)))); reflexivity.
Qed.

(** A code that is a name, as those of Node and axios are ([ECONNRESET],
    [ERR_NETWORK]), converts to [NaN]: it starts with a capital letter,
    and only [Infinity] does so among the numeric literals. *)
Lemma named_code_converts_to_NaN (a : ascii) (rest : string) :
  (65 <= N_of_ascii a <= 90)%N -> a <> "I"%char ->
  string_to_number (String a rest) = NaN.
Proof.
  intros Hrange Hne.
  destruct a as [[] [] [] [] [] [] [] []];
    try (exfalso; cbn in Hrange; lia);
    try (exfalso; apply Hne; reflexivity);
    reflexivity.
Qed.

Lemma named_code_is_terminal {num : Type} (a : ascii) (rest msg : string) :
  (65 <= N_of_ascii a <= 90)%N -> a <> "I"%char ->
  terminal_failure (num:=num) (NetworkError (Some (String a rest)) msg)
    (ThrowAxios {| ax_message := msg; ax_code := Some (String a rest);
                   ax_response := None |}).
Proof.
  intros Hrange Hne. apply terminal_network. unfold converts_to_5xx.
  rewrite (named_code_converts_to_NaN a rest Hrange Hne). reflexivity.
Qed.

(** C3 (the claim fails): a malformed response is no failure by itself.
    A 200 whose body did not parse is handed to the caller as the data of
    a successful call. *)
Lemma C3_counterexample :
  let r := _retryRequest malformed_ok Constants.exports status_request 3 initial in
  fst r = inr (VStr "<html>not json</html>")
  /\ trace (snd r)
     = [RemoveTokens 1; Dispatch status_request; LogRequest status_request].
Proof. split; reflexivity. Qed.

(** C3 (as amended): whatever the constants, a first dispatch that fails
    terminally (a 4xx other than 429; an error below HTTP whose code is
    absent or converts to no number from 500 to 599; a response outside
    2xx whose body is [null] or missing) makes the executor throw that
    failure after exactly one dispatch and without sleeping; and a
    response with a 2xx status is returned as data after one dispatch,
    whatever its body. *)
Theorem C3_terminal_failure_is_not_retried
        {num : Type} (transport : nat -> reply num) (constants : value Z) (c : Config)
        (retries : nat) (s : state) :
  (1 <= retries)%nat ->
  (forall e : thrown num,
      terminal_failure (transport (S (sent s))) e ->
      _retryRequest transport constants c retries s
      = (inl e, {| sent := S (sent s); trace := trace s ++ [RemoveTokens 1; Dispatch c] |})
      /\ dispatches (trace (snd (_retryRequest transport constants c retries s)))
         = S (dispatches (trace s))
      /\ sleeps (trace (snd (_retryRequest transport constants c retries s)))
         = sleeps (trace s))
  /\ (forall (status : Z) (body : value num),
         transport (S (sent s)) = Reply status body ->
         validateStatus status = true ->
         _retryRequest transport constants c retries s
         = (inr body,
            {| sent := S (sent s);
               trace := trace s ++ [RemoveTokens 1; Dispatch c; LogRequest c] |})).
Proof.
  intros Hr. destruct retries as [|k]; [lia|]. unfold _retryRequest. split.
  - intros e Hterm. apply terminal_failure_outcome in Hterm. destruct Hterm as [Hout Hno].
    assert (Hrun : retry_loop transport constants c (S k) (S k) 1 s
                   = (inl e, {| sent := S (sent s);
                                trace := trace s ++ [RemoveTokens 1; Dispatch c] |})).
    { rewrite retry_loop_unfold, _makeRequest_eq. unfold attempt_trace.
      rewrite Hout, Hno. rewrite orb_true_r. rewrite app_nil_r. reflexivity. }
    rewrite Hrun. cbn [snd trace]. split; [reflexivity|]. split.
    + unfold dispatches. rewrite filter_app, length_app. cbn. lia.
    + unfold sleeps. rewrite flat_map_app. cbn. apply app_nil_r.
  - intros status body Hreply Hok.
    rewrite retry_loop_unfold, _makeRequest_eq. unfold attempt_trace.
    rewrite Hreply. cbn [outcome]. rewrite Hok. reflexivity.
Qed.

(** C3 at a 404 and at a timeout below HTTP, each answered to the first
    dispatch of [getStatus]. *)
Lemma C3_witness :
  _retryRequest (fun _ => Reply 404 unavailable) Constants.exports status_request 3 initial
  = (inl (ThrowAPIError (new_APIError (VStr "Service Unavailable") 404 unavailable)),
     {| sent := 1; trace := [RemoveTokens 1; Dispatch status_request] |})
  /\ _retryRequest timed_out Constants.exports status_request 3 initial
     = (inl (ThrowAxios {| ax_message := "timeout of 30000ms exceeded";
                           ax_code := Some "ECONNABORTED"; ax_response := None |}),
        {| sent := 1; trace := [RemoveTokens 1; Dispatch status_request] |}).
Proof.
  split.
  - refine (proj1 (proj1 (C3_terminal_failure_is_not_retried
                            (fun _ => Reply 404 unavailable) Constants.exports
                            status_request 3 initial _) _ _)).
    + lia.
    + apply terminal_4xx; [lia | lia | reflexivity].
  - refine (proj1 (proj1 (C3_terminal_failure_is_not_retried
                            timed_out Constants.exports status_request 3 initial _) _ _)).
    + lia.
    + apply named_code_is_terminal; [cbn; lia | discriminate].
Defined.

(** [_makeRequest] wraps a response outside 2xx whose body can be read
    into an [APIError] that keeps the body's message, the status and the
    body. *)
Lemma _makeRequest_wraps_response {num : Type} (transport : nat -> reply num) (c : Config)
      (s : state) (status : Z) (body msg : value num) :
  transport (S (sent s)) = Reply status body ->
  validateStatus status = false ->
  member body "message" = inr msg ->
  exists e : APIError num,
    fst (_makeRequest transport c s) = inl (ThrowAPIError e)
    /\ message (base e) = msg
    /\ statusCode e = status /\ code (base e) = CodeNum status
    /\ responseData e = body /\ data (base e) = body.
Proof.
  intros Hreply Hstatus Hmsg. rewrite _makeRequest_eq, Hreply. cbn [fst outcome].
  rewrite Hstatus. unfold wrap_response. rewrite Hmsg.
  eexists. split; [reflexivity|]. repeat split.
Qed.

(** C9 (defect in the code): a request answered with 503 and a structured
    body.  [_makeRequest] wraps the response into an [APIError] carrying
    status 503 and the body, but [_retryRequest], on this retryable and
    not-last attempt, evaluates [constants.RETRY_CONFIG.INITIAL_DELAY]
    and throws: the caller of [getStatus] receives a [TypeError] with no
    code, no status and no payload. *)
Theorem C9_retryable_failure_detail_is_lost :
  fst (_makeRequest (fun _ => Reply 503 unavailable) status_request initial)
  = inl (ThrowAPIError (new_APIError (VStr "Service Unavailable") 503 unavailable))
  /\ fst (getStatus (fun _ => Reply 503 unavailable) Constants.exports initial)
     = inl (ThrowTypeError "Cannot read properties of undefined (reading 'INITIAL_DELAY')")
  /\ error_code
       (ThrowTypeError (num:=Z) "Cannot read properties of undefined (reading 'INITIAL_DELAY')")
     = CodeUndefined.
Proof. repeat split. Qed.

(** ** Signatures *)

Import Utils.

Section SortFacts.
Context {A : Type}.
Variable leb : A -> A -> bool.

Lemma insert_perm (x : A) (l : list A) : Permutation (insert leb x l) (x :: l).
Proof.
  induction l as [|y l IH]; cbn; [reflexivity|].
  destruct (leb x y); [reflexivity|].
  rewrite IH. apply perm_swap.
Qed.

Lemma sort_perm (l : list A) : Permutation (sort leb l) l.
Proof.
  unfold sort. induction l as [|x l IH]; cbn [fold_right]; [reflexivity|].
  rewrite insert_perm. now apply perm_skip.
Qed.

Hypothesis leb_total : forall a b, leb a b = true \/ leb b a = true.
Hypothesis leb_antisym : forall a b, leb a b = true -> leb b a = true -> a = b.
Hypothesis leb_trans : forall a b c, leb a b = true -> leb b c = true -> leb a c = true.

(** Under a total order the place an element is inserted at does not
    depend on what was inserted before. *)
Lemma insert_insert (x y : A) (l : list A) :
  insert leb x (insert leb y l) = insert leb y (insert leb x l).
Proof.
  induction l as [|z l IH]; cbn.
  - destruct (leb x y) eqn:Hxy, (leb y x) eqn:Hyx; try reflexivity.
    + now rewrite (leb_antisym x y).
    + destruct (leb_total x y); congruence.
  - destruct (leb y z) eqn:Hyz, (leb x z) eqn:Hxz; cbn; rewrite ?Hyz, ?Hxz.
    + destruct (leb x y) eqn:Hxy, (leb y x) eqn:Hyx; try reflexivity.
      * now rewrite (leb_antisym x y).
      * destruct (leb_total x y); congruence.
    + destruct (leb x y) eqn:Hxy; [|reflexivity].
      rewrite (leb_trans x y z) in Hxz by assumption. discriminate.
    + destruct (leb y x) eqn:Hyx; [|reflexivity].
      rewrite (leb_trans y x z) in Hyz by assumption. discriminate.
    + now rewrite IH.
Qed.

Lemma sort_permutation_eq (l l' : list A) : Permutation l l' -> sort leb l = sort leb l'.
Proof.
  unfold sort.
  induction 1 as [|x l l' _ IH|x y l|l l' l'' _ IH1 _ IH2]; cbn [fold_right].
  - reflexivity.
  - now rewrite IH.
  - apply insert_insert.
  - congruence.
Qed.

End SortFacts.

Lemma string_leb_trans (a b c : string) :
  String.leb a b = true -> String.leb b c = true -> String.leb a c = true.
Proof.
  unfold String.leb. intros Hab Hbc.
  destruct (String.compare a b) eqn:Eab; try discriminate;
  destruct (String.compare b c) eqn:Ebc; try discriminate.
  - apply String.compare_eq_iff in Eab. subst a. now rewrite Ebc.
  - apply String.compare_eq_iff in Eab. subst a. now rewrite Ebc.
  - apply String.compare_eq_iff in Ebc. subst c. now rewrite Eab.
  - apply OrderedTypeEx.String_as_OT.cmp_lt in Eab, Ebc.
    pose proof (OrderedTypeEx.String_as_OT.lt_trans _ _ _ Eab Ebc) as H.
    apply OrderedTypeEx.String_as_OT.cmp_lt in H.
    unfold OrderedTypeEx.String_as_OT.cmp in H. now rewrite H.
Qed.

Lemma sort_keys_permutation (l l' : list string) :
  Permutation l l' -> sort String.leb l = sort String.leb l'.
Proof.
  apply sort_permutation_eq.
  - apply String.leb_total.
  - apply String.leb_antisym.
  - apply string_leb_trans.
Qed.

Lemma filter_split_perm {A : Type} (p : A -> bool) (l : list A) :
  Permutation (filter p l ++ filter (fun x => negb (p x)) l) l.
Proof.
  induction l as [|x l IH]; cbn; [reflexivity|].
  destruct (p x); cbn.
  - now apply perm_skip.
  - rewrite <- Permutation_middle. now apply perm_skip.
Qed.

(** [Object.keys] lists every own key once, in whatever order. *)
Lemma Object_keys_perm {A : Type} (props : list (string * A)) :
  Permutation (Object_keys props) (map fst props).
Proof.
  unfold Object_keys. rewrite sort_perm. apply filter_split_perm.
Qed.

Section Canonical.
Context {num : Type}.

Lemma lookup_map_values (f : value num -> value num) (key : string)
      (props : list (string * value num)) :
  lookup key (map_values f props) = option_map f (lookup key props).
Proof.
  induction props as [|[k v] props IH]; cbn; [reflexivity|].
  destruct (String.eqb k key); [reflexivity|exact IH].
Qed.

Lemma lookup_In (key : string) (v : value num) (props : list (string * value num)) :
  lookup key props = Some v -> In (key, v) props.
Proof.
  induction props as [|[k w] props IH]; cbn; [discriminate|].
  destruct (String.eqb_spec k key) as [->|Hne].
  - intros [= ->]. now left.
  - intros H. right. auto.
Qed.

Lemma lookup_None (key : string) (props : list (string * value num)) :
  lookup key props = None -> ~ In key (map fst props).
Proof.
  induction props as [|[k w] props IH]; cbn; [tauto|].
  destruct (String.eqb_spec k key) as [->|Hne]; [discriminate|].
  intros H [Hk|Hin]; [congruence|]. now apply IH.
Qed.

(** The reducer of the source: [result[key] = this.sortObject(obj[key])]. *)
Lemma sortObject_obj (props : list (string * value num)) :
  sortObject (VObj props)
  = VObj (fold_left (fun result key => set_prop result key (sortObject (get props key)))
            (sort String.leb (Object_keys props)) []).
Proof.
  cbn [sortObject]. f_equal.
  generalize (@nil (string * value num)).
  induction (sort String.leb (Object_keys props)) as [|key keys IH]; intros acc;
    [reflexivity|].
  cbn [fold_left]. rewrite IH. do 2 f_equal.
  unfold get. rewrite lookup_map_values. destruct (lookup key props); reflexivity.
Qed.

Lemma same_entries_obj (ps qs : list (string * value num)) :
  same_entries (VObj ps) (VObj qs) ->
  NoDup (map fst ps) /\ NoDup (map fst qs) /\ List.length ps = List.length qs /\
  (forall k v, In (k, v) ps -> exists w, lookup k qs = Some w /\ same_entries v w).
Proof.
  cbn. intros (Hp & Hq & Hlen & Hall). repeat split; try assumption.
  clear Hp Hlen. induction ps as [|[k v] ps IH]; cbn; [tauto|].
  destruct Hall as [Hkv Hall]. intros k' v' [[= <- <-]|Hin].
  - destruct (lookup k qs) as [w|]; [|tauto]. now exists w.
  - now apply IH.
Qed.

Lemma same_entries_arr (xs ys : list (value num)) :
  same_entries (VArr xs) (VArr ys) -> Forall2 same_entries xs ys.
Proof.
  cbn. revert ys. induction xs as [|x xs IH]; intros [|y ys] H; try tauto; constructor.
  - apply H.
  - apply IH, H.
Qed.

(** [sortObject] is canonical: payloads with the same entries are sorted
    into one and the same value. *)
Lemma sortObject_same_entries (a b : value num) :
  same_entries a b -> sortObject a = sortObject b.
Proof.
  revert b.
  induction a as [| |b0|n|s|items IH|props IH] using value_nested_ind; intros b H;
    try (cbn in H; subst; reflexivity).
  - destruct b as [| | | | |ys|]; try (cbn in H; tauto).
    apply same_entries_arr in H. cbn [sortObject]. f_equal.
    induction H as [|x y xs ys Hxy Hrest IHrest]; [reflexivity|].
    cbn. inversion IH; subst. f_equal; auto.
  - destruct b as [| | | | | |qs]; try (cbn in H; tauto).
    apply same_entries_obj in H. destruct H as (Hp & Hq & Hlen & Hall).
    assert (Hperm : Permutation (map fst props) (map fst qs)).
    { apply NoDup_Permutation_bis; try assumption.
      - rewrite !length_map. lia.
      - intros k Hk. apply in_map_iff in Hk. destruct Hk as ([k' v] & <- & Hin).
        destruct (Hall _ _ Hin) as (w & Hw & _). apply lookup_In in Hw.
        apply in_map_iff. now exists (k', w). }
    cbn [sortObject]. f_equal.
    rewrite (sort_keys_permutation (Object_keys props) (Object_keys qs))
      by (rewrite !Object_keys_perm; exact Hperm).
    assert (Hget : forall key, In key (map fst qs) ->
                   get (map_values sortObject props) key
                   = get (map_values sortObject qs) key).
    { intros key Hin. apply (Permutation_in _ (Permutation_sym Hperm)) in Hin.
      unfold get. rewrite !lookup_map_values.
      destruct (lookup key props) as [v|] eqn:Hv.
      - apply lookup_In in Hv. destruct (Hall _ _ Hv) as (w & Hw & Hvw). rewrite Hw. cbn.
        rewrite Forall_forall in IH. apply (IH _ Hv). exact Hvw.
      - apply lookup_None in Hv. contradiction. }
    assert (Hin : forall key, In key (sort String.leb (Object_keys qs)) ->
                  In key (map fst qs)).
    { intros key Hk. eapply Permutation_in; [|exact Hk].
      rewrite sort_perm. apply Object_keys_perm. }
    generalize (@nil (string * value num)).
    induction (sort String.leb (Object_keys qs)) as [|key keys IHk]; intros acc;
      [reflexivity|].
    cbn. rewrite Hget by (apply Hin; now left).
    apply IHk. intros k Hk. apply Hin. now right.
Qed.

End Canonical.

Example sortObject_payload_1 :
  sortObject payload_1
  = VObj [ ("history", VArr [ VObj [ ("from", VStr "sending"); ("to", VStr "finished") ] ]);
           ("outcome", VObj [ ("amount", VNum 7); ("currency", VStr "BTC") ]);
           ("payment_id", VStr "42") ].
Proof. reflexivity. Qed.

(** C10: two payloads with the same entries, whatever the order of their
    keys at any depth, get the same signature under the same secret, and
    [verifyIPN] gives the same verdict on them, for any serialisation of
    the sorted payload and any keyed hash. *)
Theorem C10_signature_ignores_key_order
        {num : Type} (JSON_stringify : value num -> option string)
        (hmac_sha512_hex : string -> string -> string)
        (a b : value num) (secret : string) (ipnSecret : option string)
        (signature : string) :
  same_entries a b ->
  generateSignature JSON_stringify hmac_sha512_hex a secret
  = generateSignature JSON_stringify hmac_sha512_hex b secret
  /\ verifyIPN JSON_stringify hmac_sha512_hex ipnSecret a signature
     = verifyIPN JSON_stringify hmac_sha512_hex ipnSecret b signature.
Proof.
  intros H. apply sortObject_same_entries in H.
  unfold verifyIPN, generateSignature. rewrite H. split; reflexivity.
Qed.

(** C10 on one payload written with two key orders. *)
Lemma C10_witness :
  same_entries payload_1 payload_2
  /\ generateSignature stringify_stub hmac_stub payload_1 "secret"
     = generateSignature stringify_stub hmac_stub payload_2 "secret"
  /\ verifyIPN stringify_stub hmac_stub (Some "secret") payload_1 "secret:{}"
     = verifyIPN stringify_stub hmac_stub (Some "secret") payload_2 "secret:{}".
Proof.
  assert (H : same_entries payload_1 payload_2).
  { cbn. repeat split; repeat constructor; cbn; intuition discriminate. }
  split; [exact H|].
  exact (C10_signature_ignores_key_order stringify_stub hmac_stub payload_1 payload_2
           "secret" (Some "secret") "secret:{}" H).
Defined.

(** ** The socket client *)

Import WebSocketClient SocketProperties.


(** *** Timers and handles *)

(** Membership in a timer list that was extended by one timer. *)
Ltac in_snoc H := apply in_app_or in H; destruct H as [H|[<-|[]]].

Lemma In_cancel (t : Timer) (h : handle) (ts : list Timer) :
  In t (cancel h ts) <-> In t ts /\ id t <> h.
Proof.
  unfold cancel. rewrite filter_In. rewrite negb_true_iff, Nat.eqb_neq. tauto.
Qed.

Lemma In_cancel_handle (t : Timer) (h : option handle) (ts : list Timer) :
  In t (cancel_handle h ts) <-> In t ts /\ h <> Some (id t).
Proof.
  destruct h as [h|]; cbn.
  - rewrite In_cancel. split; intros [H1 H2]; split; auto; congruence.
  - split; [intros H; split; [auto|discriminate] | tauto].
Qed.

(** Timers kept by a filter still have distinct handles. *)
Lemma distinct_ids_filter (keep : Timer -> bool) (ts : list Timer) :
  NoDup (map id ts) -> NoDup (map id (filter keep ts)).
Proof.
  induction ts as [|t ts IH]; cbn; [trivial|].
  rewrite NoDup_cons_iff. intros [Hfresh Hrest].
  destruct (keep t); cbn; [|now apply IH].
  apply NoDup_cons; [|now apply IH].
  rewrite in_map_iff. intros (u & Hid & Hu). apply Hfresh.
  apply filter_In in Hu. rewrite <- Hid. apply in_map, Hu.
Qed.

(** *** What each method does to the fields the properties read *)

Lemma close_view (w : World) :
  timers (close w) = cleared w
  /\ next_timer (close w) = next_timer w
  /\ options (this (close w)) = options (this w)
  /\ pongTimeout (this (close w)) = pongTimeout (this w)
  /\ pingInterval (this (close w)) = pingInterval (this w)
  /\ reconnectTimer (this (close w)) = reconnectTimer (this w)
  /\ ws (this (close w)) = None
  /\ reconnectAttempts (this (close w)) = reconnectAttempts (this w)
  /\ isConnected (this (close w)) = false
  /\ events (close w) = events w
  /\ now (close w) = now w.
Proof.
  unfold close, clearInterval, clearTimeout.
  destruct w as [[k o a c lp pt pi rt s] n ts nt ss ev cs un uh]; cbn.
  destruct pi, pt, rt, s as [s|]; cbn; try (repeat split; reflexivity);
    unfold socket; cbn;
    destruct (nth_error (set_nth s (set_listening false) ss) s) as [[u [] l]|];
    cbn; repeat split; reflexivity.
Qed.

Lemma handleDisconnect_view (code : Z) (reason : string) (w : World) :
  let w' := _handleDisconnect code reason w in
  options (this w') = options (this w)
  /\ pongTimeout (this w') = pongTimeout (this w)
  /\ pingInterval (this w') = pingInterval (this w)
  /\ ws (this w') = ws (this w)
  /\ isConnected (this w') = false
  /\ now w' = now w
  /\ if reconnectAttempts (this w) <? Options.maxReconnectAttempts (options (this w)) then
       timers w' = (cleared w ++ [reconnect_timer w])%list
       /\ next_timer w' = S (next_timer w)
       /\ reconnectTimer (this w') = Some (next_timer w)
       /\ reconnectAttempts (this w') = reconnectAttempts (this w) + 1
       /\ events w'
          = (events w ++ [disconnected reason;
                          reconnecting (reconnectAttempts (this w) + 1)])%list
     else
       timers w' = cleared w
       /\ next_timer w' = next_timer w
       /\ reconnectTimer (this w') = reconnectTimer (this w)
       /\ reconnectAttempts (this w') = reconnectAttempts (this w)
       /\ events w'
          = (events w ++ [disconnected reason;
                          error "MaxReconnectError"
                                "Maximum reconnection attempts reached"])%list.
Proof.
  unfold _handleDisconnect, clearInterval, clearTimeout.
  destruct w as [[k o a c lp pt pi rt s] n ts nt ss ev cs un uh]; cbn.
  destruct pi, pt, rt; cbn; destruct (a <? Options.maxReconnectAttempts o); cbn;
    rewrite <- ?app_assoc; repeat split; reflexivity.
Qed.

(** Clearing the three handles of [this] clears every timer. *)
Lemma all_tracked (w : World) : Inv w -> cleared w = [].
Proof.
  intros I.
  destruct (cleared w) as [|t l] eqn:E; [reflexivity|exfalso].
  assert (Hin : In t (t :: l)) by now left. rewrite <- E in Hin.
  unfold cleared in Hin. rewrite !In_cancel_handle in Hin.
  destruct Hin as [[[Hin Hi] Hp] Hr].
  destruct (run t) eqn:Hrun.
  - apply Hi. now apply (inv_ping w I).
  - apply Hp. now apply (inv_pong w I).
  - apply Hr. now apply (inv_reconnect w I).
Qed.

(** *** The invariant is kept by every method and every event *)

Lemma Inv_no_timer (w : World) : timing_ok (options (this w)) -> timers w = [] -> Inv w.
Proof.
  intros Ht Hts. split; rewrite ?Hts; cbn.
  - assumption.
  - intros t [].
  - constructor.
  - intros t [].
  - intros t [].
  - intros p i [].
  - intros t [].
  - intros _ t [].
Qed.

(** The invariant reads [this] only through its options, its handles
    and its socket. *)
Lemma Inv_same_view (w w' : World) :
  options (this w') = options (this w) ->
  pongTimeout (this w') = pongTimeout (this w) ->
  pingInterval (this w') = pingInterval (this w) ->
  reconnectTimer (this w') = reconnectTimer (this w) ->
  ws (this w') = ws (this w) ->
  timers w' = timers w ->
  next_timer w' = next_timer w ->
  Inv w -> Inv w'.
Proof.
  intros Ho Hp Hi Hr Hs Ht Hn [I1 I2 I3 I4 I5 I6 I7 I8].
  split; rewrite ?Ho, ?Hp, ?Hi, ?Hr, ?Hs, ?Ht, ?Hn; auto.
Qed.

Lemma Inv_cancel (h : handle) (w : World) : Inv w -> Inv (upd_timers (cancel h) w).
Proof.
  intros [I1 I2 I3 I4 I5 I6 I7 I8]. split; cbn; auto.
  - intros t Hin. apply In_cancel in Hin. apply I2, Hin.
  - now apply distinct_ids_filter.
  - intros t Hin. apply In_cancel in Hin. apply I4, Hin.
  - intros t Hin. apply In_cancel in Hin. apply I5, Hin.
  - intros p i Hp Hi. apply In_cancel in Hp, Hi. apply I6; tauto.
  - intros t Hin. apply In_cancel in Hin. apply I7, Hin.
  - intros Hs t Hin. apply In_cancel in Hin. apply I8; tauto.
Qed.

Lemma Inv_clearTimer (h : option handle) (w : World) : Inv w -> Inv (clearTimer h w).
Proof. destruct h; [apply Inv_cancel|auto]. Qed.

Lemma NoDup_map_id_snoc (ts : list Timer) (t : Timer) (n : handle) :
  (forall x, In x ts -> (id x < n)%nat) -> id t = n ->
  NoDup (map id ts) -> NoDup (map id (ts ++ [t])).
Proof.
  intros Hf Hid Hn. rewrite map_app. cbn.
  apply NoDup_app_remove_l with (l := []). cbn.
  apply (Permutation_NoDup (l := id t :: map id ts)).
  - apply Permutation_cons_append.
  - constructor; auto. intros Hin. apply in_map_iff in Hin. destruct Hin as (x & Hx & Hin).
    apply Hf in Hin. lia.
Qed.

(** In such a world [close()] leaves no timer at all. *)
Lemma timers_close (w : World) : Inv w -> timers (close w) = [].
Proof.
  intros I. destruct (close_view w) as (Ht & _). rewrite Ht. now apply all_tracked.
Qed.

Lemma Inv_close (w : World) : Inv w -> Inv (close w).
Proof.
  intros I. apply Inv_no_timer; [|now apply timers_close].
  destruct (close_view w) as (_ & _ & Ho & _). rewrite Ho. apply I.
Qed.

Lemma Inv_handleDisconnect (code : Z) (reason : string) (w : World) :
  Inv w -> Inv (_handleDisconnect code reason w).
Proof.
  intros I.
  destruct (handleDisconnect_view code reason w) as (Ho & Hp & Hi & Hs & _ & _ & Hrest).
  cbv zeta in Hrest. rewrite (all_tracked w I) in Hrest.
  destruct (reconnectAttempts (this w) <? _).
  - destruct Hrest as (Ht & Hn & Hr & _).
    split; rewrite ?Ho, ?Hp, ?Hi, ?Hs, ?Ht, ?Hn, ?Hr; cbn.
    + apply I.
    + intros t [<-|[]]. cbn. lia.
    + repeat constructor. intros [].
    + intros t [<-|[]]. discriminate.
    + intros t [<-|[]]. discriminate.
    + intros p i [<-|[]]. discriminate.
    + intros t [<-|[]]. reflexivity.
    + intros _ t [<-|[]]. reflexivity.
  - destruct Hrest as (Ht & _). apply Inv_no_timer; [rewrite Ho; apply I|exact Ht].
Qed.

Lemma connect_eq (w : World) :
  connect w = connect_fresh (match ws (this w) with Some _ => close w | None => w end).
Proof. reflexivity. Qed.

Lemma connect_fresh_view (w : World) :
  timers (connect_fresh w) = (timers w ++ [ping_timer w])%list
  /\ next_timer (connect_fresh w) = S (next_timer w)
  /\ options (this (connect_fresh w)) = options (this w)
  /\ pongTimeout (this (connect_fresh w)) = pongTimeout (this w)
  /\ pingInterval (this (connect_fresh w)) = Some (next_timer w)
  /\ ws (this (connect_fresh w)) = Some (List.length (sockets w))
  /\ reconnectAttempts (this (connect_fresh w)) = reconnectAttempts (this w)
  /\ reconnectTimer (this (connect_fresh w)) = reconnectTimer (this w)
  /\ isConnected (this (connect_fresh w)) = isConnected (this w)
  /\ events (connect_fresh w) = events w
  /\ now (connect_fresh w) = now w.
Proof.
  destruct w as [[k o a c lp pt pi rt s] n ts nt ss ev cs un uh].
  repeat split; reflexivity.
Qed.

Lemma Inv_connect_fresh (w : World) : Inv w -> quiet (timers w) -> Inv (connect_fresh w).
Proof.
  intros I Hq.
  destruct (connect_fresh_view w) as (Ht & Hn & Ho & Hp & Hi & Hs & _ & Hr & _).
  split; rewrite ?Ht, ?Hn, ?Ho, ?Hp, ?Hi, ?Hs, ?Hr.
  - apply I.
  - intros t Hin. in_snoc Hin; [apply I in Hin; lia|cbn; lia].
  - eapply NoDup_map_id_snoc; [apply I|reflexivity|apply I].
  - intros t Hin Hrun. in_snoc Hin; [|discriminate].
    rewrite (Hq t Hin) in Hrun. discriminate.
  - intros t Hin Hrun. in_snoc Hin; [|split; reflexivity].
    rewrite (Hq t Hin) in Hrun. discriminate.
  - intros p i Hp' _ Hrun. in_snoc Hp'; [|discriminate].
    rewrite (Hq p Hp') in Hrun. discriminate.
  - intros t Hin Hrun. in_snoc Hin; [|discriminate].
    now apply I.
  - discriminate.
Qed.

Lemma quiet_before_connect (w : World) :
  Inv w -> quiet (timers (match ws (this w) with Some _ => close w | None => w end)).
Proof.
  intros I. destruct (ws (this w)) eqn:Hs.
  - rewrite (timers_close w I). intros t [].
  - intros t. now apply (inv_idle w I).
Qed.

Lemma Inv_connect (w : World) : Inv w -> Inv (connect w).
Proof.
  intros I. rewrite connect_eq. apply Inv_connect_fresh.
  - destruct (ws (this w)); [now apply Inv_close|assumption].
  - now apply quiet_before_connect.
Qed.

Lemma Inv_handler (s : nat) (f : Socket -> Socket) (e : transport_event) (w : World) :
  Inv w -> Inv (handler e (upd_sockets (set_nth s f) w)).
Proof.
  intros I.
  assert (I' : Inv (upd_sockets (set_nth s f) w))
    by (revert I; apply Inv_same_view; reflexivity).
  set (w1 := upd_sockets (set_nth s f) w) in *.
  destruct e as [|[[] txt|msg]| |code reason|msg];
    cbn [handler on_open on_message on_error on_close on_pong];
    try (revert I'; apply Inv_same_view; reflexivity).
  - assert (I2 : Inv (clearTimeout (pongTimeout (this w1)) w1)) by now apply Inv_clearTimer.
    revert I2. apply Inv_same_view; reflexivity.
  - now apply Inv_handleDisconnect.
Qed.

Lemma Inv_deliver (s : nat) (e : transport_event) (w w' : World) :
  Inv w -> deliver s e w = Some w' -> Inv w'.
Proof.
  unfold deliver. intros I. destruct (socket s w) as [sock|]; [|discriminate].
  destruct (ready_after e (readyState sock)) as [r|]; [|discriminate].
  intros [= <-]. destruct (listening sock).
  - now apply Inv_handler.
  - revert I. apply Inv_same_view; destruct e; reflexivity.
Qed.

Lemma no_pong_handleDisconnect (code : Z) (reason : string) (w : World) :
  Inv w -> no_pong (timers (_handleDisconnect code reason w)).
Proof.
  intros I. destruct (handleDisconnect_view code reason w) as (_ & _ & _ & _ & _ & _ & Hrest).
  cbv zeta in Hrest. rewrite (all_tracked w I) in Hrest.
  destruct (reconnectAttempts (this w) <? _); destruct Hrest as (Ht & _); rewrite Ht.
  - intros t [<-|[]]. discriminate.
  - intros t [].
Qed.

Lemma find_timer_In (h : handle) (w : World) (t : Timer) :
  find_timer h w = Some t -> In t (timers w) /\ id t = h.
Proof.
  unfold find_timer. intros H. apply find_some in H. destruct H as [Hin Hid].
  apply Nat.eqb_eq in Hid. auto.
Qed.

Lemma earliest_le (t : Timer) (w : World) (o : Timer) :
  earliest t w = true -> In o (timers w) -> due t <= due o.
Proof.
  unfold earliest. rewrite forallb_forall. intros H Hin. apply H in Hin. lia.
Qed.

(** A tick can only run when no pong timeout is armed: an armed one is
    due earlier, and timers run in deadline order. *)
Lemma no_pong_at_tick (w : World) (t : Timer) :
  Inv w -> In t (timers w) -> run t = PingTick -> earliest t w = true ->
  no_pong (timers w).
Proof.
  intros I Hin Hr He p Hp Hrp.
  pose proof (inv_order w I p t Hp Hin Hrp Hr). pose proof (earliest_le t w p He Hp). lia.
Qed.

Lemma no_pong_outstanding (w : World) : no_pong (timers w) -> outstanding_probes w = [].
Proof.
  unfold outstanding_probes. intros H.
  destruct (filter is_pong_timer (timers w)) as [|p l] eqn:E; [reflexivity|].
  assert (Hin : In p (filter is_pong_timer (timers w))) by (rewrite E; now left).
  apply filter_In in Hin. destruct Hin as [Hin Hp]. exfalso. apply (H p Hin).
  unfold is_pong_timer in Hp. destruct (run p); try discriminate. reflexivity.
Qed.

Lemma In_rearm (t : Timer) (h : handle) (d : Z) (ts : list Timer) :
  In t (rearm h d ts) ->
  exists t0, In t0 ts /\ id t = id t0 /\ run t = run t0 /\ repeat t = repeat t0
             /\ ((t = t0 /\ id t0 <> h) \/ (id t0 = h /\ due t = d)).
Proof.
  unfold rearm. intros H. apply in_map_iff in H. destruct H as (t0 & <- & Hin).
  exists t0. destruct (Nat.eqb_spec (id t0) h); cbn; auto 10.
Qed.

Lemma map_id_rearm (h : handle) (d : Z) (ts : list Timer) :
  map id (rearm h d ts) = map id ts.
Proof.
  unfold rearm. rewrite map_map. apply map_ext. intros t.
  destruct (Nat.eqb (id t) h); reflexivity.
Qed.

(** Re-arming an interval keeps the invariant when no pong timeout is
    armed. *)
Lemma Inv_rearm_no_pong (h : handle) (d : Z) (w : World) :
  Inv w -> no_pong (timers w) -> Inv (upd_timers (rearm h d) w).
Proof.
  intros [I1 I2 I3 I4 I5 I6 I7 I8] Hno. split; cbn; auto.
  - intros t Hin. apply In_rearm in Hin. destruct Hin as (t0 & Hin & -> & _). auto.
  - now rewrite map_id_rearm.
  - intros t Hin Hr. apply In_rearm in Hin. destruct Hin as (t0 & Hin & _ & Hr0 & _).
    rewrite Hr0 in Hr. now elim (Hno t0 Hin).
  - intros t Hin Hr. apply In_rearm in Hin. destruct Hin as (t0 & Hin & -> & Hr0 & -> & _).
    rewrite Hr0 in Hr. auto.
  - intros p i Hp _ Hr. apply In_rearm in Hp. destruct Hp as (t0 & Hin & _ & Hr0 & _).
    rewrite Hr0 in Hr. now elim (Hno t0 Hin).
  - intros t Hin Hr. apply In_rearm in Hin. destruct Hin as (t0 & Hin & -> & Hr0 & _).
    rewrite Hr0 in Hr. auto.
  - intros Hs t Hin. apply In_rearm in Hin. destruct Hin as (t0 & Hin & _ & -> & _). auto.
Qed.

Lemma no_pong_connect (w : World) : Inv w -> no_pong (timers (connect w)).
Proof.
  intros I. rewrite connect_eq.
  pose proof (quiet_before_connect w I) as Hq.
  destruct (connect_fresh_view (match ws (this w) with Some _ => close w | None => w end))
    as (Ht & _).
  rewrite Ht. intros t Hin. in_snoc Hin; [|discriminate].
  rewrite (Hq t Hin). discriminate.
Qed.

Lemma ping_tick_view (w : World) :
  options (this (ping_tick w)) = options (this w)
  /\ pingInterval (this (ping_tick w)) = pingInterval (this w)
  /\ reconnectTimer (this (ping_tick w)) = reconnectTimer (this w)
  /\ ws (this (ping_tick w)) = ws (this w)
  /\ now (ping_tick w) = now w
  /\ events (ping_tick w) = events w
  /\ match isConnected (this w), ws (this w) with
     | true, Some s =>
         timers (ping_tick w) = (timers w ++ [pong_timer w])%list
         /\ next_timer (ping_tick w) = S (next_timer w)
         /\ pongTimeout (this (ping_tick w)) = Some (next_timer w)
         /\ calls (ping_tick w) = (calls w ++ [ws_ping s])%list
     | _, _ =>
         timers (ping_tick w) = timers w
         /\ next_timer (ping_tick w) = next_timer w
         /\ pongTimeout (this (ping_tick w)) = pongTimeout (this w)
         /\ calls (ping_tick w) = calls w
     end.
Proof.
  destruct w as [[k o a c lp pt pi rt s] n ts nt ss ev cs un uh].
  unfold ping_tick. cbn. destruct c, s; cbn; repeat split; reflexivity.
Qed.

Lemma Inv_fire (h : handle) (w w' : World) : Inv w -> fire h w = Some w' -> Inv w'.
Proof.
  intros I. unfold fire. destruct (find_timer h w) as [t|] eqn:Hfind; [|discriminate].
  apply find_timer_In in Hfind. destruct Hfind as [Hin Hid].
  destruct ((due t <=? now w) && earliest t w) eqn:Hen; [|discriminate].
  apply andb_true_iff in Hen. destruct Hen as [Hdue Hearly].
  destruct (repeat t) as [period|] eqn:Hrep; intros [= <-].
  - destruct (run t) eqn:Hr; cbn [run_callback].
    + (* a tick *)
      pose proof (no_pong_at_tick w t I Hin Hr Hearly) as Hno.
      destruct (inv_ping w I t Hin Hr) as [Hh Hper].
      rewrite Hrep in Hper. injection Hper as ->.
      destruct (ping_tick_view w) as (Ho & Hi & Hrt & Hs & Hnow & _ & Hcase).
      destruct (isConnected (this w)) eqn:Hc, (ws (this w)) as [s|] eqn:Hws;
        try (destruct Hcase as (Ht & Hn & Hp & _);
             apply Inv_rearm_no_pong; [|now rewrite Ht];
             revert I; apply Inv_same_view; congruence).
      destruct Hcase as (Ht & Hn & Hp & _).
      split; cbn [upd_timers this timers next_timer];
        rewrite ?Ho, ?Hi, ?Hrt, ?Hs, ?Hp, ?Hn, ?Ht, ?Hnow.
      * apply I.
      * intros x Hx. apply In_rearm in Hx. destruct Hx as (t0 & Hx & -> & _).
        in_snoc Hx; [apply I in Hx; lia|cbn; lia].
      * rewrite map_id_rearm. eapply NoDup_map_id_snoc; [apply I|reflexivity|apply I].
      * intros x Hx Hrx. apply In_rearm in Hx. destruct Hx as (t0 & Hx & -> & Hr0 & _).
        rewrite Hr0 in Hrx.
        in_snoc Hx; [now elim (Hno t0 Hx)|reflexivity].
      * intros x Hx Hrx. apply In_rearm in Hx. destruct Hx as (t0 & Hx & -> & Hr0 & -> & _).
        rewrite Hr0 in Hrx.
        in_snoc Hx; [now apply I|discriminate].
      * intros p i Hp' Hi' Hrp Hri.
        apply In_rearm in Hp'. destruct Hp' as (p0 & Hp0 & Hidp & Hrp0 & _ & Hduep).
        rewrite Hrp0 in Hrp.
        in_snoc Hp0; [now elim (Hno p0 Hp0)|].
        destruct Hduep as [[-> _]|[Hbad _]]; [|cbn in Hbad; apply I in Hin; lia].
        apply In_rearm in Hi'. destruct Hi' as (i0 & Hi0 & Hidi & Hri0 & _ & Hduei).
        rewrite Hri0 in Hri.
        in_snoc Hi0; [|discriminate].
        destruct (inv_ping w I i0 Hi0 Hri) as [Hh' _].
        destruct Hduei as [[-> Hne]|[_ ->]].
        -- (* not re-armed: impossible, it has handle h *)
           exfalso. apply Hne. congruence.
        -- unfold pong_timer. cbn [due].
           pose proof (inv_timing w I) as Htm. unfold timing_ok in Htm. lia.
      * intros x Hx Hrx. apply In_rearm in Hx. destruct Hx as (t0 & Hx & -> & Hr0 & _).
        rewrite Hr0 in Hrx.
        in_snoc Hx; [now apply I|discriminate].
      * discriminate.
    + apply Inv_rearm_no_pong; [now apply Inv_handleDisconnect|].
      now apply no_pong_handleDisconnect.
    + apply Inv_rearm_no_pong; [now apply Inv_connect|now apply no_pong_connect].
  - assert (I0 : Inv (upd_timers (cancel h) w)) by now apply Inv_cancel.
    destruct (run t) eqn:Hr; cbn [run_callback].
    + destruct (inv_ping w I t Hin Hr) as [_ Hper]. congruence.
    + now apply Inv_handleDisconnect.
    + now apply Inv_connect.
Qed.

Lemma Inv_step (w : World) (e : event) (w' : World) : Inv w -> step w e = Some w' -> Inv w'.
Proof.
  intros I. destruct e as [| |dt|h|s te|t]; cbn [step].
  - intros [= <-]. now apply Inv_connect.
  - intros [= <-]. now apply Inv_close.
  - destruct (0 <=? dt); [|discriminate]. intros [= <-].
    revert I. apply Inv_same_view; reflexivity.
  - now apply Inv_fire.
  - now apply Inv_deliver.
  - destruct (0 <? t); [|discriminate]. intros [= <-].
    revert I. apply Inv_same_view; reflexivity.
Qed.

Lemma Inv_exec (es : list event) : forall w w', Inv w -> exec w es = Some w' -> Inv w'.
Proof.
  induction es as [|e es IH]; intros w w' I; cbn [exec].
  - now intros [= <-].
  - destruct (step w e) as [w1|] eqn:Hstep; [|discriminate].
    apply IH. now apply (Inv_step w e).
Qed.

Lemma Inv_boot (t0 : Z) (key : string) (o : WebSocketOptions) :
  timing_ok (options (new_client key o)) -> Inv (boot t0 key o).
Proof.
  intros H. now apply Inv_no_timer.
Qed.

(** Handles are distinct and every armed pong timeout is the one
    [this.pongTimeout] refers to: there is at most one. *)
Lemma at_most_one_probe (w : World) : Inv w -> (List.length (outstanding_probes w) <= 1)%nat.
Proof.
  intros I. unfold outstanding_probes.
  pose proof (distinct_ids_filter is_pong_timer (timers w) (inv_nodup w I)) as Hn.
  destruct (filter is_pong_timer (timers w)) as [|a [|b l]] eqn:E; cbn; try lia.
  assert (Ha : In a (filter is_pong_timer (timers w))) by (rewrite E; cbn; auto).
  assert (Hb : In b (filter is_pong_timer (timers w))) by (rewrite E; cbn; auto).
  apply filter_In in Ha, Hb. destruct Ha as [Ha Hra], Hb as [Hb Hrb].
  unfold is_pong_timer in Hra, Hrb.
  assert (run a = PongExpired) by (destruct (run a); try discriminate; reflexivity).
  assert (run b = PongExpired) by (destruct (run b); try discriminate; reflexivity).
  pose proof (inv_pong w I a Ha ltac:(assumption)).
  pose proof (inv_pong w I b Hb ltac:(assumption)).
  exfalso. cbn in Hn. inversion Hn as [|? ? Hnot _]. apply Hnot. left. congruence.
Qed.

(** *** Sockets *)

Lemma set_nth_snoc {A : Type} (f : A -> A) (l : list A) (x : A) :
  set_nth (List.length l) f (l ++ [x]) = (l ++ [f x])%list.
Proof.
  unfold set_nth. rewrite firstn_app, firstn_all, Nat.sub_diag. cbn [firstn].
  rewrite nth_error_app2 by lia. rewrite Nat.sub_diag. cbn [nth_error].
  rewrite skipn_all2 by (rewrite length_app; cbn; lia). now rewrite app_nil_r.
Qed.

Lemma nth_error_snoc {A : Type} (l : list A) (x : A) :
  nth_error (l ++ [x]) (List.length l) = Some x.
Proof. rewrite nth_error_app2 by lia. now rewrite Nat.sub_diag. Qed.

Lemma socket_connect_fresh (w : World) :
  socket (List.length (sockets w)) (connect_fresh w)
  = Some {| url := Options.endpoint (options (this w)); readyState := CONNECTING;
            listening := true |}.
Proof.
  destruct w as [[k o a c lp pt pi rt s] n ts nt ss ev cs un uh].
  unfold connect_fresh, socket. cbn -[set_nth nth_error].
  rewrite set_nth_snoc. apply nth_error_snoc.
Qed.

(** *** The two ways into [_handleDisconnect] *)

Lemma cancel_cancel (a b : handle) (l : list Timer) :
  cancel a (cancel b l) = cancel b (cancel a l).
Proof.
  unfold cancel. induction l as [|x l IH]; cbn; [reflexivity|].
  destruct (Nat.eqb (id x) a) eqn:Ea, (Nat.eqb (id x) b) eqn:Eb; cbn;
    rewrite ?Ea, ?Eb; cbn; congruence.
Qed.

Lemma cancel_idem (a : handle) (l : list Timer) : cancel a (cancel a l) = cancel a l.
Proof.
  unfold cancel. induction l as [|x l IH]; cbn; [reflexivity|].
  destruct (Nat.eqb (id x) a) eqn:Ea; cbn; rewrite ?Ea; cbn; congruence.
Qed.

Lemma cancel_handle_cancel (a : option handle) (b : handle) (l : list Timer) :
  cancel_handle a (cancel b l) = cancel b (cancel_handle a l).
Proof. destruct a; cbn; [apply cancel_cancel|reflexivity]. Qed.

(** What [_handleDisconnect] leaves in [this] depends neither on the
    code nor on the reason. *)
Lemma this_handleDisconnect (c : Z) (r : string) (c' : Z) (r' : string) (w w' : World) :
  this w = this w' -> next_timer w = next_timer w' ->
  this (_handleDisconnect c r w) = this (_handleDisconnect c' r' w').
Proof.
  destruct w as [[k o a cn lp pt pi rt s] n ts nt ss ev cs un uh].
  destruct w' as [[k' o' a' cn' lp' pt' pi' rt' s'] n' ts' nt' ss' ev' cs' un'].
  cbn. intros [= -> -> -> -> -> -> -> -> ->] ->.
  unfold _handleDisconnect, clearInterval, clearTimeout. cbn.
  destruct pi', pt', rt'; cbn; destruct (a' <? Options.maxReconnectAttempts o'); reflexivity.
Qed.

Lemma events_handleDisconnect (c : Z) (r : string) (w : World) :
  events (_handleDisconnect c r w)
  = (events w ++ [disconnected r; announcement (this w)])%list.
Proof.
  destruct (handleDisconnect_view c r w) as (_ & _ & _ & _ & _ & _ & H). cbv zeta in H.
  unfold announcement. destruct (reconnectAttempts (this w) <? _); apply H.
Qed.


(** *** Reconnection budget *)

(** C4 (as amended): [connect()] does not touch [reconnectAttempts],
    whatever state the client is in; the counter is set back to 0, and the
    client marked connected, when the socket that [connect()] created
    reports open. *)
Theorem C4_connect_keeps_counter_until_open (w : World) :
  reconnectAttempts (this (connect w)) = reconnectAttempts (this w)
  /\ exists s w',
       ws (this (connect w)) = Some s
       /\ step (connect w) (Transport s ev_open) = Some w'
       /\ reconnectAttempts (this w') = 0
       /\ isConnected (this w') = true.
Proof.
  rewrite connect_eq.
  set (w0 := match ws (this w) with Some _ => close w | None => w end).
  destruct (connect_fresh_view w0) as (_ & _ & _ & _ & _ & Hs & Ha & _).
  split.
  - rewrite Ha. unfold w0. destruct (ws (this w)); [|reflexivity].
    apply (close_view w).
  - exists (List.length (sockets w0)). eexists. split; [exact Hs|].
    cbn [step]. unfold deliver. rewrite socket_connect_fresh. cbn.
    split; [reflexivity|]. split; reflexivity.
Qed.

(** C4 (the claim fails): a default client whose five reconnections have
    all failed has emitted the terminal error.  Calling [connect()] then
    leaves [reconnectAttempts] at 5, not 0; and when the new socket closes
    without having opened, the terminal error is emitted again at once and
    no reconnection is scheduled. *)
Lemma C4_counterexample :
  let exhausted :=
    after (connected_session ++ five_closes abnormal no_reason
             ++ sixth_close abnormal no_reason)
          (boot 0 "key" no_options) in
  max_reconnect_errors exhausted = 1%nat
  /\ reconnectAttempts (this exhausted) = 5
  /\ reconnectAttempts (this (connect exhausted)) = 5
  /\ reconnectAttempts (this (connect exhausted)) <> 0
  /\ exists w,
       exec exhausted [CallConnect; Transport 6%nat (ev_close 1006 "")] = Some w
       /\ timers w = []
       /\ max_reconnect_errors w = 2%nat.
Proof.
  cbv zeta.
  split; [vm_compute; reflexivity|].
  split; [vm_compute; reflexivity|].
  split; [vm_compute; reflexivity|].
  split; [vm_compute; discriminate|].
  eexists. split; [vm_compute; reflexivity|].
  split; vm_compute; reflexivity.
Qed.

(** C6 (the claim fails): after five consecutive close events, with no
    reconnection having succeeded, the default client has emitted no
    terminal error and a fifth reconnection is scheduled, 16 s ahead. *)
Lemma C6_counterexample :
  let w := after (connected_session ++ five_closes abnormal no_reason)
                 (boot 0 "key" no_options) in
  exec (boot 0 "key" no_options) (connected_session ++ five_closes abnormal no_reason)
  = Some w
  /\ max_reconnect_errors w = 0%nat
  /\ reconnectAttempts (this w) = 5
  /\ timers w = [ {| id := 9%nat; run := Reconnect; due := now w + 16000; repeat := None |} ].
Proof.
  cbv zeta.
  split; [vm_compute; reflexivity|].
  split; [vm_compute; reflexivity|].
  split; vm_compute; reflexivity.
Qed.

(** C6 (as amended): it is the sixth consecutive close event, the one
    that fails the fifth reconnection, that ends the session.  Whatever
    the close codes and reasons, the default client then has emitted the
    terminal error exactly once, after announcing reconnections 1 to 5;
    no timer is left, and no timer or socket event can reach it any
    more. *)
Theorem C6_terminal_error_at_sixth_close
        (key : string) (code : nat -> Z) (reason : nat -> string) :
  exists w,
    exec (boot 0 key no_options)
         (connected_session ++ five_closes code reason ++ sixth_close code reason)
    = Some w
    /\ max_reconnect_errors w = 1%nat
    /\ last (events w) connected
       = error "MaxReconnectError" "Maximum reconnection attempts reached"
    /\ flat_map (fun e => match e with reconnecting n => [n] | _ => [] end) (events w)
       = [1; 2; 3; 4; 5]
    /\ timers w = []
    /\ (forall h, fire h w = None)
    /\ (forall s e, deliver s e w = None).
Proof.
  eexists. split; [vm_compute; reflexivity|].
  split; [vm_compute; reflexivity|].
  split; [vm_compute; reflexivity|].
  split; [vm_compute; reflexivity|].
  split; [vm_compute; reflexivity|].
  split.
  - intros h. vm_compute. reflexivity.
  - intros s e. do 6 (destruct s as [|s]; [destruct e; vm_compute; reflexivity|]).
    unfold deliver, socket. cbn [sockets]. destruct s; reflexivity.
Qed.

(** *** The heartbeat *)

(** C5 (the claim fails): with a ping every second and five seconds to
    answer, the second tick runs while the first ping still awaits its
    pong, and it sends a second ping: two probes are outstanding. *)
Lemma C5_counterexample :
  let w := after first_tick (boot 0 "key" eager_ping) in
  exec (boot 0 "key" eager_ping) first_tick = Some w
  /\ calls w = [ws_ping 0%nat]
  /\ List.length (outstanding_probes w) = 1%nat
  /\ exists w',
       fire 0%nat w = Some w'
       /\ calls w' = [ws_ping 0%nat; ws_ping 0%nat]
       /\ List.length (outstanding_probes w') = 2%nat.
Proof.
  cbv zeta.
  split; [vm_compute; reflexivity|].
  split; [vm_compute; reflexivity|].
  split; [vm_compute; reflexivity|].
  eexists. split; [vm_compute; reflexivity|].
  split; vm_compute; reflexivity.
Qed.

(** The two delays count as the runtime takes them.  A ping interval of
    3 000 000 000 ms is beyond what a timer takes and runs every
    millisecond: with a pong timeout of 1000 ms, shorter as a number, a
    second ping goes out while the first awaits its pong. *)
Lemma delays_count_as_the_runtime_takes_them :
  Options.pongTimeout (options (new_client "key" overlong_interval))
  < Options.pingInterval (options (new_client "key" overlong_interval))
  /\ ~ timing_ok (options (new_client "key" overlong_interval))
  /\ exists w,
       exec (boot 0 "key" overlong_interval) hasty_ticks = Some w
       /\ calls w = [ws_ping 0%nat; ws_ping 0%nat]
       /\ List.length (outstanding_probes w) = 2%nat.
Proof.
  split; [vm_compute; reflexivity|]. split; [vm_compute; discriminate|].
  eexists. split; [vm_compute; reflexivity|]. split; vm_compute; reflexivity.
Qed.

(** C5 (as amended): when the delay the runtime gives the pong timeout
    is shorter than the delay it gives the ping interval (a delay is the
    option's value from 1 to 2 147 483 647 ms, and 1 ms for any other),
    as with the defaults, at most one probe is outstanding in every
    world the client can reach, and whenever a tick runs no probe is
    outstanding.  The tick itself checks nothing: this follows from
    timers running in deadline order. *)
Theorem C5_one_probe_when_timeout_is_shorter
        (t0 : Z) (key : string) (o : WebSocketOptions) (es : list event) (w : World) :
  timing_ok (options (new_client key o)) ->
  exec (boot t0 key o) es = Some w ->
  (List.length (outstanding_probes w) <= 1)%nat
  /\ forall h t w',
       find_timer h w = Some t -> run t = PingTick -> fire h w = Some w' ->
       outstanding_probes w = [].
Proof.
  intros Htiming Hexec.
  assert (I : Inv w) by (eapply Inv_exec; [apply Inv_boot; exact Htiming|exact Hexec]).
  split; [now apply at_most_one_probe|].
  intros h t w' Hfind Hrun Hfire. apply no_pong_outstanding.
  unfold fire in Hfire. rewrite Hfind in Hfire.
  destruct ((due t <=? now w) && earliest t w) eqn:Hen; [|discriminate].
  apply andb_true_iff in Hen. destruct Hen as [_ Hearly].
  apply find_timer_In in Hfind. destruct Hfind as [Hin _].
  now apply (no_pong_at_tick w t).
Qed.

(** C5 on a default session with one answered ping and a second tick. *)
Lemma C5_witness :
  timing_ok (options (new_client "key" no_options))
  /\ exec (boot 0 "key" no_options) healthy = Some (after healthy (boot 0 "key" no_options))
  /\ (List.length (outstanding_probes (after healthy (boot 0 "key" no_options))) <= 1)%nat.
Proof.
  assert (Htiming : timing_ok (options (new_client "key" no_options)))
    by (vm_compute; reflexivity).
  assert (Hexec : exec (boot 0 "key" no_options) healthy
                  = Some (after healthy (boot 0 "key" no_options)))
    by (vm_compute; reflexivity).
  split; [exact Htiming|]. split; [exact Hexec|].
  exact (proj1 (C5_one_probe_when_timeout_is_shorter 0 "key" no_options healthy _
                  Htiming Hexec)).
Defined.

(** C7: a pong timeout that expires and a close reported by the socket
    both run [_handleDisconnect], on the same client state.  From one and
    the same world they leave the same [this] (not connected, the same
    attempt count, the same handles), emit ['disconnected'] followed by
    the same announcement, and, while attempts remain, schedule the same
    reconnection, due [reconnectDelay * 2 ^ (reconnectAttempts - 1)] from
    now; only the reason given with ['disconnected'] differs.  When the
    expiring timeout is the one [this.pongTimeout] refers to, the same
    timers are left. *)
Theorem C7_pong_timeout_is_handled_as_close
        (w w1 w2 : World) (h : handle) (t : Timer) (s : nat) (sock : Socket)
        (code : Z) (reason : string) :
  find_timer h w = Some t -> run t = PongExpired -> repeat t = None ->
  fire h w = Some w1 ->
  socket s w = Some sock -> listening sock = true ->
  deliver s (ev_close code reason) w = Some w2 ->
  w1 = _handleDisconnect 1001 "Pong timeout" (upd_timers (cancel h) w)
  /\ w2 = _handleDisconnect code reason (upd_sockets (set_nth s (set_readyState CLOSED)) w)
  /\ this w1 = this w2
  /\ events w1 = (events w ++ [disconnected "Pong timeout"; announcement (this w)])%list
  /\ events w2 = (events w ++ [disconnected reason; announcement (this w)])%list
  /\ (reconnectAttempts (this w) < Options.maxReconnectAttempts (options (this w)) ->
      exists r, In r (timers w1) /\ In r (timers w2)
                /\ reconnectTimer (this w1) = Some (id r) /\ run r = Reconnect
                /\ due r = now w
                           + timer_delay (Options.reconnectDelay (options (this w))
                                          * 2 ^ (reconnectAttempts (this w1) - 1)))
  /\ (pongTimeout (this w) = Some h -> timers w1 = timers w2).
Proof.
  intros Hfind Hrun Hrep Hfire Hsock Hlisten Hdeliver.
  unfold fire in Hfire. rewrite Hfind, Hrep, Hrun in Hfire.
  destruct ((due t <=? now w) && earliest t w); [|discriminate].
  injection Hfire as <-. cbn [run_callback]. unfold pong_expired.
  unfold deliver in Hdeliver. rewrite Hsock, Hlisten in Hdeliver.
  assert (Hready : ready_after (ev_close code reason) (readyState sock) = Some CLOSED
                   \/ ready_after (ev_close code reason) (readyState sock) = None)
    by (destruct (readyState sock); cbn; auto).
  destruct Hready as [Hready|Hready]; rewrite Hready in Hdeliver; [|discriminate].
  injection Hdeliver as <-. cbn [handler]. unfold on_close.
  set (wa := upd_timers (cancel h) w).
  set (wb := upd_sockets (set_nth s (set_readyState CLOSED)) w).
  split; [reflexivity|]. split; [reflexivity|].
  split; [apply (this_handleDisconnect 1001 "Pong timeout" code reason wa wb); reflexivity|].
  split; [exact (events_handleDisconnect 1001 "Pong timeout" wa)|].
  split; [exact (events_handleDisconnect code reason wb)|].
  destruct (handleDisconnect_view 1001 "Pong timeout" wa) as (_ & _ & _ & _ & _ & _ & Ha).
  destruct (handleDisconnect_view code reason wb) as (_ & _ & _ & _ & _ & _ & Hb).
  cbv zeta in Ha, Hb.
  change (this wa) with (this w) in *. change (this wb) with (this w) in *.
  change (next_timer wa) with (next_timer w) in *.
  change (next_timer wb) with (next_timer w) in *.
  change (reconnect_timer wa) with (reconnect_timer w) in *.
  change (reconnect_timer wb) with (reconnect_timer w) in *.
  split.
  - intros Hlt. apply Z.ltb_lt in Hlt. rewrite Hlt in Ha, Hb.
    destruct Ha as (Hta & _ & Hra & Haa & _), Hb as (Htb & _).
    exists (reconnect_timer w). rewrite Hta, Htb, Hra, Haa.
    split; [apply in_or_app; right; left; reflexivity|].
    split; [apply in_or_app; right; left; reflexivity|].
    repeat split.
  - intros Hp.
    assert (Hc : cleared wa = cleared wb).
    { unfold cleared, wa, wb. cbn [this timers upd_timers upd_sockets].
      rewrite Hp. cbn [cancel_handle]. f_equal.
      rewrite cancel_handle_cancel, cancel_idem. reflexivity. }
    rewrite Hc in Ha.
    destruct (reconnectAttempts (this w) <? _);
      destruct Ha as (-> & _), Hb as (-> & _); reflexivity.
Qed.

(** C7 on a default session whose first ping went unanswered: the pong
    timeout expires, or the socket closes instead. *)
Lemma C7_witness :
  let w := after silent_peer (boot 0 "key" no_options) in
  let w1 := after [Fire 1%nat] w in
  let w2 := after [Transport 0%nat (ev_close 1006 "gone")] w in
  fire 1%nat w = Some w1
  /\ deliver 0%nat (ev_close 1006 "gone") w = Some w2
  /\ this w1 = this w2
  /\ timers w1 = timers w2.
Proof.
  cbv zeta.
  set (w := after silent_peer (boot 0 "key" no_options)).
  set (w1 := after [Fire 1%nat] w).
  set (w2 := after [Transport 0%nat (ev_close 1006 "gone")] w).
  assert (Hfire : fire 1%nat w = Some w1) by (vm_compute; reflexivity).
  assert (Hdeliver : deliver 0%nat (ev_close 1006 "gone") w = Some w2)
    by (vm_compute; reflexivity).
  pose proof (C7_pong_timeout_is_handled_as_close w w1 w2 1%nat
                {| id := 1%nat; run := PongExpired; due := 35000; repeat := None |}
                0%nat
                {| url := DEFAULT_ENDPOINT; readyState := OPEN; listening := true |}
                1006 "gone"
                ltac:(vm_compute; reflexivity) eq_refl eq_refl Hfire
                ltac:(vm_compute; reflexivity) eq_refl Hdeliver)
    as (_ & _ & Hthis & _ & _ & _ & Htimers).
  split; [exact Hfire|]. split; [exact Hdeliver|]. split; [exact Hthis|].
  apply Htimers. vm_compute. reflexivity.
Defined.

(** *** Attached handlers *)

Lemma set_nth_nil {A : Type} (n : nat) (f : A -> A) : set_nth n f [] = [].
Proof. unfold set_nth. destruct n; reflexivity. Qed.

Lemma set_nth_cons_S {A : Type} (n : nat) (f : A -> A) (x : A) (l : list A) :
  set_nth (S n) f (x :: l) = x :: set_nth n f l.
Proof. reflexivity. Qed.

Lemma nth_error_set_nth {A : Type} (f : A -> A) (l : list A) :
  forall n m,
    nth_error (set_nth n f l) m
    = if Nat.eqb m n then option_map f (nth_error l m) else nth_error l m.
Proof.
  induction l as [|x l IH]; intros n m.
  - rewrite set_nth_nil. destruct m, (Nat.eqb _ n); reflexivity.
  - destruct n as [|n].
    + destruct m; reflexivity.
    + rewrite set_nth_cons_S. destruct m as [|m]; [reflexivity|].
      cbn [nth_error Nat.eqb]. apply IH.
Qed.

Lemma sockets_close (w : World) :
  sockets (close w)
  = match ws (this w) with
    | None => sockets w
    | Some s =>
        let ss := set_nth s (set_listening false) (sockets w) in
        match nth_error ss s with
        | Some {| readyState := OPEN |} | Some {| readyState := CONNECTING |} =>
            set_nth s (set_readyState CLOSING) ss
        | _ => ss
        end
    end.
Proof.
  unfold close, clearInterval, clearTimeout.
  destruct w as [[k o a c lp pt pi rt s] n ts nt ss ev cs un uh]; cbn.
  destruct pi, pt, rt, s as [s|]; cbn; try reflexivity;
    unfold socket; cbn;
    destruct (nth_error (set_nth s (set_listening false) ss) s) as [[u [] l]|];
    reflexivity.
Qed.

(** No socket but the current one has the client's handlers attached. *)
Lemma close_detaches (w : World) :
  attached_to_current w ->
  forall s sock, socket s (close w) = Some sock -> listening sock = false.
Proof.
  intros Hatt s sock. unfold socket. rewrite sockets_close.
  destruct (ws (this w)) as [s0|] eqn:Hws.
  - cbv zeta.
    assert (Hfirst : forall x,
               nth_error (set_nth s0 (set_listening false) (sockets w)) s = Some x ->
               listening x = false).
    { intros x. rewrite nth_error_set_nth. destruct (Nat.eqb_spec s s0) as [->|Hne].
      - destruct (nth_error (sockets w) s0); cbn; [|discriminate]. now intros [= <-].
      - intros Hx. destruct (listening x) eqn:Hl; [|reflexivity].
        pose proof (Hatt s x Hx Hl). congruence. }
    destruct (nth_error (set_nth s0 (set_listening false) (sockets w)) s0) as [[u [] l]|];
      try exact (Hfirst sock); rewrite nth_error_set_nth;
      destruct (Nat.eqb s s0);
      try exact (Hfirst sock);
      destruct (nth_error (set_nth s0 (set_listening false) (sockets w)) s) as [x|] eqn:Hx;
      cbn; try discriminate; intros [= <-]; cbn; now apply Hfirst.
  - intros Hs. destruct (listening sock) eqn:Hl; [|reflexivity].
    pose proof (Hatt s sock Hs Hl). congruence.
Qed.

Lemma attached_same (w w' : World) :
  sockets w' = sockets w -> ws (this w') = ws (this w) ->
  attached_to_current w -> attached_to_current w'.
Proof. unfold attached_to_current, socket. intros -> ->. auto. Qed.

Lemma attached_close (w : World) : attached_to_current w -> attached_to_current (close w).
Proof.
  intros Hatt s sock Hs Hl. rewrite (close_detaches w Hatt s sock Hs) in Hl. discriminate.
Qed.

Lemma sockets_connect_fresh (w : World) :
  sockets (connect_fresh w)
  = (sockets w ++ [ {| url := Options.endpoint (options (this w));
                       readyState := CONNECTING; listening := true |} ])%list.
Proof.
  destruct w as [[k o a c lp pt pi rt s'] n ts nt ss ev cs un uh].
  unfold connect_fresh. cbn -[set_nth]. rewrite set_nth_snoc. reflexivity.
Qed.

Lemma attached_connect_fresh (w : World) :
  (forall s sock, socket s w = Some sock -> listening sock = false) ->
  attached_to_current (connect_fresh w).
Proof.
  intros Hnone s sock.
  destruct (connect_fresh_view w) as (_ & _ & _ & _ & _ & Hws & _). rewrite Hws.
  unfold socket. rewrite sockets_connect_fresh. intros Hs Hl.
  destruct (Nat.lt_ge_cases s (List.length (sockets w))) as [Hlt|Hge].
  - rewrite nth_error_app1 in Hs by assumption.
    rewrite (Hnone s sock Hs) in Hl. discriminate.
  - destruct (Nat.eq_dec s (List.length (sockets w))) as [->|Hne]; [reflexivity|].
    rewrite nth_error_app2 in Hs by assumption.
    destruct (s - List.length (sockets w))%nat as [|[|d]] eqn:Hd; cbn in Hs; try discriminate.
    lia.
Qed.

Lemma attached_connect (w : World) : attached_to_current w -> attached_to_current (connect w).
Proof.
  intros Hatt. rewrite connect_eq. apply attached_connect_fresh.
  destruct (ws (this w)) eqn:Hws.
  - now apply close_detaches.
  - intros s sock Hs. destruct (listening sock) eqn:Hl; [|reflexivity].
    pose proof (Hatt s sock Hs Hl). congruence.
Qed.

Lemma sockets_handleDisconnect (code : Z) (reason : string) (w : World) :
  sockets (_handleDisconnect code reason w) = sockets w.
Proof.
  unfold _handleDisconnect, clearInterval, clearTimeout.
  destruct w as [[k o a c lp pt pi rt s] n ts nt ss ev cs un uh]; cbn.
  destruct pi, pt, rt; cbn; destruct (a <? Options.maxReconnectAttempts o); reflexivity.
Qed.

Lemma attached_handleDisconnect (code : Z) (reason : string) (w : World) :
  attached_to_current w -> attached_to_current (_handleDisconnect code reason w).
Proof.
  apply attached_same; [apply sockets_handleDisconnect|].
  apply (handleDisconnect_view code reason w).
Qed.

Lemma attached_set_readyState (s : nat) (r : ReadyState) (w : World) :
  attached_to_current w ->
  attached_to_current (upd_sockets (set_nth s (set_readyState r)) w).
Proof.
  intros Hatt m sock. unfold socket. cbn [sockets upd_sockets this].
  rewrite nth_error_set_nth. destruct (Nat.eqb m s).
  - destruct (nth_error (sockets w) m) as [x|] eqn:Hx; cbn; [|discriminate].
    intros [= <-]. cbn. now apply Hatt.
  - apply Hatt.
Qed.

Lemma on_pong_sockets (v : World) :
  sockets (on_pong v) = sockets v /\ ws (this (on_pong v)) = ws (this v).
Proof.
  destruct v as [[k o a c lp pt pi rt s] n ts nt ss ev cs un uh].
  unfold on_pong, clearTimeout. destruct pt; split; reflexivity.
Qed.

Lemma attached_deliver (s : nat) (e : transport_event) (w w' : World) :
  attached_to_current w -> deliver s e w = Some w' -> attached_to_current w'.
Proof.
  unfold deliver. intros Hatt. destruct (socket s w) as [sock|]; [|discriminate].
  destruct (ready_after e (readyState sock)) as [r|]; [|discriminate].
  intros [= <-]. pose proof (attached_set_readyState s r w Hatt) as H.
  destruct (listening sock); [|destruct e; exact H].
  destruct e as [|[[] txt|msg]| |code reason|msg];
    cbn [handler on_open on_message on_error on_close on_pong];
    try (revert H; apply attached_same; reflexivity).
  - revert H. apply attached_same; apply on_pong_sockets.
  - now apply attached_handleDisconnect.
Qed.

Lemma attached_fire (h : handle) (w w' : World) :
  attached_to_current w -> fire h w = Some w' -> attached_to_current w'.
Proof.
  unfold fire. intros Hatt. destruct (find_timer h w) as [t|]; [|discriminate].
  destruct ((due t <=? now w) && earliest t w); [|discriminate].
  assert (Hcb : forall v, attached_to_current v -> attached_to_current (run_callback (run t) v)).
  { intros v Hv. destruct (run t); cbn [run_callback].
    - revert Hv. apply attached_same.
      + destruct v as [[k o a c lp pt pi rt s] n ts nt ss ev cs un uh].
        unfold ping_tick. cbn. destruct c, s; reflexivity.
      + apply (ping_tick_view v).
    - now apply attached_handleDisconnect.
    - now apply attached_connect. }
  destruct (repeat t); intros [= <-].
  - generalize (Hcb w Hatt). apply attached_same; reflexivity.
  - apply Hcb. revert Hatt. apply attached_same; reflexivity.
Qed.

Lemma attached_exec (es : list event) :
  forall w w', attached_to_current w -> exec w es = Some w' -> attached_to_current w'.
Proof.
  induction es as [|e es IH]; intros w w' Hatt; cbn [exec].
  - now intros [= <-].
  - destruct (step w e) as [w1|] eqn:Hstep; [|discriminate].
    apply IH. destruct e as [| |dt|h|s te|t]; cbn [step] in Hstep.
    + injection Hstep as <-. now apply attached_connect.
    + injection Hstep as <-. now apply attached_close.
    + destruct (0 <=? dt); [|discriminate]. injection Hstep as <-.
      revert Hatt. apply attached_same; reflexivity.
    + now apply (attached_fire h w).
    + now apply (attached_deliver s te w).
    + destruct (0 <? t); [|discriminate]. injection Hstep as <-.
      revert Hatt. apply attached_same; reflexivity.
Qed.

(** After [close()], in any world the client can reach, no socket event
    runs a handler of the client.  An ['open'], ['message'], ['pong'] or
    ['close'] event changes the socket's state and nothing else.  An
    ['error'] event (such as the one [ws] emits when [close()] was called
    on a socket still connecting) finds no listener, and the emitter
    throws it. *)
Lemma close_detaches_transport
      (t0 : Z) (key : string) (o : WebSocketOptions) (es : list event) (w : World)
      (s : nat) (e : transport_event) (w' : World) :
  exec (boot t0 key o) es = Some w ->
  deliver s e (close w) = Some w' ->
  exists r,
    match e with
    | ev_error msg =>
        w' = record_unhandled msg (upd_sockets (set_nth s (set_readyState r)) (close w))
    | _ => w' = upd_sockets (set_nth s (set_readyState r)) (close w)
    end.
Proof.
  intros Hexec Hdeliver.
  assert (Hatt : attached_to_current w).
  { apply (attached_exec es (boot t0 key o) w); [|exact Hexec].
    intros m sock Hm. unfold socket in Hm. cbn in Hm. destruct m; discriminate. }
  unfold deliver in Hdeliver. destruct (socket s (close w)) as [sock|] eqn:Hs; [|discriminate].
  destruct (ready_after e (readyState sock)) as [r|]; [|discriminate].
  rewrite (close_detaches w Hatt s sock Hs) in Hdeliver.
  exists r. injection Hdeliver as <-. destruct e; reflexivity.
Qed.

(** *** Closing *)

Lemma cancel_noop (a : handle) (l : list Timer) :
  (forall t, In t l -> id t <> a) -> cancel a l = l.
Proof.
  intros H. unfold cancel. induction l as [|x l IH]; cbn; [reflexivity|].
  assert (Hx : Nat.eqb (id x) a = false) by (apply Nat.eqb_neq, H; now left).
  rewrite Hx. cbn. f_equal. apply IH. intros t Hin. apply H. now right.
Qed.

Lemma cancel_handle_noop (a : option handle) (l : list Timer) :
  (forall t, In t l -> a <> Some (id t)) -> cancel_handle a l = l.
Proof.
  destruct a as [a|]; cbn; [|reflexivity].
  intros H. apply cancel_noop. intros t Hin Heq. apply (H t Hin). now rewrite Heq.
Qed.

Lemma Client_ext (a b : Client) :
  apiKey a = apiKey b -> options a = options b ->
  reconnectAttempts a = reconnectAttempts b -> isConnected a = isConnected b ->
  lastPing a = lastPing b -> pongTimeout a = pongTimeout b ->
  pingInterval a = pingInterval b -> reconnectTimer a = reconnectTimer b ->
  ws a = ws b -> a = b.
Proof. destruct a, b; cbn; intros; subst; reflexivity. Qed.

Lemma World_ext (a b : World) :
  this a = this b -> now a = now b -> timers a = timers b ->
  next_timer a = next_timer b -> sockets a = sockets b -> events a = events b ->
  calls a = calls b -> uncaught a = uncaught b -> unhandled a = unhandled b ->
  date a = date b -> a = b.
Proof. destruct a, b; cbn; intros; subst; reflexivity. Qed.

Lemma close_fixpoint (v : World) :
  ws (this v) = None -> isConnected (this v) = false ->
  cancel_handle (pingInterval (this v)) (timers v) = timers v ->
  cancel_handle (pongTimeout (this v)) (timers v) = timers v ->
  cancel_handle (reconnectTimer (this v)) (timers v) = timers v ->
  close v = v.
Proof.
  destruct v as [[k o a c lp pt pi rt s] n ts nt ss ev cs un uh].
  cbn [this ws isConnected pingInterval pongTimeout reconnectTimer timers].
  intros -> -> H1 H2 H3.
  unfold close, clearInterval, clearTimeout.
  destruct pi, pt, rt; cbn [cancel_handle] in *;
    (apply World_ext; [apply Client_ext|..]); cbn -[cancel];
    rewrite ?H1, ?H2, ?H3; reflexivity.
Qed.

(** [close()] is idempotent: a second call in succession changes
    nothing. *)
Lemma close_idempotent (w : World) : close (close w) = close w.
Proof.
  destruct (close_view w) as (Ht & _ & _ & Hp & Hi & Hr & Hs & _ & Hc & _).
  assert (Hclear : forall h : option handle,
             (h = pingInterval (this w) \/ h = pongTimeout (this w)
              \/ h = reconnectTimer (this w)) ->
             cancel_handle h (timers (close w)) = timers (close w)).
  { intros h Hh. apply cancel_handle_noop. intros t Hin. rewrite Ht in Hin.
    unfold cleared in Hin. rewrite !In_cancel_handle in Hin.
    destruct Hin as [[[_ H1] H2] H3]. destruct Hh as [->|[->| ->]]; assumption. }
  apply close_fixpoint; try assumption.
  - rewrite Hi. apply Hclear. auto.
  - rewrite Hp. apply Hclear. auto.
  - rewrite Hr. apply Hclear. auto.
Qed.

(** [close()] emits nothing. *)
Lemma close_emits_nothing (w : World) : events (close w) = events w.
Proof. apply (close_view w). Qed.

(** In a world reached with a pong timeout shorter than the ping
    interval, [close()] leaves no timer. *)
Lemma close_cancels_every_timer
      (t0 : Z) (key : string) (o : WebSocketOptions) (es : list event) (w : World) :
  timing_ok (options (new_client key o)) ->
  exec (boot t0 key o) es = Some w ->
  timers (close w) = [].
Proof.
  intros Htiming Hexec. apply timers_close.
  eapply Inv_exec; [apply Inv_boot; exact Htiming|exact Hexec].
Qed.

(** C8 (defect in the code): with a ping every second and five seconds to
    answer, two pings go unanswered and the owner calls [close()], twice.
    [close()] clears the timeout [this.pongTimeout] refers to, the one of
    the second ping; the timeout of the first ping, whose handle the
    second tick overwrote, stays armed.  It expires 3.5 s after the
    client was closed: ['disconnected'] is emitted, a reconnection is
    scheduled, and one second later the closed client opens a new
    socket. *)
Theorem C8_close_leaves_a_pong_timeout_armed :
  let closed := after (two_ticks ++ [Elapse 500; CallClose; CallClose])
                      (boot 0 "key" eager_ping) in
  exec (boot 0 "key" eager_ping) (two_ticks ++ [Elapse 500; CallClose; CallClose])
  = Some closed
  /\ events closed = [connected]
  /\ timers closed = [ {| id := 1%nat; run := PongExpired; due := 6000; repeat := None |} ]
  /\ exists w w',
       exec closed [Elapse 3500; Fire 1%nat] = Some w
       /\ events w = [connected; disconnected "Pong timeout"; reconnecting 1]
       /\ exec w [Elapse 1000; Fire 3%nat] = Some w'
       /\ ws (this w') = Some 1%nat
       /\ socket 1%nat w'
          = Some {| url := DEFAULT_ENDPOINT; readyState := CONNECTING; listening := true |}.
Proof.
  cbv zeta.
  split; [vm_compute; reflexivity|].
  split; [vm_compute; reflexivity|].
  split; [vm_compute; reflexivity|].
  eexists. eexists.
  split; [vm_compute; reflexivity|].
  split; [vm_compute; reflexivity|].
  split; [vm_compute; reflexivity|].
  split; vm_compute; reflexivity.
Qed.

(** *** The attempt counter *)

Lemma attempts_handleDisconnect (code : Z) (reason : string) (w : World) :
  0 <= reconnectAttempts (this w) ->
  0 <= reconnectAttempts (this (_handleDisconnect code reason w)).
Proof.
  intros H.
  destruct (handleDisconnect_view code reason w) as (_ & _ & _ & _ & _ & _ & Hrest).
  cbv zeta in Hrest.
  destruct (reconnectAttempts (this w) <? _); destruct Hrest as (_ & _ & _ & -> & _); lia.
Qed.

Lemma attempts_connect (w : World) :
  reconnectAttempts (this (connect w)) = reconnectAttempts (this w).
Proof.
  rewrite connect_eq.
  destruct (connect_fresh_view (match ws (this w) with Some _ => close w | None => w end))
    as (_ & _ & _ & _ & _ & _ & -> & _).
  destruct (ws (this w)); [apply (close_view w)|reflexivity].
Qed.

Lemma attempts_ping_tick (w : World) :
  reconnectAttempts (this (ping_tick w)) = reconnectAttempts (this w).
Proof.
  destruct w as [[k o a c lp pt pi rt s] n ts nt ss ev cs un uh].
  unfold ping_tick. cbn. destruct c, s; reflexivity.
Qed.

Lemma attempts_on_pong (w : World) :
  reconnectAttempts (this (on_pong w)) = reconnectAttempts (this w).
Proof.
  destruct w as [[k o a c lp pt pi rt s] n ts nt ss ev cs un uh].
  unfold on_pong, clearTimeout. destruct pt; reflexivity.
Qed.

Lemma attempts_step (w : World) (e : event) (w' : World) :
  0 <= reconnectAttempts (this w) -> step w e = Some w' ->
  0 <= reconnectAttempts (this w').
Proof.
  intros H. destruct e as [| |dt|h|s te|d]; cbn [step];
    [| | | | |destruct (0 <? d); [|discriminate]; now intros [= <-]].
  - intros [= <-]. now rewrite attempts_connect.
  - intros [= <-]. destruct (close_view w) as (_ & _ & _ & _ & _ & _ & _ & -> & _). exact H.
  - destruct (0 <=? dt); [|discriminate]. now intros [= <-].
  - unfold fire. destruct (find_timer h w) as [t|]; [|discriminate].
    destruct ((due t <=? now w) && earliest t w); [|discriminate].
    assert (Hcb : forall v, 0 <= reconnectAttempts (this v) ->
                            0 <= reconnectAttempts (this (run_callback (run t) v))).
    { intros v Hv. destruct (run t); cbn [run_callback].
      - now rewrite attempts_ping_tick.
      - now apply attempts_handleDisconnect.
      - unfold reconnect_due. now rewrite attempts_connect. }
    destruct (repeat t); intros [= <-]; cbn [upd_timers this]; now apply Hcb.
  - unfold deliver. destruct (socket s w) as [sock|]; [|discriminate].
    destruct (ready_after te (readyState sock)) as [r|]; [|discriminate].
    intros [= <-]. destruct (listening sock); [|destruct te; exact H].
    destruct te as [|[[] txt|msg]| |code reason|msg];
      cbn [handler on_open on_message on_error on_close]; try exact H.
    + cbn. lia.
    + now rewrite attempts_on_pong.
    + now apply attempts_handleDisconnect.
Qed.

(** [reconnectAttempts] is never negative, so the exponent of the backoff
    delay, [reconnectAttempts - 1] after the increment, is a natural
    number. *)
Lemma reconnectAttempts_nonneg
      (t0 : Z) (key : string) (o : WebSocketOptions) (es : list event) (w : World) :
  exec (boot t0 key o) es = Some w -> 0 <= reconnectAttempts (this w).
Proof.
  assert (H : forall v w', 0 <= reconnectAttempts (this v) -> exec v es = Some w' ->
                           0 <= reconnectAttempts (this w')).
  { induction es as [|e es IH]; intros v w' Hv; cbn [exec].
    - now intros [= <-].
    - destruct (step v e) as [v1|] eqn:Hstep; [|discriminate].
      apply IH. now apply (attempts_step v e). }
  apply H. cbn. lia.
Qed.

(** *** The reconnection budget, for any options *)

Lemma max_reconnect_errors_handleDisconnect (code : Z) (reason : string) (w : World) :
  max_reconnect_errors (_handleDisconnect code reason w)
  = (max_reconnect_errors w
     + if (reconnectAttempts (this w) <? Options.maxReconnectAttempts (options (this w)))%Z
       then 0 else 1)%nat.
Proof.
  unfold max_reconnect_errors. rewrite events_handleDisconnect.
  rewrite filter_app, length_app. unfold announcement.
  destruct (reconnectAttempts (this w) <? _); reflexivity.
Qed.

(** [_handleDisconnect] on a client whose only timer is its ping
    interval. *)
Lemma handleDisconnect_budget (code : Z) (reason : string) (w : World) (t : Timer) :
  timers w = [t] -> pingInterval (this w) = Some (id t) ->
  max_reconnect_errors w = 0%nat ->
  let w' := _handleDisconnect code reason w in
  options (this w') = options (this w) /\ now w' = now w
  /\ if reconnectAttempts (this w) <? Options.maxReconnectAttempts (options (this w))
     then Waiting (reconnectAttempts (this w) + 1) w'
     else Exhausted w'.
Proof.
  intros Ht Hi Hsilent. cbv zeta.
  destruct (handleDisconnect_view code reason w) as (Ho & _ & _ & _ & _ & Hnow & Hrest).
  cbv zeta in Hrest.
  assert (Hc : cleared w = []).
  { assert (Hgone : cancel (id t) [t] = [])
      by (unfold cancel; cbn [filter]; now rewrite Nat.eqb_refl).
    unfold cleared. rewrite Ht, Hi. cbn [cancel_handle]. rewrite Hgone.
    destruct (pongTimeout (this w)), (reconnectTimer (this w)); reflexivity. }
  rewrite Hc in Hrest.
  pose proof (max_reconnect_errors_handleDisconnect code reason w) as Herr.
  split; [exact Ho|]. split; [exact Hnow|].
  destruct (reconnectAttempts (this w) <? _).
  - destruct Hrest as (Hts & _ & Hr & Ha & _). split.
    + exact Ha.
    + rewrite Herr, Hsilent. reflexivity.
    + exists (reconnect_timer w). rewrite Hts, Hr, Ho, Hnow. repeat split.
  - destruct Hrest as (Hts & _). split; [rewrite Herr, Hsilent; reflexivity|exact Hts].
Qed.

(** A reconnection made when its delay has elapsed, and failing with a
    close, comes back to [_handleDisconnect] with the counter it left. *)
Lemma reconnection_fails_budget (code : Z) (reason : string) (k : Z) (w : World) :
  Waiting k w ->
  exists w',
    reconnection_fails code reason w = Some w'
    /\ options (this w') = options (this w)
    /\ if k <? Options.maxReconnectAttempts (options (this w))
       then Waiting (k + 1) w'
       else Exhausted w'.
Proof.
  intros [Ha Hsilent (r & Hts & Hrun & Hrep & Hh & Hdue)].
  unfold reconnection_fails. rewrite Hh.
  assert (Hfind : find_timer (id r) w = Some r)
    by (unfold find_timer; rewrite Hts; cbn [find]; now rewrite Nat.eqb_refl).
  rewrite Hfind.
  assert (Hwait : 0 <= due r - now w).
  { rewrite Hdue. unfold timer_delay.
    destruct ((1 <=? _) && (_ <=? 2147483647)) eqn:E; [|lia].
    apply andb_true_iff in E. lia. }
  cbn [exec step]. replace (0 <=? due r - now w) with true by lia.
  set (w0 := advance (due r - now w) w).
  assert (Hfire : fire (id r) w0 = Some (connect (upd_timers (cancel (id r)) w0))).
  { unfold fire. change (find_timer (id r) w0) with (find_timer (id r) w). rewrite Hfind.
    unfold earliest. change (timers w0) with (timers w). rewrite Hts. cbn [forallb].
    change (now w0) with (now w + (due r - now w)).
    replace (due r <=? now w + (due r - now w)) with true by lia.
    replace (due r <=? due r) with true by lia.
    cbn [andb]. rewrite Hrep, Hrun. reflexivity. }
  rewrite Hfire.
  set (w1 := upd_timers (cancel (id r)) w0).
  assert (Hw1 : timers w1 = []).
  { unfold w1. cbn [upd_timers timers]. change (timers w0) with (timers w). rewrite Hts.
    unfold cancel. cbn [filter]. now rewrite Nat.eqb_refl. }
  rewrite connect_eq.
  set (w2 := match ws (this w1) with Some _ => close w1 | None => w1 end).
  assert (Hw2 : timers w2 = [] /\ options (this w2) = options (this w)
                /\ reconnectAttempts (this w2) = k /\ events w2 = events w).
  { unfold w2. destruct (ws (this w1)).
    - destruct (close_view w1) as (Ht & _ & Ho & _ & _ & _ & _ & Hat & _ & He & _).
      rewrite Ht, Ho, Hat, He. unfold cleared. rewrite Hw1.
      split; [|repeat split; assumption].
      destruct (reconnectTimer (this w1)), (pongTimeout (this w1)), (pingInterval (this w1));
        reflexivity.
    - repeat split; assumption. }
  destruct Hw2 as (Ht2 & Ho2 & Ha2 & He2).
  destruct (connect_fresh_view w2) as (Ht3 & _ & Ho3 & _ & Hi3 & Hs3 & Ha3 & _ & _ & He3 & _).
  rewrite Hs3. cbn [step]. unfold deliver. rewrite socket_connect_fresh.
  cbn [readyState ready_after listening handler]. unfold on_close.
  set (w3 := upd_sockets (set_nth (List.length (sockets w2)) (set_readyState CLOSED))
               (connect_fresh w2)).
  eexists. split; [reflexivity|].
  destruct (handleDisconnect_budget code reason w3 (ping_timer w2)) as (Ho4 & _ & Hcase).
  - unfold w3. cbn [upd_sockets timers]. rewrite Ht3, Ht2. reflexivity.
  - unfold w3. cbn [upd_sockets this]. rewrite Hi3. reflexivity.
  - unfold max_reconnect_errors, w3. cbn [upd_sockets events]. rewrite He3, He2. exact Hsilent.
  - split.
    + rewrite Ho4. unfold w3. cbn [upd_sockets this]. now rewrite Ho3.
    + change (reconnectAttempts (this w3)) with (reconnectAttempts (this (connect_fresh w2)))
        in Hcase.
      change (options (this w3)) with (options (this (connect_fresh w2))) in Hcase.
      rewrite Ha3, Ho3, Ha2, Ho2 in Hcase. exact Hcase.
Qed.

Lemma reconnections_fail_budget (code : Z) (reason : string) (w : World) :
  Waiting 1 w ->
  let n := Options.maxReconnectAttempts (options (this w)) in
  forall k : nat,
    Z.of_nat k < n ->
    (exists w', reconnections_fail k code reason w = Some w'
                /\ options (this w') = options (this w)
                /\ Waiting (Z.of_nat k + 1) w')
    /\ (Z.of_nat k + 1 = n ->
        exists w', reconnections_fail (S k) code reason w = Some w' /\ Exhausted w').
Proof.
  intros Hw n k.
  assert (Hk : Z.of_nat k < n ->
               exists w', reconnections_fail k code reason w = Some w'
                          /\ options (this w') = options (this w)
                          /\ Waiting (Z.of_nat k + 1) w').
  { induction k as [|k IH]; intros Hlt.
    - exists w. split; [reflexivity|]. split; [reflexivity|exact Hw].
    - destruct IH as (w1 & Hrun & Ho & Hw1); [lia|].
      destruct (reconnection_fails_budget code reason _ w1 Hw1) as (w2 & Hstep & Ho2 & Hcase).
      rewrite Ho in Hcase. fold n in Hcase.
      replace (Z.of_nat k + 1 <? n) with true in Hcase by lia.
      exists w2. cbn [reconnections_fail]. rewrite Hrun.
      split; [exact Hstep|]. split; [congruence|].
      replace (Z.of_nat (S k) + 1) with (Z.of_nat k + 1 + 1) by lia. exact Hcase. }
  intros Hlt. split; [now apply Hk|].
  intros Hlast. destruct (Hk Hlt) as (w1 & Hrun & Ho & Hw1).
  destruct (reconnection_fails_budget code reason _ w1 Hw1) as (w2 & Hstep & _ & Hcase).
  rewrite Ho in Hcase. fold n in Hcase.
  replace (Z.of_nat k + 1 <? n) with false in Hcase by lia.
  exists w2. cbn [reconnections_fail]. rewrite Hrun. split; assumption.
Qed.

(** The connection is lost for the first time. *)
Lemma connection_lost
      (t0 : Z) (key : string) (o : WebSocketOptions) (code : Z) (reason : string) :
  1 <= Options.maxReconnectAttempts (options (new_client key o)) ->
  exists lost,
    exec (boot t0 key o) (connected_session ++ [Transport 0%nat (ev_close code reason)])
    = Some lost
    /\ Waiting 1 lost
    /\ options (this lost) = options (new_client key o)
    /\ events lost = [connected; disconnected reason; reconnecting 1].
Proof.
  intros Hn.
  pose (opened := on_open (upd_sockets (set_nth 0 (set_readyState OPEN))
                             (connect (boot t0 key o)))).
  pose (v := upd_sockets (set_nth 0 (set_readyState CLOSED)) opened).
  exists (_handleDisconnect code reason v).
  assert (Hlost : Waiting 1 (_handleDisconnect code reason v)
                  /\ options (this (_handleDisconnect code reason v))
                     = options (new_client key o)).
  { pose proof (handleDisconnect_budget code reason v (ping_timer (boot t0 key o))
                  eq_refl eq_refl eq_refl) as H.
    cbv zeta in H. destruct H as (Ho & _ & Hcase).
    change (reconnectAttempts (this v)) with 0 in Hcase.
    change (Options.maxReconnectAttempts (options (this v)))
      with (Options.maxReconnectAttempts (options (new_client key o))) in Hcase.
    replace (0 <? Options.maxReconnectAttempts (options (new_client key o)))
      with true in Hcase by lia.
    split; [exact Hcase|exact Ho]. }
  destruct Hlost as [Hlost Ho].
  split.
  { unfold connected_session. cbn [app exec step].
    assert (Hopen : deliver 0 ev_open (connect (boot t0 key o)) = Some opened).
    { unfold deliver.
      assert (Hs : socket 0 (connect (boot t0 key o))
                   = Some {| url := Options.endpoint (options (new_client key o));
                             readyState := CONNECTING; listening := true |})
        by reflexivity.
      rewrite Hs. reflexivity. }
    rewrite Hopen. unfold deliver.
    assert (Hs : socket 0 opened
                 = Some {| url := Options.endpoint (options (new_client key o));
                           readyState := OPEN; listening := true |})
      by reflexivity.
    rewrite Hs. reflexivity. }
  split; [exact Hlost|]. split; [exact Ho|].
  rewrite events_handleDisconnect. unfold announcement.
  change (reconnectAttempts (this v)) with 0.
  change (Options.maxReconnectAttempts (options (this v)))
    with (Options.maxReconnectAttempts (options (new_client key o))).
  replace (0 <? Options.maxReconnectAttempts (options (new_client key o))) with true by lia.
  reflexivity.
Qed.

(** The reconnection budget: a client with [maxReconnectAttempts = n >= 1]
    that opens and then loses its connection makes [n] reconnections,
    the [k]-th one [reconnectDelay * 2 ^ (k - 1)] after the previous close;
    as long as fewer than [n] have failed, no terminal error has been
    emitted and the next reconnection is scheduled; when the [n]-th fails,
    at close event [n + 1], the terminal error is emitted, once, and no
    timer is left. *)
Theorem reconnect_budget
        (t0 : Z) (key : string) (o : WebSocketOptions) (code : Z) (reason : string) :
  let n := Options.maxReconnectAttempts (options (new_client key o)) in
  1 <= n ->
  exists lost,
    exec (boot t0 key o) (connected_session ++ [Transport 0 (ev_close code reason)])
    = Some lost
    /\ (forall k : nat,
           Z.of_nat k < n ->
           exists w, reconnections_fail k code reason lost = Some w
                     /\ Waiting (Z.of_nat k + 1) w)
    /\ exists w, reconnections_fail (Z.to_nat n) code reason lost = Some w /\ Exhausted w.
Proof.
  intros n Hn.
  destruct (connection_lost t0 key o code reason Hn) as (lost & Hexec & Hlost & Ho & _).
  exists lost. split; [exact Hexec|].
  pose proof (reconnections_fail_budget code reason _ Hlost) as Hbudget.
  cbv zeta in Hbudget. rewrite Ho in Hbudget. fold n in Hbudget.
  split.
  - intros k Hk. destruct (Hbudget k Hk) as [(w & Hrun & _ & Hw) _].
    exists w. split; assumption.
  - destruct (Hbudget (Z.to_nat (n - 1)) ltac:(lia)) as [_ Hlast].
    replace (Z.to_nat n) with (S (Z.to_nat (n - 1))) by lia.
    apply Hlast. lia.
Qed.

(** ** Sessions: what every reachable world satisfies *)

Import SessionProperties.

(** *** How events decompose *)

Lemma fire_cases (h : handle) (w w' : World) :
  fire h w = Some w' ->
  exists t,
    find_timer h w = Some t /\ due t <= now w
    /\ ((repeat t = None /\ w' = run_callback (run t) (upd_timers (cancel h) w))
        \/ (exists period,
               repeat t = Some period
               /\ w' = upd_timers (rearm h (now (run_callback (run t) w) + period))
                         (run_callback (run t) w))).
Proof.
  unfold fire. destruct (find_timer h w) as [t|]; [|discriminate].
  destruct ((due t <=? now w) && earliest t w) eqn:E; [|discriminate].
  apply andb_true_iff in E. destruct E as [Hdue _].
  intros H. exists t. split; [reflexivity|]. split; [lia|].
  destruct (repeat t) as [period|]; injection H as <-.
  - right. exists period. split; reflexivity.
  - left. split; reflexivity.
Qed.

Lemma deliver_cases (s : nat) (e : transport_event) (w w' : World) :
  deliver s e w = Some w' ->
  exists sock r,
    socket s w = Some sock /\ ready_after e (readyState sock) = Some r
    /\ w' = if listening sock
            then handler e (upd_sockets (set_nth s (set_readyState r)) w)
            else unheard e (upd_sockets (set_nth s (set_readyState r)) w).
Proof.
  unfold deliver. destruct (socket s w) as [sock|]; [|discriminate].
  destruct (ready_after e (readyState sock)) as [r|] eqn:Hr; [|discriminate].
  intros [= <-]. exists sock, r. repeat split. exact Hr.
Qed.

(** Induction over the runs of a client, event by event. *)
Lemma exec_ind (P : World -> Prop) :
  (forall w, P w -> P (connect w)) ->
  (forall w, P w -> P (close w)) ->
  (forall dt w, 0 <= dt -> P w -> P (advance dt w)) ->
  (forall h w w', P w -> fire h w = Some w' -> P w') ->
  (forall s e w w', P w -> deliver s e w = Some w' -> P w') ->
  (forall t w, 0 < t -> P w -> P (set_date t w)) ->
  forall es w w', P w -> exec w es = Some w' -> P w'.
Proof.
  intros Hconnect Hclose Hadvance Hfire Hdeliver Hdate.
  induction es as [|e es IH]; intros w w' Hw; cbn [exec].
  - now intros [= <-].
  - destruct (step w e) as [w1|] eqn:Hstep; [|discriminate].
    apply IH. destruct e as [| |dt|h|s te|t]; cbn [step] in Hstep.
    + injection Hstep as <-. auto.
    + injection Hstep as <-. auto.
    + destruct (0 <=? dt) eqn:Hdt; [|discriminate]. injection Hstep as <-.
      apply Hadvance; [lia|assumption].
    + eauto.
    + eauto.
    + destruct (0 <? t) eqn:Ht; [|discriminate]. injection Hstep as <-.
      apply Hdate; [lia|assumption].
Qed.

(** Induction over the runs in which the system clock is not set
    back. *)
Lemma steady_ind (P : World -> Prop) :
  (forall w, P w -> P (connect w)) ->
  (forall w, P w -> P (close w)) ->
  (forall dt w, 0 <= dt -> P w -> P (advance dt w)) ->
  (forall h w w', P w -> fire h w = Some w' -> P w') ->
  (forall s e w w', P w -> deliver s e w = Some w' -> P w') ->
  (forall t w, date w <= t -> P w -> P (set_date t w)) ->
  forall es w w', steady w es = true -> P w -> exec w es = Some w' -> P w'.
Proof.
  intros Hconnect Hclose Hadvance Hfire Hdeliver Hdate.
  induction es as [|e es IH]; intros w w' Hsteady Hw; cbn [exec].
  - now intros [= <-].
  - cbn [steady] in Hsteady. apply andb_true_iff in Hsteady.
    destruct Hsteady as [Hforward Hrest].
    destruct (step w e) as [w1|] eqn:Hstep; [|discriminate].
    apply IH; [exact Hrest|].
    destruct e as [| |dt|h|s te|t]; cbn [step] in Hstep.
    + injection Hstep as <-. auto.
    + injection Hstep as <-. auto.
    + destruct (0 <=? dt) eqn:Hdt; [|discriminate]. injection Hstep as <-.
      apply Hadvance; [lia|assumption].
    + eauto.
    + eauto.
    + destruct (0 <? t); [|discriminate]. injection Hstep as <-.
      apply Hdate; [lia|assumption].
Qed.

(** What the methods keep, the timers and the sockets keep. *)
Lemma methods_cases (P : World -> Prop) :
  (forall f w, P w -> P (upd_timers f w)) ->
  (forall f w, P w -> P (upd_sockets f w)) ->
  (forall msg w, P w -> P (record_unhandled msg w)) ->
  (forall w, P w -> P (connect w)) ->
  (forall code reason w, P w -> P (_handleDisconnect code reason w)) ->
  (forall w, P w -> P (ping_tick w)) ->
  (forall e w, P w -> P (handler e w)) ->
  (forall h w w', P w -> fire h w = Some w' -> P w')
  /\ (forall s e w w', P w -> deliver s e w = Some w' -> P w').
Proof.
  intros Htimers Hsockets Hunhandled Hconnect Hdisc Htick Hhandler. split.
  - intros h w w' Hw Hfire. apply fire_cases in Hfire.
    destruct Hfire as (t & _ & _ & [[_ ->]|(period & _ & ->)]).
    + destruct (run t); cbn [run_callback]; unfold pong_expired, reconnect_due; auto.
    + apply Htimers. destruct (run t); cbn [run_callback]; unfold pong_expired, reconnect_due; auto.
  - intros s e w w' Hw Hdel. apply deliver_cases in Hdel.
    destruct Hdel as (sock & r & _ & _ & ->).
    destruct (listening sock); [auto|]. destruct e; cbn [unheard]; auto.
Qed.

(** Induction over the runs of a client, method by method, for a
    property that reads neither the timers nor the sockets. *)
Lemma methods_ind (P : World -> Prop) :
  (forall f w, P w -> P (upd_timers f w)) ->
  (forall f w, P w -> P (upd_sockets f w)) ->
  (forall msg w, P w -> P (record_unhandled msg w)) ->
  (forall dt w, 0 <= dt -> P w -> P (advance dt w)) ->
  (forall t w, 0 < t -> P w -> P (set_date t w)) ->
  (forall w, P w -> P (connect w)) ->
  (forall w, P w -> P (close w)) ->
  (forall code reason w, P w -> P (_handleDisconnect code reason w)) ->
  (forall w, P w -> P (ping_tick w)) ->
  (forall e w, P w -> P (handler e w)) ->
  forall es w w', P w -> exec w es = Some w' -> P w'.
Proof.
  intros Htimers Hsockets Hunhandled Hadvance Hdate Hconnect Hclose Hdisc Htick Hhandler.
  destruct (methods_cases P Htimers Hsockets Hunhandled Hconnect Hdisc Htick Hhandler)
    as [Hfire Hdeliver].
  apply exec_ind; auto.
Qed.

(** *** The fields the earlier views leave out *)

Lemma close_frame (w : World) :
  lastPing (this (close w)) = lastPing (this w)
  /\ uncaught (close w) = uncaught w
  /\ filter is_ping (calls (close w)) = filter is_ping (calls w).
Proof.
  unfold close, clearInterval, clearTimeout.
  destruct w as [[k o a c lp pt pi rt s] n ts nt ss ev cs un uh]; cbn.
  destruct pi, pt, rt, s as [s|]; cbn; try (repeat split; reflexivity);
    unfold socket; cbn;
    destruct (nth_error (set_nth s (set_listening false) ss) s) as [[u [] l]|];
    cbn; rewrite ?filter_app; cbn; rewrite ?app_nil_r; repeat split; reflexivity.
Qed.

Lemma connect_fresh_frame (w : World) :
  lastPing (this (connect_fresh w)) = lastPing (this w)
  /\ uncaught (connect_fresh w) = uncaught w
  /\ calls (connect_fresh w) = calls w.
Proof.
  destruct w as [[k o a c lp pt pi rt s] n ts nt ss ev cs un uh].
  repeat split; reflexivity.
Qed.

Lemma handleDisconnect_frame (code : Z) (reason : string) (w : World) :
  lastPing (this (_handleDisconnect code reason w)) = lastPing (this w)
  /\ uncaught (_handleDisconnect code reason w) = uncaught w
  /\ calls (_handleDisconnect code reason w) = calls w.
Proof.
  unfold _handleDisconnect, clearInterval, clearTimeout.
  destruct w as [[k o a c lp pt pi rt s] n ts nt ss ev cs un uh]; cbn.
  destruct pi, pt, rt; cbn; destruct (a <? Options.maxReconnectAttempts o); cbn;
    repeat split; reflexivity.
Qed.

Lemma connect_frame (w : World) :
  lastPing (this (connect w)) = lastPing (this w)
  /\ uncaught (connect w) = uncaught w
  /\ filter is_ping (calls (connect w)) = filter is_ping (calls w).
Proof.
  rewrite connect_eq.
  destruct (connect_fresh_frame (match ws (this w) with Some _ => close w | None => w end))
    as (-> & -> & ->).
  destruct (ws (this w)); [apply close_frame|repeat split; reflexivity].
Qed.

Lemma ping_tick_frame (w : World) :
  sockets (ping_tick w) = sockets w
  /\ isConnected (this (ping_tick w)) = isConnected (this w)
  /\ reconnectAttempts (this (ping_tick w)) = reconnectAttempts (this w)
  /\ match isConnected (this w), ws (this w) with
     | true, Some s =>
         lastPing (this (ping_tick w)) = Some (date w) /\ uncaught (ping_tick w) = uncaught w
     | true, None =>
         lastPing (this (ping_tick w)) = Some (date w)
         /\ uncaught (ping_tick w) = (uncaught w ++ [cannot_read "null" "ping"])%list
     | false, _ =>
         lastPing (this (ping_tick w)) = lastPing (this w)
         /\ uncaught (ping_tick w) = uncaught w
     end.
Proof.
  destruct w as [[k o a c lp pt pi rt s] n ts nt ss ev cs un uh].
  unfold ping_tick. cbn. destruct c, s; cbn; repeat split; reflexivity.
Qed.

Lemma on_pong_view (w : World) :
  this (on_pong w) = this w /\ date (on_pong w) = date w
  /\ sockets (on_pong w) = sockets w /\ uncaught (on_pong w) = uncaught w
  /\ calls (on_pong w) = calls w
  /\ events (on_pong w)
     = (events w ++ [pong (date w - match lastPing (this w) with
                                   | Some t => t
                                   | None => 0
                                   end)])%list.
Proof.
  destruct w as [[k o a c lp pt pi rt s] n ts nt ss ev cs un uh].
  unfold on_pong, clearTimeout. destruct pt; repeat split; reflexivity.
Qed.

(** *** Sockets and handlers *)

Lemma Sound_same (w w' : World) :
  sockets w' = sockets w -> ws (this w') = ws (this w) ->
  isConnected (this w') = isConnected (this w) -> uncaught w' = uncaught w ->
  Sound w -> Sound w'.
Proof.
  intros Hs Hws Hc Hu [S1 S2 S3 S4].
  split; unfold attached_to_current, current_is_attached, connected_is_open, socket in *;
    rewrite ?Hs, ?Hws, ?Hc, ?Hu; assumption.
Qed.

Lemma Sound_disconnected (w w' : World) :
  sockets w' = sockets w -> ws (this w') = ws (this w) ->
  isConnected (this w') = false -> uncaught w' = uncaught w ->
  Sound w -> Sound w'.
Proof.
  intros Hs Hws Hc Hu [S1 S2 S3 S4].
  split; unfold attached_to_current, current_is_attached, connected_is_open, socket in *;
    rewrite ?Hs, ?Hws, ?Hc, ?Hu; try assumption.
  discriminate.
Qed.

Lemma Sound_close (w : World) : Sound w -> Sound (close w).
Proof.
  intros [S1 S2 S3 S4].
  destruct (close_view w) as (_ & _ & _ & _ & _ & _ & Hws & _ & Hc & _).
  destruct (close_frame w) as (_ & Hu & _).
  split.
  - now apply attached_close.
  - intros s. rewrite Hws. discriminate.
  - intros H. rewrite Hc in H. discriminate.
  - now rewrite Hu.
Qed.

Lemma Sound_handleDisconnect (code : Z) (reason : string) (w : World) :
  Sound w -> Sound (_handleDisconnect code reason w).
Proof.
  destruct (handleDisconnect_view code reason w) as (_ & _ & _ & Hws & Hc & _).
  destruct (handleDisconnect_frame code reason w) as (_ & Hu & _).
  apply Sound_disconnected; auto. apply sockets_handleDisconnect.
Qed.

Lemma Sound_connect (w : World) : Sound w -> Sound (connect w).
Proof.
  intros S. rewrite connect_eq.
  set (w0 := match ws (this w) with Some _ => close w | None => w end).
  assert (S0 : Sound w0) by (unfold w0; destruct (ws (this w)); [now apply Sound_close|exact S]).
  assert (Hidle : ws (this w0) = None).
  { unfold w0. destruct (ws (this w)) eqn:E; [apply (close_view w)|exact E]. }
  destruct S0 as [S1 S2 S3 S4].
  destruct (connect_fresh_view w0) as (_ & _ & _ & _ & _ & Hws & _ & _ & Hc & _).
  destruct (connect_fresh_frame w0) as (_ & Hu & _).
  split.
  - apply attached_connect_fresh. intros s sock Hs.
    destruct (listening sock) eqn:Hl; [|reflexivity].
    pose proof (S1 s sock Hs Hl). congruence.
  - intros s. rewrite Hws. intros [= <-]. rewrite socket_connect_fresh. eauto.
  - unfold connected_is_open. rewrite Hc. intros H.
    destruct (S3 H) as (s & _ & Hs & _). congruence.
  - now rewrite Hu.
Qed.

Lemma socket_set_readyState (s m : nat) (r : ReadyState) (w : World) :
  socket m (upd_sockets (set_nth s (set_readyState r)) w)
  = if Nat.eqb m s then option_map (set_readyState r) (socket m w) else socket m w.
Proof. unfold socket. cbn [sockets upd_sockets]. apply nth_error_set_nth. Qed.

Lemma Sound_deliver (s : nat) (e : transport_event) (w w' : World) :
  Sound w -> deliver s e w = Some w' -> Sound w'.
Proof.
  intros S Hdel. apply deliver_cases in Hdel.
  destruct Hdel as (sock & r & Hsock & Hready & ->).
  set (w1 := upd_sockets (set_nth s (set_readyState r)) w).
  assert (Hatt1 : attached_to_current w1)
    by (apply attached_set_readyState, S).
  assert (Hcur1 : current_is_attached w1).
  { intros m Hm. change (this w1) with (this w) in Hm.
    destruct (sound_current w S m Hm) as (x & Hx & Hl).
    unfold w1. rewrite socket_set_readyState. rewrite Hx.
    destruct (Nat.eqb m s); cbn; eauto. }
  assert (Hself : socket s w1 = Some (set_readyState r sock)).
  { unfold w1. rewrite socket_set_readyState, Nat.eqb_refl, Hsock. reflexivity. }
  destruct (listening sock) eqn:Hl.
  - (* the current socket *)
    pose proof (sound_attached w S s sock Hsock Hl) as Hws.
    assert (Hkeep : (readyState sock = OPEN \/ readyState sock = CLOSING) ->
                    r = readyState sock -> connected_is_open w1).
    { intros Hst -> _. exists s, (set_readyState (readyState sock) sock).
      split; [exact Hws|]. split; [exact Hself|exact Hst]. }
    destruct e as [|f| |code reason|msg]; cbn [handler].
    + (* open *)
      assert (r = OPEN) by (destruct (readyState sock); cbn in Hready; congruence).
      subst r. split; try assumption.
      * intros _. exists s, (set_readyState OPEN sock).
        split; [exact Hws|]. split; [exact Hself|now left].
      * apply S.
    + (* message *)
      assert (Hr : r = readyState sock /\ (r = OPEN \/ r = CLOSING)).
      { destruct (readyState sock); cbn in Hready; try discriminate;
          injection Hready as <-; auto. }
      destruct Hr as [-> Hst].
      assert (S1 : Sound w1).
      { split; try assumption; [|apply S]. intros _. exists s, (set_readyState (readyState sock) sock).
        split; [exact Hws|]. split; [exact Hself|exact Hst]. }
      revert S1. apply Sound_same; destruct f as [[] txt|err]; reflexivity.
    + (* pong *)
      assert (Hr : r = readyState sock /\ (r = OPEN \/ r = CLOSING)).
      { destruct (readyState sock); cbn in Hready; try discriminate;
          injection Hready as <-; auto. }
      destruct Hr as [-> Hst].
      assert (S1 : Sound w1).
      { split; try assumption; [|apply S]. intros _. exists s, (set_readyState (readyState sock) sock).
        split; [exact Hws|]. split; [exact Hself|exact Hst]. }
      destruct (on_pong_view w1) as (Ht & _ & Hs & Hu & _).
      revert S1. apply Sound_same; try assumption; now rewrite Ht.
    + (* close *)
      unfold on_close.
      destruct (handleDisconnect_view code reason w1) as (_ & _ & _ & Hws' & Hc & _).
      destruct (handleDisconnect_frame code reason w1) as (_ & Hu & _).
      split.
      * now apply attached_handleDisconnect.
      * intros m. rewrite Hws'. intros Hm. unfold socket.
        rewrite sockets_handleDisconnect. now apply Hcur1.
      * unfold connected_is_open. rewrite Hc. discriminate.
      * rewrite Hu. apply S.
    + (* error *)
      assert (r = CLOSING) by (destruct (readyState sock); cbn in Hready; congruence).
      subst r.
      assert (S1 : Sound w1).
      { split; try assumption; [|apply S]. intros _. exists s, (set_readyState CLOSING sock).
        split; [exact Hws|]. split; [exact Hself|now right]. }
      revert S1. apply Sound_same; reflexivity.
  - (* a socket the client has abandoned *)
    assert (S1 : Sound w1).
    { split; try assumption; [|apply S].
      intros Hc. destruct (sound_connected w S Hc) as (m & x & Hm & Hx & Hst).
      exists m, x. split; [exact Hm|]. split; [|exact Hst].
      unfold w1. rewrite socket_set_readyState.
      destruct (Nat.eqb_spec m s) as [->|Hne]; [|exact Hx].
      destruct (sound_current w S s Hm) as (y & Hy & Hly). congruence. }
    revert S1. apply Sound_same; destruct e; reflexivity.
Qed.

Lemma Sound_timers (f : list Timer -> list Timer) (w : World) :
  Sound w -> Sound (upd_timers f w).
Proof. apply Sound_same; reflexivity. Qed.

Lemma Sound_ping_tick (w : World) : Sound w -> Sound (ping_tick w).
Proof.
  intros S.
  destruct (ping_tick_view w) as (_ & _ & _ & Hws & _).
  destruct (ping_tick_frame w) as (Hs & Hc & _ & Hcase).
  assert (Hu : uncaught (ping_tick w) = uncaught w).
  { destruct (isConnected (this w)) eqn:Hconn; [|apply Hcase].
    destruct (ws (this w)) eqn:E; [apply Hcase|].
    destruct (sound_connected w S Hconn) as (s & _ & Hs' & _). congruence. }
  revert S. apply Sound_same; assumption.
Qed.

Lemma Sound_fire (h : handle) (w w' : World) : Sound w -> fire h w = Some w' -> Sound w'.
Proof.
  intros S Hfire. apply fire_cases in Hfire.
  assert (Hcb : forall cb v, Sound v -> Sound (run_callback cb v)).
  { intros [] v Sv; cbn [run_callback].
    - now apply Sound_ping_tick.
    - now apply Sound_handleDisconnect.
    - now apply Sound_connect. }
  destruct Hfire as (t & _ & _ & [[_ ->]|(period & _ & ->)]).
  - apply Hcb. now apply Sound_timers.
  - apply Sound_timers. now apply Hcb.
Qed.

Lemma Sound_boot (t0 : Z) (key : string) (o : WebSocketOptions) : Sound (boot t0 key o).
Proof.
  split.
  - intros s sock Hs. unfold socket in Hs. cbn in Hs. destruct s; discriminate.
  - intros s Hs. discriminate.
  - intros H. discriminate.
  - reflexivity.
Qed.

Lemma Sound_exec (es : list event) :
  forall w w', Sound w -> exec w es = Some w' -> Sound w'.
Proof.
  apply exec_ind.
  - apply Sound_connect.
  - apply Sound_close.
  - intros dt w _. apply Sound_same; reflexivity.
  - intros h w w'. apply Sound_fire.
  - intros s e w w'. apply Sound_deliver.
  - intros t w _. apply Sound_same; reflexivity.
Qed.

(** *** The attempt counter and the budget *)

Lemma Budgeted_same (o : Options.t) (w w' : World) :
  options (this w') = options (this w) ->
  reconnectAttempts (this w') = reconnectAttempts (this w) ->
  events w' = events w ->
  Budgeted o w -> Budgeted o w'.
Proof. intros Ho Ha He [B1 B2 B3]. split; rewrite ?Ho, ?Ha, ?He; assumption. Qed.

Lemma Budgeted_handleDisconnect (o : Options.t) (code : Z) (reason : string) (w : World) :
  Budgeted o w -> Budgeted o (_handleDisconnect code reason w).
Proof.
  intros [B1 B2 B3].
  destruct (handleDisconnect_view code reason w) as (Ho & _ & _ & _ & _ & _ & Hrest).
  cbv zeta in Hrest. rewrite B1 in Hrest.
  destruct (reconnectAttempts (this w) <? Options.maxReconnectAttempts o) eqn:Hlt;
    destruct Hrest as (_ & _ & _ & Ha & He); split; rewrite ?Ho, ?Ha, ?He; try assumption.
  - apply Z.ltb_lt in Hlt. lia.
  - apply Z.ltb_lt in Hlt. apply Forall_app. split; [assumption|].
    constructor; [exact I|]. constructor; [|constructor]. cbn. lia.
  - apply Forall_app. split; [assumption|]. repeat constructor.
Qed.

Lemma events_connect (w : World) : events (connect w) = events w.
Proof.
  rewrite connect_eq.
  destruct (connect_fresh_view (match ws (this w) with Some _ => close w | None => w end))
    as (_ & _ & _ & _ & _ & _ & _ & _ & _ & -> & _).
  destruct (ws (this w)); [apply (close_view w)|reflexivity].
Qed.

Lemma options_connect (w : World) : options (this (connect w)) = options (this w).
Proof.
  rewrite connect_eq.
  destruct (connect_fresh_view (match ws (this w) with Some _ => close w | None => w end))
    as (_ & _ & -> & _).
  destruct (ws (this w)); [apply (close_view w)|reflexivity].
Qed.

Lemma now_connect (w : World) : now (connect w) = now w.
Proof.
  rewrite connect_eq.
  destruct (connect_fresh_view (match ws (this w) with Some _ => close w | None => w end))
    as (_ & _ & _ & _ & _ & _ & _ & _ & _ & _ & ->).
  destruct (ws (this w)); [apply (close_view w)|reflexivity].
Qed.

Lemma Budgeted_exec (o : Options.t) (es : list event) :
  forall w w', Budgeted o w -> exec w es = Some w' -> Budgeted o w'.
Proof.
  apply methods_ind.
  - intros f w. apply Budgeted_same; reflexivity.
  - intros f w. apply Budgeted_same; reflexivity.
  - intros msg w. apply Budgeted_same; reflexivity.
  - intros dt w _. apply Budgeted_same; reflexivity.
  - intros t w _. apply Budgeted_same; reflexivity.
  - intros w. apply Budgeted_same;
      [apply options_connect|apply attempts_connect|apply events_connect].
  - intros w. apply Budgeted_same; apply (close_view w).
  - intros code reason w. apply Budgeted_handleDisconnect.
  - intros w. apply Budgeted_same;
      [apply (ping_tick_view w)|apply attempts_ping_tick|apply (ping_tick_view w)].
  - intros e w [B1 B2 B3]. destruct e as [|[[] txt|err]| |code reason|msg]; cbn [handler].
    + split; cbn; [assumption|lia|]. apply Forall_app. split; [assumption|]. repeat constructor.
    + split; cbn; [assumption|assumption|].
      apply Forall_app. split; [assumption|]. repeat constructor.
    + split; assumption.
    + split; cbn; [assumption|assumption|].
      apply Forall_app. split; [assumption|]. repeat constructor.
    + destruct (on_pong_view w) as (Ht & _ & _ & _ & _ & He).
      split; rewrite ?Ht, ?He; try assumption.
      apply Forall_app. split; [assumption|]. repeat constructor.
    + apply Budgeted_handleDisconnect. split; assumption.
    + split; cbn; [assumption|assumption|].
      apply Forall_app. split; [assumption|]. repeat constructor.
Qed.

Lemma Budgeted_boot (t0 : Z) (key : string) (o : WebSocketOptions) :
  Budgeted (options (new_client key o)) (boot t0 key o).
Proof. split; cbn; [reflexivity|lia|constructor]. Qed.

(** *** The clock and the latency *)

Lemma Clocked_same (w w' : World) :
  date w' = date w -> lastPing (this w') = lastPing (this w) -> events w' = events w ->
  Clocked w -> Clocked w'.
Proof. intros Hn Hl He [C1 C2 C3]. split; rewrite ?Hn, ?Hl, ?He; assumption. Qed.

Lemma date_close (w : World) : date (close w) = date w.
Proof.
  unfold close, clearInterval, clearTimeout.
  destruct w as [[k o a c lp pt pi rt s] n ts nt ss ev cs un uh d]; cbn.
  destruct pi, pt, rt, s as [s|]; cbn; try reflexivity;
    unfold socket; cbn;
    destruct (nth_error (set_nth s (set_listening false) ss) s) as [[u [] l]|];
    reflexivity.
Qed.

Lemma date_connect (w : World) : date (connect w) = date w.
Proof.
  unfold connect. destruct (ws (this w)); [rewrite <- (date_close w)|];
    unfold _startPingPong, _setupEventHandlers, new_WebSocket, setInterval, arm; reflexivity.
Qed.

Lemma date_handleDisconnect (code : Z) (reason : string) (w : World) :
  date (_handleDisconnect code reason w) = date w.
Proof.
  destruct w as [[k o a c lp pt pi rt s] n ts nt ss ev cs un uh d].
  unfold _handleDisconnect, clearInterval, clearTimeout. cbn.
  destruct pi, pt, rt; cbn; destruct (a <? Options.maxReconnectAttempts o); reflexivity.
Qed.

Lemma date_ping_tick (w : World) : date (ping_tick w) = date w.
Proof.
  destruct w as [[k o a c lp pt pi rt s] n ts nt ss ev cs un uh d].
  unfold ping_tick. cbn. destruct c, s; reflexivity.
Qed.

Lemma Clocked_handleDisconnect (code : Z) (reason : string) (w : World) :
  Clocked w -> Clocked (_handleDisconnect code reason w).
Proof.
  intros [C1 C2 C3].
  destruct (handleDisconnect_frame code reason w) as (Hl & _).
  split; rewrite ?date_handleDisconnect, ?Hl, ?events_handleDisconnect; try assumption.
  apply Forall_app. split; [assumption|].
  unfold announcement. destruct (reconnectAttempts (this w) <? _); repeat constructor.
Qed.

Lemma Clocked_exec (es : list event) :
  forall w w', steady w es = true -> Clocked w -> exec w es = Some w' -> Clocked w'.
Proof.
  assert (Hconnect : forall w, Clocked w -> Clocked (connect w)).
  { intros w. apply Clocked_same;
      [apply date_connect|apply (connect_frame w)|apply events_connect]. }
  assert (Hdisc : forall code reason w, Clocked w -> Clocked (_handleDisconnect code reason w))
    by (intros code reason w; apply Clocked_handleDisconnect).
  assert (Htick : forall w, Clocked w -> Clocked (ping_tick w)).
  { intros w [C1 C2 C3].
    destruct (ping_tick_view w) as (_ & _ & _ & _ & _ & He & _).
    destruct (ping_tick_frame w) as (_ & _ & _ & Hcase).
    split; rewrite ?date_ping_tick, ?He; try assumption.
    intros t. destruct (isConnected (this w)), (ws (this w));
      destruct Hcase as [-> _]; try apply C2; intros [= <-]; lia. }
  assert (Hhandler : forall e w, Clocked w -> Clocked (handler e w)).
  { intros e w [C1 C2 C3]. destruct e as [|[[] txt|err]| |code reason|msg]; cbn [handler].
    - split; cbn; [assumption|assumption|].
      apply Forall_app. split; [assumption|]. repeat constructor.
    - split; cbn; [assumption|assumption|].
      apply Forall_app. split; [assumption|]. repeat constructor.
    - split; assumption.
    - split; cbn; [assumption|assumption|].
      apply Forall_app. split; [assumption|]. repeat constructor.
    - destruct (on_pong_view w) as (Ht & Hn & _ & _ & _ & He).
      split; rewrite ?Ht, ?Hn, ?He; try assumption.
      apply Forall_app. split; [assumption|]. repeat constructor. cbn.
      destruct (lastPing (this w)) as [t|] eqn:Hl; [|lia].
      specialize (C2 t eq_refl). lia.
    - apply Clocked_handleDisconnect. split; assumption.
    - split; cbn; [assumption|assumption|].
      apply Forall_app. split; [assumption|]. repeat constructor. }
  destruct (methods_cases Clocked
              ltac:(intros f w; apply Clocked_same; reflexivity)
              ltac:(intros f w; apply Clocked_same; reflexivity)
              ltac:(intros msg w; apply Clocked_same; reflexivity)
              Hconnect Hdisc Htick Hhandler) as [Hfire Hdeliver].
  apply steady_ind; auto.
  - intros w. apply Clocked_same; [apply date_close|apply (close_frame w)|apply (close_view w)].
  - intros dt w Hdt [C1 C2 C3]. split; cbn; [lia| |assumption].
    intros t Ht. apply C2 in Ht. lia.
  - intros t w Hforward [C1 C2 C3]. split; cbn; [lia| |assumption].
    intros t' Ht'. apply C2 in Ht'. lia.
Qed.

(** *** Timers of one kind *)

Lemma callback_eqb_eq (a b : callback) : callback_eqb a b = true -> a = b.
Proof. destruct a, b; cbn; congruence. Qed.

Lemma tracked_at_most_one (cb : callback) (field : Client -> option handle) (w : World) :
  NoDup (map id (timers w)) ->
  (forall t, In t (timers w) -> run t = cb -> field (this w) = Some (id t)) ->
  (List.length (timers_running cb w) <= 1)%nat.
Proof.
  intros Hnodup Htracked. unfold timers_running.
  pose proof (distinct_ids_filter (fun t => callback_eqb (run t) cb) (timers w) Hnodup) as Hn.
  destruct (filter (fun t => callback_eqb (run t) cb) (timers w)) as [|a [|b l]] eqn:E;
    cbn; try lia.
  assert (Ha : In a (filter (fun t => callback_eqb (run t) cb) (timers w)))
    by (rewrite E; cbn; auto).
  assert (Hb : In b (filter (fun t => callback_eqb (run t) cb) (timers w)))
    by (rewrite E; cbn; auto).
  apply filter_In in Ha, Hb. destruct Ha as [Ha Hra], Hb as [Hb Hrb].
  apply callback_eqb_eq in Hra, Hrb.
  pose proof (Htracked a Ha Hra). pose proof (Htracked b Hb Hrb).
  exfalso. cbn in Hn. inversion Hn as [|? ? Hnot _]. apply Hnot. left. congruence.
Qed.

Lemma timers_by_kind (ts : list Timer) :
  List.length ts
  = (List.length (filter (fun t => callback_eqb (run t) PingTick) ts)
     + List.length (filter (fun t => callback_eqb (run t) PongExpired) ts)
     + List.length (filter (fun t => callback_eqb (run t) Reconnect) ts))%nat.
Proof.
  induction ts as [|t ts IH]; [reflexivity|].
  cbn [filter List.length]. destruct (run t); cbn [callback_eqb List.length]; lia.
Qed.

(** *** Pings and [lastPing] *)

Lemma PingLog_same (w w' : World) :
  date w' = date w -> lastPing (this w') = lastPing (this w) ->
  filter is_ping (calls w') = filter is_ping (calls w) ->
  PingLog w -> PingLog w'.
Proof. intros Hn Hl Hc [P1 P2 P3]. split; rewrite ?Hn, ?Hl, ?Hc; assumption. Qed.

Lemma PingLog_handleDisconnect (code : Z) (reason : string) (w : World) :
  PingLog w -> PingLog (_handleDisconnect code reason w).
Proof.
  destruct (handleDisconnect_frame code reason w) as (Hl & _ & Hc).
  apply PingLog_same; [apply date_handleDisconnect|exact Hl|now rewrite Hc].
Qed.

Lemma PingLog_connect (w : World) : PingLog w -> PingLog (connect w).
Proof. apply PingLog_same; [apply date_connect|apply (connect_frame w)..]. Qed.

Lemma PingLog_ping_tick (w : World) : Sound w -> PingLog w -> PingLog (ping_tick w).
Proof.
  intros S [P1 P2 P3].
  destruct (ping_tick_view w) as (_ & _ & _ & _ & _ & _ & Hcase).
  pose proof (date_ping_tick w) as Hn.
  destruct (ping_tick_frame w) as (_ & _ & _ & Hframe).
  destruct (isConnected (this w)) eqn:Hconn.
  - destruct (sound_connected w S Hconn) as (s & _ & Hs & _). rewrite Hs in Hcase, Hframe.
    destruct Hcase as (_ & _ & _ & Hc), Hframe as (Hl & _).
    split; rewrite ?Hn, ?Hl, ?Hc; try assumption; [discriminate|].
    intros t [= <-]. split; [assumption|].
    rewrite filter_app. cbn. intros H. apply app_eq_nil in H. destruct H. discriminate.
  - assert (Hc : calls (ping_tick w) = calls w)
      by (destruct (ws (this w)); apply Hcase).
    destruct Hframe as (Hl & _).
    split; rewrite ?Hn, ?Hl, ?Hc; assumption.
Qed.

Lemma Sound_PingLog_exec (es : list event) :
  forall w w', Sound w /\ PingLog w -> exec w es = Some w' -> Sound w' /\ PingLog w'.
Proof.
  apply exec_ind.
  - intros w [S P]. split; [now apply Sound_connect|now apply PingLog_connect].
  - intros w [S P]. split; [now apply Sound_close|].
    revert P. apply PingLog_same; [apply date_close|apply (close_frame w)..].
  - intros dt w Hdt [S [P1 P2 P3]]. split; [revert S; apply Sound_same; reflexivity|].
    split; cbn; [lia|assumption|assumption].
  - intros h w w' [S P] Hfire. split; [now apply (Sound_fire h w)|].
    apply fire_cases in Hfire.
    assert (Hcb : forall cb v, Sound v -> PingLog v -> PingLog (run_callback cb v)).
    { intros [] v Sv Pv; cbn [run_callback].
      - now apply PingLog_ping_tick.
      - now apply PingLog_handleDisconnect.
      - now apply PingLog_connect. }
    destruct Hfire as (t & _ & _ & [[_ ->]|(period & _ & ->)]).
    + apply Hcb; [now apply Sound_timers|]. revert P. apply PingLog_same; reflexivity.
    + generalize (Hcb (run t) w S P). apply PingLog_same; reflexivity.
  - intros s e w w' [S P] Hdel. split; [now apply (Sound_deliver s e w)|].
    apply deliver_cases in Hdel. destruct Hdel as (sock & r & _ & _ & ->).
    assert (P1 : PingLog (upd_sockets (set_nth s (set_readyState r)) w))
      by (revert P; apply PingLog_same; reflexivity).
    destruct (listening sock);
      [|destruct e; revert P1; apply PingLog_same; reflexivity].
    destruct e as [|[[] txt|err]| |code reason|msg]; cbn [handler];
      try (revert P1; apply PingLog_same; reflexivity).
    + destruct (on_pong_view (upd_sockets (set_nth s (set_readyState r)) w))
        as (Ht & Hn & _ & _ & Hc & _).
      revert P1. apply PingLog_same; [exact Hn|now rewrite Ht|now rewrite Hc].
    + now apply PingLog_handleDisconnect.
  - intros t w Ht [S [P1 P2 P3]]. split; [revert S; apply Sound_same; reflexivity|].
    split; cbn; [lia|assumption|assumption].
Qed.

(** *** What a caller can rely on *)

(** In every world a client can reach, the handlers of
    [_setupEventHandlers] are attached to the socket [this.ws] refers to
    and to no other: an event of a socket the client has replaced or
    closed never runs a handler. *)
Theorem handlers_follow_the_current_socket
        (t0 : Z) (key : string) (o : WebSocketOptions) (es : list event) (w : World)
        (s : nat) (sock : Socket) :
  exec (boot t0 key o) es = Some w ->
  socket s w = Some sock ->
  listening sock = true <-> ws (this w) = Some s.
Proof.
  intros Hexec Hsock.
  pose proof (Sound_exec es _ _ (Sound_boot t0 key o) Hexec) as S.
  split.
  - intros Hl. exact (sound_attached w S s sock Hsock Hl).
  - intros Hws. destruct (sound_current w S s Hws) as (x & Hx & Hl). congruence.
Qed.

Lemma handlers_follow_the_current_socket_witness :
  let w := after (healthy ++ [CallConnect]) (boot 0 "key" no_options) in
  exec (boot 0 "key" no_options) (healthy ++ [CallConnect]) = Some w
  /\ socket 0%nat w
     = Some {| url := DEFAULT_ENDPOINT; readyState := CLOSING; listening := false |}
  /\ (false = true <-> ws (this w) = Some 0%nat).
Proof.
  cbv zeta.
  assert (Hexec : exec (boot 0 "key" no_options) (healthy ++ [CallConnect])
                  = Some (after (healthy ++ [CallConnect]) (boot 0 "key" no_options)))
    by (vm_compute; reflexivity).
  assert (Hsock : socket 0%nat (after (healthy ++ [CallConnect]) (boot 0 "key" no_options))
                  = Some {| url := DEFAULT_ENDPOINT; readyState := CLOSING;
                            listening := false |})
    by (vm_compute; reflexivity).
  split; [exact Hexec|]. split; [exact Hsock|].
  exact (handlers_follow_the_current_socket 0 "key" no_options (healthy ++ [CallConnect])
           _ 0%nat _ Hexec Hsock).
Defined.

(** The heartbeat never throws.  In every world a client can reach no
    callback has read a property of a missing [this.ws]; and a client
    whose [isConnected] is set holds a socket, with its handlers
    attached, that has opened: the tick's [this.ws.ping()] finds a
    socket, and never one that is still connecting. *)
Theorem heartbeat_never_throws
        (t0 : Z) (key : string) (o : WebSocketOptions) (es : list event) (w : World) :
  exec (boot t0 key o) es = Some w ->
  uncaught w = []
  /\ (isConnected (this w) = true ->
      exists s sock,
        ws (this w) = Some s /\ socket s w = Some sock /\ listening sock = true
        /\ (readyState sock = OPEN \/ readyState sock = CLOSING)).
Proof.
  intros Hexec.
  pose proof (Sound_exec es _ _ (Sound_boot t0 key o) Hexec) as S.
  split; [apply S|].
  intros Hc. destruct (sound_connected w S Hc) as (s & sock & Hws & Hsock & Hst).
  exists s, sock. repeat split; try assumption.
  destruct (sound_current w S s Hws) as (x & Hx & Hl). congruence.
Qed.

Lemma heartbeat_never_throws_witness :
  exec (boot 0 "key" no_options) healthy = Some (after healthy (boot 0 "key" no_options))
  /\ uncaught (after healthy (boot 0 "key" no_options)) = []
  /\ calls (after healthy (boot 0 "key" no_options)) = [ws_ping 0%nat; ws_ping 0%nat].
Proof.
  assert (Hexec : exec (boot 0 "key" no_options) healthy
                  = Some (after healthy (boot 0 "key" no_options)))
    by (vm_compute; reflexivity).
  split; [exact Hexec|].
  split; [exact (proj1 (heartbeat_never_throws 0 "key" no_options healthy _ Hexec))|].
  vm_compute. reflexivity.
Defined.

(** [reconnectAttempts] stays between 0 and [maxReconnectAttempts] (or at
    0, for a negative maximum), the options never change, and every
    attempt number announced with ['reconnecting'] lies between 1 and
    [maxReconnectAttempts]. *)
Theorem attempts_stay_within_budget
        (t0 : Z) (key : string) (o : WebSocketOptions) (es : list event) (w : World) :
  exec (boot t0 key o) es = Some w ->
  options (this w) = options (new_client key o)
  /\ 0 <= reconnectAttempts (this w)
          <= Z.max 0 (Options.maxReconnectAttempts (options (new_client key o)))
  /\ forall k, In (reconnecting k) (events w) ->
               1 <= k <= Options.maxReconnectAttempts (options (new_client key o)).
Proof.
  intros Hexec.
  destruct (Budgeted_exec _ es _ _ (Budgeted_boot t0 key o) Hexec) as [B1 B2 B3].
  split; [exact B1|]. split; [exact B2|].
  intros k Hin. rewrite Forall_forall in B3. exact (B3 _ Hin).
Qed.

Lemma attempts_stay_within_budget_witness :
  let es := (connected_session ++ five_closes abnormal no_reason
             ++ sixth_close abnormal no_reason)%list in
  exec (boot 0 "key" no_options) es = Some (after es (boot 0 "key" no_options))
  /\ reconnectAttempts (this (after es (boot 0 "key" no_options))) = 5
  /\ 0 <= reconnectAttempts (this (after es (boot 0 "key" no_options))) <= Z.max 0 5.
Proof.
  cbv zeta.
  set (es := (connected_session ++ five_closes abnormal no_reason
              ++ sixth_close abnormal no_reason)%list).
  assert (Hexec : exec (boot 0 "key" no_options) es = Some (after es (boot 0 "key" no_options)))
    by (vm_compute; reflexivity).
  split; [exact Hexec|]. split; [vm_compute; reflexivity|].
  exact (proj1 (proj2 (attempts_stay_within_budget 0 "key" no_options es _ Hexec))).
Defined.

(** The latency is a difference of two readings of [Date.now()], the
    system clock.  As long as that clock, past the epoch, is not set
    back, no latency reported with ['pong'] is negative and [lastPing] is
    never ahead of the clock; and in any run a pong the current socket
    receives before any ping was sent is reported with the clock reading
    itself for a latency, [lastPing] being [null] still. *)
Theorem pong_latency_is_never_negative
        (t0 : Z) (key : string) (o : WebSocketOptions) (es : list event) (w : World) :
  0 < t0 ->
  exec (boot t0 key o) es = Some w ->
  (steady (boot t0 key o) es = true ->
   (forall latency, In (pong latency) (events w) -> 0 <= latency)
   /\ (forall t, lastPing (this w) = Some t -> t <= date w))
  /\ (forall s w',
         ws (this w) = Some s -> filter is_ping (calls w) = [] ->
         deliver s ev_pong w = Some w' ->
         events w' = (events w ++ [pong (date w)])%list).
Proof.
  intros Ht0 Hexec. split.
  - intros Hsteady.
    assert (C0 : Clocked (boot t0 key o))
      by (split; cbn; [lia|discriminate|constructor]).
    destruct (Clocked_exec es _ _ Hsteady C0 Hexec) as [C1 C2 C3].
    split; [|exact C2].
    intros latency Hin. rewrite Forall_forall in C3. exact (C3 _ Hin).
  - intros s w' Hws Hnone Hdel.
    assert (P0 : PingLog (boot t0 key o))
      by (split; cbn; [assumption|reflexivity|discriminate]).
    destruct (Sound_PingLog_exec es _ _ (conj (Sound_boot t0 key o) P0) Hexec)
      as [S [_ _ P3]].
    assert (Hlast : lastPing (this w) = None).
    { destruct (lastPing (this w)) as [t|] eqn:Hl; [|reflexivity].
      destruct (P3 t eq_refl) as [_ Hsent]. contradiction. }
    destruct (sound_current w S s Hws) as (sock & Hsock & Hl).
    apply deliver_cases in Hdel. destruct Hdel as (sock' & r & Hsock' & _ & ->).
    rewrite Hsock in Hsock'. injection Hsock' as <-. rewrite Hl. cbn [handler].
    destruct (on_pong_view (upd_sockets (set_nth s (set_readyState r)) w))
      as (_ & _ & _ & _ & _ & He).
    rewrite He. cbn [this upd_sockets events date]. rewrite Hlast. now rewrite Z.sub_0_r.
Qed.

Lemma pong_latency_is_never_negative_witness :
  exec (boot 1000 "key" no_options) answered_ping
  = Some (after answered_ping (boot 1000 "key" no_options))
  /\ events (after answered_ping (boot 1000 "key" no_options)) = [connected; pong 40]
  /\ (forall latency,
         In (pong latency) (events (after answered_ping (boot 1000 "key" no_options))) ->
         0 <= latency)
  /\ events (after (connected_session ++ [Elapse 7; Transport 0%nat ev_pong])
               (boot 1000 "key" no_options))
     = [connected; pong 1007].
Proof.
  assert (Hexec : exec (boot 1000 "key" no_options) answered_ping
                  = Some (after answered_ping (boot 1000 "key" no_options)))
    by (vm_compute; reflexivity).
  split; [exact Hexec|]. split; [vm_compute; reflexivity|].
  split.
  - exact (proj1 (proj1 (pong_latency_is_never_negative 1000 "key" no_options
                           answered_ping _ ltac:(lia) Hexec)
                    ltac:(vm_compute; reflexivity))).
  - set (early := (connected_session ++ [Elapse 7])%list).
    assert (Hearly : exec (boot 1000 "key" no_options) early
                     = Some (after early (boot 1000 "key" no_options)))
      by (vm_compute; reflexivity).
    assert (Hdel : deliver 0 ev_pong (after early (boot 1000 "key" no_options))
                   = Some (after (connected_session ++ [Elapse 7; Transport 0%nat ev_pong])
                             (boot 1000 "key" no_options)))
      by (vm_compute; reflexivity).
    exact (proj2 (pong_latency_is_never_negative 1000 "key" no_options early _
                    ltac:(lia) Hearly)
             0%nat _ eq_refl eq_refl Hdel).
Defined.

(** When the system clock is set back between a ping and its pong, the
    latency reported is negative. *)
Lemma clock_set_back_gives_negative_latency :
  exec (boot 1000000 "key" no_options) set_back
  = Some (after set_back (boot 1000000 "key" no_options))
  /\ steady (boot 1000000 "key" no_options) set_back = false
  /\ events (after set_back (boot 1000000 "key" no_options))
     = [connected; pong (-1028960)].
Proof. split; [|split]; vm_compute; reflexivity. Qed.

(** [getState().lastConnected] is the time of the last ping, not of the
    connection: on a clock past the epoch it is defined exactly when a
    ping has been sent, so it stays [undefined] on a connection that has
    opened until the first tick of the heartbeat. *)
Theorem lastConnected_is_the_last_ping
        (t0 : Z) (key : string) (o : WebSocketOptions) (es : list event) (w : World) :
  0 < t0 ->
  exec (boot t0 key o) es = Some w ->
  (st_lastConnected (getState w) = None <-> filter is_ping (calls w) = [])
  /\ st_lastConnected (getState w) = lastPing (this w).
Proof.
  intros Ht0 Hexec.
  assert (P0 : PingLog (boot t0 key o)).
  { split; cbn; [assumption|reflexivity|discriminate]. }
  destruct (Sound_PingLog_exec es _ _ (conj (Sound_boot t0 key o) P0) Hexec)
    as [_ [P1 P2 P3]].
  unfold getState. cbn [st_lastConnected].
  destruct (lastPing (this w)) as [t|] eqn:Hl.
  - destruct (P3 t eq_refl) as [Hpos Hsent].
    replace (t =? 0) with false by lia. split; [|reflexivity].
    split; [discriminate|]. intros H. contradiction.
  - split; [|reflexivity]. split; [intros _; now apply P2|reflexivity].
Qed.

Lemma lastConnected_is_the_last_ping_witness :
  exec (boot 1000 "key" no_options) connected_session
  = Some (after connected_session (boot 1000 "key" no_options))
  /\ isConnected (this (after connected_session (boot 1000 "key" no_options))) = true
  /\ st_lastConnected (getState (after connected_session (boot 1000 "key" no_options)))
     = lastPing (this (after connected_session (boot 1000 "key" no_options)))
  /\ st_lastConnected (getState (after connected_session (boot 1000 "key" no_options)))
     = None.
Proof.
  assert (Hexec : exec (boot 1000 "key" no_options) connected_session
                  = Some (after connected_session (boot 1000 "key" no_options)))
    by (vm_compute; reflexivity).
  split; [exact Hexec|]. split; [vm_compute; reflexivity|].
  split; [|vm_compute; reflexivity].
  exact (proj2 (lastConnected_is_the_last_ping 1000 "key" no_options connected_session _
                  ltac:(lia) Hexec)).
Defined.

(** When the delay the runtime gives the pong timeout is shorter than
    the delay it gives the ping interval no timer leaks: of each kind
    (ping interval, pong timeout, reconnection) at most one is active,
    three at most in all. *)
Theorem one_timer_of_each_kind
        (t0 : Z) (key : string) (o : WebSocketOptions) (es : list event) (w : World) :
  timing_ok (options (new_client key o)) ->
  exec (boot t0 key o) es = Some w ->
  (forall cb, (List.length (timers_running cb w) <= 1)%nat)
  /\ (List.length (timers w) <= 3)%nat.
Proof.
  intros Htiming Hexec.
  assert (I : Inv w) by (eapply Inv_exec; [apply Inv_boot; exact Htiming|exact Hexec]).
  assert (Hone : forall cb, (List.length (timers_running cb w) <= 1)%nat).
  { intros [].
    - apply (tracked_at_most_one PingTick pingInterval); [apply I|].
      intros t Hin Hr. now apply (inv_ping w I).
    - apply (tracked_at_most_one PongExpired pongTimeout); [apply I|].
      intros t Hin Hr. now apply (inv_pong w I).
    - apply (tracked_at_most_one Reconnect reconnectTimer); [apply I|].
      intros t Hin Hr. now apply (inv_reconnect w I). }
  split; [exact Hone|].
  rewrite (timers_by_kind (timers w)).
  pose proof (Hone PingTick). pose proof (Hone PongExpired). pose proof (Hone Reconnect).
  unfold timers_running in *. lia.
Qed.

Lemma one_timer_of_each_kind_witness :
  timing_ok (options (new_client "key" no_options))
  /\ exec (boot 0 "key" no_options) silent_peer
     = Some (after silent_peer (boot 0 "key" no_options))
  /\ List.length (timers (after silent_peer (boot 0 "key" no_options))) = 2%nat
  /\ (List.length (timers (after silent_peer (boot 0 "key" no_options))) <= 3)%nat.
Proof.
  assert (Htiming : timing_ok (options (new_client "key" no_options)))
    by (vm_compute; reflexivity).
  assert (Hexec : exec (boot 0 "key" no_options) silent_peer
                  = Some (after silent_peer (boot 0 "key" no_options)))
    by (vm_compute; reflexivity).
  split; [exact Htiming|]. split; [exact Hexec|]. split; [vm_compute; reflexivity|].
  exact (proj2 (one_timer_of_each_kind 0 "key" no_options silent_peer _ Htiming Hexec)).
Defined.

(** Reconnection cannot be switched off with [maxReconnectAttempts: 0]:
    the constructor reads a zero as absent and takes the default, so a
    client constructed that way, on losing its connection, announces
    reconnection 1 and schedules it, with a budget of five. *)
Theorem zero_attempts_means_five
        (t0 : Z) (key : string) (o : WebSocketOptions) (code : Z) (reason : string) :
  opt_maxReconnectAttempts o = Some 0 ->
  exists lost,
    exec (boot t0 key o) (connected_session ++ [Transport 0%nat (ev_close code reason)])
    = Some lost
    /\ Options.maxReconnectAttempts (options (this lost)) = 5
    /\ Waiting 1 lost
    /\ events lost = [connected; disconnected reason; reconnecting 1].
Proof.
  intros Hzero.
  assert (Hn : Options.maxReconnectAttempts (options (new_client key o)) = 5)
    by (cbn; rewrite Hzero; reflexivity).
  destruct (connection_lost t0 key o code reason) as (lost & Hexec & Hw & Ho & He); [lia|].
  exists lost. rewrite Ho, Hn.
  split; [exact Hexec|]. split; [reflexivity|]. split; [exact Hw|exact He].
Qed.

Lemma zero_attempts_means_five_witness :
  exists lost,
    exec (boot 0 "key" never_reconnect)
         (connected_session ++ [Transport 0%nat (ev_close 1006 "")])
    = Some lost
    /\ Options.maxReconnectAttempts (options (this lost)) = 5
    /\ Waiting 1 lost
    /\ events lost = [connected; disconnected ""; reconnecting 1].
Proof.
  exact (zero_attempts_means_five 0 "key" never_reconnect 1006 "" eq_refl).
Defined.

(** *** A closed client stays closed *)

Lemma Closed_close (w : World) : Closed w -> close w = w.
Proof.
  intros [C1 C2 C3 C4]. apply close_fixpoint; try assumption; rewrite C1;
    destruct (pingInterval (this w)), (pongTimeout (this w)), (reconnectTimer (this w));
    reflexivity.
Qed.

Lemma Closed_exec (es : list event) :
  left_closed es ->
  forall w w',
    Closed w -> exec w es = Some w' ->
    Closed w' /\ this w' = this w /\ events w' = events w /\ calls w' = calls w.
Proof.
  unfold left_closed. induction es as [|e es IH]; intros Hes w w' C; cbn [exec].
  - intros [= <-]. auto.
  - cbn [forallb] in Hes. apply andb_true_iff in Hes. destruct Hes as [He Hes].
    destruct (step w e) as [w1|] eqn:Hstep; [|discriminate].
    assert (H1 : Closed w1 /\ this w1 = this w /\ events w1 = events w /\ calls w1 = calls w).
    { destruct e as [| |dt|h|s te|t]; cbn [step] in Hstep.
      - discriminate.
      - injection Hstep as <-. rewrite (Closed_close w C). auto.
      - destruct (0 <=? dt); [|discriminate]. injection Hstep as <-.
        split; [|auto]. destruct C as [C1 C2 C3 C4]. split; assumption.
      - unfold fire, find_timer in Hstep. rewrite (closed_timers w C) in Hstep. discriminate.
      - apply deliver_cases in Hstep. destruct Hstep as (sock & r & Hsock & _ & ->).
        rewrite (closed_detached w C s sock Hsock).
        assert (C0 : Closed (upd_sockets (set_nth s (set_readyState r)) w)).
        { destruct C as [C1 C2 C3 C4]. split; try assumption.
          intros m x. rewrite socket_set_readyState.
          destruct (Nat.eqb m s); [|apply C2].
          destruct (socket m w) as [y|] eqn:Hy; cbn; [|discriminate].
          intros [= <-]. cbn. now apply (C2 m). }
        destruct te; cbn [unheard]; (split; [|auto]); try exact C0.
        destruct C0 as [D1 D2 D3 D4]. split; assumption.
      - destruct (0 <? t); [|discriminate]. injection Hstep as <-.
        split; [|auto]. destruct C as [C1 C2 C3 C4]. split; assumption. }
    destruct H1 as (C1 & Ht & Hev & Hc). intros Hexec.
    destruct (IH Hes w1 w' C1 Hexec) as (C' & Ht' & Hev' & Hc').
    split; [exact C'|]. split; [congruence|]. split; congruence.
Qed.

(** When the delay the runtime gives the pong timeout is shorter than
    the delay it gives the ping interval, [close()] called between
    callbacks is final.  Whatever the client has been through, once its
    owner has closed it and until [connect()] is called again, nothing
    changes it: no timer is left to run, the events of its sockets run
    no handler (an ['error'] among them is thrown by its emitter),
    further calls of [close()] do nothing; its fields stay as [close()]
    left them, it emits nothing and calls no socket. *)
Theorem close_is_final
        (t0 : Z) (key : string) (o : WebSocketOptions) (es es' : list event)
        (w w' : World) :
  timing_ok (options (new_client key o)) ->
  exec (boot t0 key o) es = Some w ->
  left_closed es' ->
  exec (close w) es' = Some w' ->
  this w' = this (close w) /\ events w' = events w /\ calls w' = calls (close w)
  /\ timers w' = [] /\ ws (this w') = None /\ isConnected (this w') = false.
Proof.
  intros Htiming Hexec Hleft Hexec'.
  assert (C : Closed (close w)).
  { destruct (close_view w) as (_ & _ & _ & _ & _ & _ & Hws & _ & Hc & _).
    split; try assumption.
    - apply (close_cancels_every_timer t0 key o es w Htiming Hexec).
    - apply close_detaches.
      apply (attached_exec es (boot t0 key o) w); [|exact Hexec].
      intros m sock Hm. unfold socket in Hm. cbn in Hm. destruct m; discriminate. }
  destruct (Closed_exec es' Hleft _ _ C Hexec') as ([C1 C2 C3 C4] & Ht & Hev & Hc).
  rewrite Hev, Hc, (close_emits_nothing w).
  split; [exact Ht|]. split; [reflexivity|]. split; [reflexivity|].
  split; [exact C1|]. split; [exact C3|exact C4].
Qed.

Lemma close_is_final_witness :
  let w := after silent_peer (boot 0 "key" no_options) in
  exec (close w) aftermath = Some (after aftermath (close w))
  /\ this (after aftermath (close w)) = this (close w)
  /\ timers (after aftermath (close w)) = [].
Proof.
  cbv zeta.
  set (w := after silent_peer (boot 0 "key" no_options)).
  assert (Hexec : exec (boot 0 "key" no_options) silent_peer = Some w)
    by (vm_compute; reflexivity).
  assert (Hexec' : exec (close w) aftermath = Some (after aftermath (close w)))
    by (vm_compute; reflexivity).
  destruct (close_is_final 0 "key" no_options silent_peer aftermath w _
              ltac:(vm_compute; reflexivity) Hexec eq_refl Hexec')
    as (H1 & _ & _ & H2 & _).
  split; [exact Hexec'|]. split; [exact H1|exact H2].
Defined.

(** [close_detaches_transport] at a client closed while its socket was
    still connecting: the ['error'] the socket then emits is thrown, and
    its ['close'] changes the socket alone. *)
Lemma close_detaches_transport_witness :
  let w := after [CallConnect] (boot 0 "key" no_options) in
  (exists r,
      after [Transport 0%nat (ev_error closed_before_open)] (close w)
      = record_unhandled closed_before_open
          (upd_sockets (set_nth 0 (set_readyState r)) (close w)))
  /\ unhandled (after [Transport 0%nat (ev_error closed_before_open)] (close w))
     = [closed_before_open]
  /\ exists r,
       after [Transport 0%nat (ev_close 1006 "")] (close w)
       = upd_sockets (set_nth 0 (set_readyState r)) (close w).
Proof.
  cbv zeta.
  set (w := after [CallConnect] (boot 0 "key" no_options)).
  assert (Hexec : exec (boot 0 "key" no_options) [CallConnect] = Some w)
    by (vm_compute; reflexivity).
  split; [|split; [vm_compute; reflexivity|]].
  - assert (Hdel : deliver 0 (ev_error closed_before_open) (close w)
                   = Some (after [Transport 0%nat (ev_error closed_before_open)] (close w)))
      by (vm_compute; reflexivity).
    exact (close_detaches_transport 0 "key" no_options [CallConnect] w 0%nat
             (ev_error closed_before_open) _ Hexec Hdel).
  - assert (Hdel : deliver 0 (ev_close 1006 "") (close w)
                   = Some (after [Transport 0%nat (ev_close 1006 "")] (close w)))
      by (vm_compute; reflexivity).
    exact (close_detaches_transport 0 "key" no_options [CallConnect] w 0%nat
             (ev_close 1006 "") _ Hexec Hdel).
Defined.

(** *** Closing from inside a listener *)

(** A listener that leaves the client alone gives [_handleDisconnect] as
    the event loop runs it. *)
Lemma _handleDisconnect_heard_quiet (code : Z) (reason : string) (w : World) :
  _handleDisconnect_heard (fun v => v) code reason w = _handleDisconnect code reason w.
Proof. reflexivity. Qed.

Lemma heard_prefix_view (reason : string) (w : World) :
  let v := emit (disconnected reason)
             (clearTimeout (pongTimeout (this w))
                (clearInterval (pingInterval (this w))
                   (upd_this (set_isConnected false) w))) in
  reconnectAttempts (this v) = reconnectAttempts (this w)
  /\ options (this v) = options (this w)
  /\ next_timer v = next_timer w /\ now v = now w
  /\ events v = (events w ++ [disconnected reason])%list.
Proof.
  destruct w as [[k o a c lp pt pi rt s] n ts nt ss ev cs un uh].
  unfold clearTimeout, clearInterval. destruct pt, pi; repeat split; reflexivity.
Qed.

(** [close()] called from a listener of ['disconnected'] does not stop
    the reconnection.  The call takes effect ([this.ws] is [null], the
    client is not connected), but [_handleDisconnect] goes on after the
    listener has returned: as long as attempts remain it counts one,
    emits ['reconnecting'] and arms the reconnection, whose body calls
    [connect()]. *)
Theorem close_in_a_listener_is_undone (code : Z) (reason : string) (w : World) :
  reconnectAttempts (this w) < Options.maxReconnectAttempts (options (this w)) ->
  let w' := _handleDisconnect_heard close code reason w in
  ws (this w') = None /\ isConnected (this w') = false
  /\ events w'
     = (events w ++ [disconnected reason; reconnecting (reconnectAttempts (this w) + 1)])%list
  /\ reconnectAttempts (this w') = reconnectAttempts (this w) + 1
  /\ reconnectTimer (this w') = Some (next_timer w)
  /\ In (reconnect_timer w) (timers w').
Proof.
  intros Hlt. cbv zeta. unfold _handleDisconnect_heard. cbv zeta.
  change (pingInterval (this (upd_this (set_isConnected false) w)))
    with (pingInterval (this w)).
  match goal with |- context [close ?x] => set (v := x) end.
  assert (Hv : pongTimeout (this (clearInterval (pingInterval (this w))
                                    (upd_this (set_isConnected false) w)))
               = pongTimeout (this w))
    by (unfold clearInterval; destruct (pingInterval (this w)); reflexivity).
  destruct (heard_prefix_view reason w) as (Ha & Ho & Hn & Hnow & He).
  cbv zeta in Ha, Ho, Hn, Hnow, He. rewrite <- Hv in Ha, Ho, Hn, Hnow, He.
  fold v in Ha, Ho, Hn, Hnow, He.
  destruct (close_view v) as (_ & Hn' & Ho' & _ & _ & _ & Hws & Ha' & Hc & He' & Hnow').
  set (u := match reconnectTimer (this (close v)) with
            | Some h => clearTimeout (Some h) (close v)
            | None => close v
            end).
  assert (Hu : this u = this (close v) /\ next_timer u = next_timer (close v)
               /\ now u = now (close v) /\ events u = events (close v)).
  { unfold u. destruct (reconnectTimer (this (close v))); repeat split; reflexivity. }
  destruct Hu as (Hu1 & Hu2 & Hu3 & Hu4).
  rewrite Hu1, Ha', Ha, Ho', Ho.
  replace (reconnectAttempts (this w) <? Options.maxReconnectAttempts (options (this w)))
    with true by lia.
  unfold setTimeout, arm.
  cbn [this upd_this emit events timers set_reconnectTimer set_reconnectAttempts ws
       isConnected reconnectAttempts reconnectTimer next_timer options now].
  rewrite ?Hu1, ?Hu2, ?Hu3, ?Hu4, ?Hws, ?Hc, ?Ha', ?Ha, ?Ho', ?Ho, ?He', ?He, ?Hn', ?Hn,
    ?Hnow', ?Hnow.
  split; [reflexivity|]. split; [reflexivity|].
  split; [now rewrite <- app_assoc|]. split; [reflexivity|]. split; [reflexivity|].
  apply in_or_app. right. left. reflexivity.
Qed.

(** A default session loses its socket, and the owner's listener of
    ['disconnected'] calls [close()]: the reconnection is announced and
    armed all the same, and a second later it opens a new socket. *)
Lemma close_in_a_listener_is_undone_witness :
  let w' := _handleDisconnect_heard close 1006 "" peer_gone in
  ws (this w') = None
  /\ events w' = [connected; disconnected ""; reconnecting 1]
  /\ timers w' = [{| id := 1%nat; run := Reconnect; due := 1000; repeat := None |}]
  /\ exists v, exec w' [Elapse 1000; Fire 1%nat] = Some v /\ ws (this v) = Some 1%nat.
Proof.
  cbv zeta.
  destruct (close_in_a_listener_is_undone 1006 "" peer_gone ltac:(vm_compute; reflexivity))
    as (Hws & _ & He & _).
  split; [exact Hws|]. split; [exact He|]. split; [vm_compute; reflexivity|].
  eexists. split; vm_compute; reflexivity.
Defined.

(** [reconnect_budget] with the default options: five reconnections. *)
Lemma reconnect_budget_witness :
  exists lost,
    exec (boot 0 "key" no_options)
         (connected_session ++ [Transport 0%nat (ev_close 1006 "")])
    = Some lost
    /\ (forall k : nat,
           Z.of_nat k < 5 ->
           exists w, reconnections_fail k 1006 "" lost = Some w
                     /\ Waiting (Z.of_nat k + 1) w)
    /\ exists w, reconnections_fail 5 1006 "" lost = Some w /\ Exhausted w.
Proof.
  exact (reconnect_budget 0 "key" no_options 1006 "" ltac:(vm_compute; discriminate)).
Defined.

(** ** The executor, whatever the constants *)

Import ExecutorProperties.

Section ExecutorTraces.
Context {num : Type}.
Variable transport : nat -> reply num.
Variable constants : value Z.

(** Computing the delay reads the constants and nothing else. *)
Lemma retry_delay_pure (attempt : nat) (s : state) :
  snd (retry_delay (num:=num) constants attempt s) = s.
Proof.
  unfold retry_delay, bind, lift_member, ret, throw.
  destruct (member constants "RETRY_CONFIG") as [te|rc]; [reflexivity|].
  destruct (member rc "INITIAL_DELAY") as [te|i]; [reflexivity|].
  destruct (member rc "BACKOFF_FACTOR") as [te|f]; reflexivity.
Qed.

Lemma attempts_attempt_trace (c : Config) (r : reply num) (tr : list effect) :
  attempts c tr -> attempts c (attempt_trace c r ++ tr).
Proof.
  intros H. unfold attempt_trace. destruct (outcome r); cbn; now constructor.
Qed.

Lemma dispatches_attempt_trace (c : Config) (r : reply num) (tr : list effect) :
  dispatches (attempt_trace c r ++ tr) = S (dispatches tr).
Proof. unfold attempt_trace, dispatches. destruct (outcome r); reflexivity. Qed.

Lemma logged_attempt_trace (c : Config) (r : reply num) (tr : list effect) :
  logged (attempt_trace c r ++ tr)
  = (match outcome r with inr _ => 1 | inl _ => 0 end + logged tr)%nat.
Proof. unfold attempt_trace, logged. destruct (outcome r); reflexivity. Qed.

(** The loop, from any attempt on. *)
Lemma retry_loop_trace (c : Config) (retries : nat) :
  forall (k attempt : nat) (s : state),
  (attempt + k = S retries)%nat ->
  exists tr,
    trace (snd (retry_loop transport constants c retries k attempt s)) = (trace s ++ tr)%list
    /\ sent (snd (retry_loop transport constants c retries k attempt s))
       = (sent s + dispatches tr)%nat
    /\ attempts c tr
    /\ (dispatches tr <= k)%nat
    /\ logged tr
       = match fst (retry_loop transport constants c retries k attempt s), k with
         | inr _, S _ => 1%nat
         | _, _ => 0%nat
         end.
Proof.
  induction k as [|k IH]; intros attempt s Hsum.
  - exists []. cbn. rewrite app_nil_r.
    split; [reflexivity|]. split; [unfold dispatches; cbn; lia|].
    split; [constructor|]. split; [unfold dispatches; cbn; lia|reflexivity].
  - rewrite retry_loop_unfold, _makeRequest_eq.
    set (r := transport (S (sent s))).
    pose proof (dispatches_attempt_trace c r []) as Hd.
    pose proof (logged_attempt_trace c r []) as Hl.
    pose proof (attempts_attempt_trace c r [] (attempts_done c)) as Ha.
    rewrite app_nil_r in Hd, Hl, Ha.
    change (dispatches []) with 0%nat in Hd. change (logged []) with 0%nat in Hl.
    rewrite Nat.add_0_r in Hl.
    destruct (outcome r) as [e|body] eqn:Hout.
    + destruct (Nat.eqb_spec attempt retries) as [Heq|Hne]; cbn [orb];
        [|destruct (negb (_isRetryable e))].
      * exists (attempt_trace c r). cbn [fst snd trace sent].
        rewrite Hd, Hl.
        split; [reflexivity|]. split; [lia|]. split; [assumption|]. split; [lia|reflexivity].
      * exists (attempt_trace c r). cbn [fst snd trace sent].
        rewrite Hd, Hl.
        split; [reflexivity|]. split; [lia|]. split; [assumption|]. split; [lia|reflexivity].
      * pose proof (retry_delay_pure attempt
                      {| sent := S (sent s); trace := trace s ++ attempt_trace c r |}) as Hpure.
        destruct (retry_delay constants attempt
                    {| sent := S (sent s); trace := trace s ++ attempt_trace c r |})
          as [[te|ms] s'']; cbn [snd] in Hpure; subst s''.
        -- exists (attempt_trace c r). cbn [fst snd trace sent].
           rewrite Hd, Hl.
        split; [reflexivity|]. split; [lia|]. split; [assumption|]. split; [lia|reflexivity].
        -- unfold _sleep, tell. cbn [snd sent trace].
           destruct (IH (S attempt)
                       {| sent := S (sent s);
                          trace := (trace s ++ attempt_trace c r) ++ [Sleep ms] |}
                       ltac:(lia))
             as (tr & Htr & Hsent & Hatt & Hle & Hlog).
           cbn [sent trace] in Htr, Hsent.
           exists (attempt_trace c r ++ Sleep ms :: tr)%list.
           rewrite Htr, Hsent, dispatches_attempt_trace, logged_attempt_trace, Hout.
           split; [now rewrite <- !app_assoc|].
           split; [unfold dispatches; cbn [filter is_dispatch]; fold (dispatches tr); lia|].
           split; [apply attempts_attempt_trace; now constructor|].
           split; [unfold dispatches; cbn [filter is_dispatch]; fold (dispatches tr); lia|].
           unfold logged. cbn [filter is_log]. fold (logged tr). rewrite Hlog.
           destruct k as [|k']; [lia|]. destruct (fst _); reflexivity.
    + exists (attempt_trace c r). cbn [fst snd trace sent].
      rewrite Hd, Hl.
      split; [reflexivity|]. split; [lia|]. split; [assumption|]. split; [lia|reflexivity].
Qed.

End ExecutorTraces.

(** Whatever the transport answers and whatever the constants object
    holds, a call of [_retryRequest] adds to the trace a run of attempts at
    the one config it was given: every dispatch directly follows the
    removal of one rate-limiter token, there are at most [retries]
    dispatches, and a request is logged exactly when the call returns a
    response.  With [retries = 0] nothing is sent and the call returns
    [undefined]. *)
Theorem every_dispatch_takes_a_token
        {num : Type} (transport : nat -> reply num) (constants : value Z)
        (c : Config) (retries : nat) (s : state) :
  let r := _retryRequest transport constants c retries s in
  exists tr,
    trace (snd r) = (trace s ++ tr)%list
    /\ attempts c tr
    /\ (dispatches tr <= retries)%nat
    /\ sent (snd r) = (sent s + dispatches tr)%nat
    /\ logged tr = match fst r, retries with
                   | inr _, S _ => 1%nat
                   | _, _ => 0%nat
                   end
    /\ (retries = 0%nat -> r = (inr VUndefined, s)).
Proof.
  cbv zeta. unfold _retryRequest.
  destruct (retry_loop_trace transport constants c retries retries 1%nat s eq_refl)
    as (tr & Htr & Hsent & Hatt & Hle & Hlog).
  exists tr. repeat split; try assumption.
  intros ->. reflexivity.
Qed.

(** With the constants as [lib/constants.js] exports them no request is
    ever sent twice: a call of [_retryRequest] with [retries >= 1] makes
    exactly one dispatch, whatever is answered, and one with
    [retries = 0] makes none. *)
Theorem no_request_is_sent_twice
        {num : Type} (transport : nat -> reply num) (c : Config) (retries : nat) (s : state) :
  let r := _retryRequest transport Constants.exports c retries s in
  dispatches (trace (snd r))
  = (dispatches (trace s) + if Nat.eqb retries 0 then 0 else 1)%nat
  /\ sent (snd r) = (sent s + if Nat.eqb retries 0 then 0 else 1)%nat.
Proof.
  cbv zeta. destruct retries as [|k].
  - cbn. split; lia.
  - rewrite single_attempt by discriminate. cbn [trace sent Nat.eqb].
    unfold dispatches. rewrite filter_app, length_app.
    fold (dispatches (attempt_trace c (transport (S (sent s))))).
    pose proof (dispatches_attempt_trace c (transport (S (sent s))) []) as H.
    rewrite app_nil_r in H. change (dispatches []) with 0%nat in H.
    rewrite H. split; lia.
Qed.

(** How code strings convert: white space around the literal, a sign, a
    fraction, an exponent and the radix prefixes all count, and so does
    the rounding to the nearest double; a name converts to [NaN]. *)
Lemma converts_to_5xx_examples :
  map converts_to_5xx
      [" 503 "; "5e2"; "0x1F7"; "503.0"; "+503"; "0b111110100"; "0o767"; ".5e3";
       "499.99999999999999999"; "599.00000000000000000001"]
  = map (fun _ => true) (seq 0 10)
  /\ map converts_to_5xx
       ["ECONNABORTED"; "ERR_NETWORK"; ""; "499.9999999999999"; "599.5"; "600"; "-503";
        "5 03"; "503px"; "-0x1F7"; "Infinity"; "1e400"]
     = map (fun _ => false) (seq 0 12).
Proof. split; vm_compute; reflexivity. Qed.

(** Which failures [_isRetryable] accepts, among the errors [_makeRequest]
    can throw: those of a 429 or 5xx response with a readable body, and no
    other response; an error below HTTP only if its code is a string that
    converts to a number from 500 to 599, as ['5e2'] or [' 503 '] do and
    no name does. *)
Theorem retryable_is_429_or_5xx
        {num : Type} (r : reply num) (e : thrown num) :
  outcome r = inl e ->
  _isRetryable e = true <-> retryable_shape r.
Proof.
  intros Hout. destruct r as [status body|[errcode|] msg]; cbn in Hout.
  - destruct (validateStatus status) eqn:Hv; [discriminate|]. injection Hout as <-.
    unfold wrap_response, retryable_shape.
    destruct body; cbn;
      try (split; [intros H; split; [lia|split; discriminate] | intros [H _]; lia]);
      try (split; [discriminate | intros (_ & H1 & H2); congruence]).
    destruct (lookup "message" props); cbn;
      (split; [intros H; split; [lia|split; discriminate] | intros [H _]; lia]).
  - injection Hout as <-. unfold _isRetryable, retryable_shape, converts_to_5xx.
    cbn. tauto.
  - injection Hout as <-. cbn. split; [discriminate|tauto].
Qed.

Lemma retryable_is_429_or_5xx_witness :
  outcome (bad_gateway 1%nat)
  = inl (ThrowAPIError (new_APIError VUndefined 502 (VStr "<html>Bad Gateway</html>")))
  /\ (_isRetryable (num:=Z)
        (ThrowAPIError (new_APIError VUndefined 502 (VStr "<html>Bad Gateway</html>")))
      = true <-> retryable_shape (bad_gateway 1%nat))
  /\ _isRetryable (num:=Z)
       (ThrowAxios {| ax_message := "odd"; ax_code := Some " 5e2 "; ax_response := None |})
     = true
  /\ _isRetryable (num:=Z)
       (ThrowAxios {| ax_message := "timeout of 30000ms exceeded";
                      ax_code := Some "ECONNABORTED"; ax_response := None |})
     = false.
Proof.
  split; [reflexivity|].
  split; [exact (retryable_is_429_or_5xx (bad_gateway 1%nat) _ eq_refl)|].
  split.
  - apply (proj2 (retryable_is_429_or_5xx (num:=Z) (NetworkError (Some " 5e2 ") "odd")
                    _ eq_refl)).
    vm_compute. reflexivity.
  - vm_compute. reflexivity.
Defined.

(** ** Errors as the caller sees them *)

Import ErrorReports PublicApi.

(** No error the loop throws carries a response: a rejection with a
    response has been wrapped by then. *)
Lemma retry_loop_throws_no_response
      {num : Type} (transport : nat -> reply num) (constants : value Z)
      (c : Config) (retries : nat) :
  forall (k attempt : nat) (s : state) (e : thrown num),
    fst (retry_loop transport constants c retries k attempt s) = inl e ->
    error_response e = None.
Proof.
  induction k as [|k IH]; intros attempt s e; [discriminate|].
  rewrite retry_loop_unfold, _makeRequest_eq.
  destruct (outcome (transport (S (sent s)))) as [e0|body] eqn:Hout; [|discriminate].
  assert (H0 : error_response e0 = None).
  { destruct (transport (S (sent s))) as [status b|ec m]; cbn in Hout.
    - destruct (validateStatus status); [discriminate|]. injection Hout as <-.
      apply wrap_response_no_response.
    - now injection Hout as <-. }
  destruct (Nat.eqb attempt retries || negb (_isRetryable e0)).
  - now intros [= <-].
  - destruct (retry_delay constants attempt _) as [[te|ms] s''] eqn:Hdelay.
    + intros [= <-]. unfold retry_delay, bind, lift_member, ret, throw in Hdelay.
      destruct (member constants "RETRY_CONFIG") as [x|rc]; [now injection Hdelay as <- _|].
      destruct (member rc "INITIAL_DELAY") as [x|i]; [now injection Hdelay as <- _|].
      destruct (member rc "BACKOFF_FACTOR") as [x|f]; [now injection Hdelay as <- _|].
      discriminate.
    + apply IH.
Qed.

(** [parseAPIError] finds no response on any error the request executor
    throws, since [_makeRequest] has replaced the axios error by an
    [APIError], which has no [response] property: whatever the server
    answered, the report has the code ['API_ERROR'] and [null] details,
    not the HTTP status and body. *)
Theorem parseAPIError_never_sees_the_response
        {num : Type} (number_is_truthy : num -> bool) (ToString : value num -> string)
        (transport : nat -> reply num) (constants : value Z)
        (c : Config) (retries : nat) (s : state) (e : thrown num) :
  fst (_retryRequest transport constants c retries s) = inl e ->
  parseAPIError number_is_truthy ToString e
  = {| r_code := CodeStr "API_ERROR";
       r_message := VStr (error_message ToString e);
       r_details := VNull |}.
Proof.
  intros H. apply retry_loop_throws_no_response in H.
  unfold parseAPIError. rewrite H. reflexivity.
Qed.

Lemma parseAPIError_never_sees_the_response_witness :
  fst (_retryRequest not_found Constants.exports status_request 3 initial)
  = inl (ThrowAPIError (new_APIError (VStr "Payment not found") 404 not_found_body))
  /\ parseAPIError nonzero show
       (ThrowAPIError (new_APIError (VStr "Payment not found") 404 not_found_body))
     = {| r_code := CodeStr "API_ERROR";
          r_message := VStr "Payment not found";
          r_details := VNull |}
  /\ parseAPIError nonzero show
       (ThrowAxios {| ax_message := "Request failed with status code 404";
                      ax_code := Some "ERR_BAD_REQUEST";
                      ax_response := Some (404, not_found_body) |})
     = {| r_code := CodeNum 404;
          r_message := VStr "Payment not found";
          r_details := not_found_body |}.
Proof.
  split; [reflexivity|]. split; [|reflexivity].
  exact (parseAPIError_never_sees_the_response nonzero show not_found Constants.exports
           status_request 3 initial _ eq_refl).
Defined.

(** ** The public methods *)

(** The five methods that validate do so before anything else
    ([getPayments] on [{}] when it is given no parameters): when the
    schema rejects the data the method rejects with a [ValidationError]
    that carries the schema's message and details under the code
    ['VALIDATION_ERROR'], and no token is taken and nothing is sent; when
    the schema accepts, the method is the request alone. *)
Theorem invalid_parameters_are_never_sent
        {num : Type} (transport : nat -> reply num) (schemas : Schemas num)
        (m : value num -> Method (value num)) (checked : value num -> value num)
        (sch : schema) (c : Config) :
  validating transport schemas m checked sch c ->
  (forall input msg details s,
      sch (checked input) = Some (msg, details) ->
      exists e,
        m input s = (inl (Invalid e), s)
        /\ code (v_base e) = CodeStr "VALIDATION_ERROR"
        /\ message (v_base e) = VStr msg
        /\ v_details e = details /\ data (v_base e) = details)
  /\ (forall input s,
         sch (checked input) = None -> m input s = request transport c s).
Proof.
  intros Hm. split.
  - intros input msg details s Hrej. exists (new_ValidationError (VStr msg) details).
    split; [|repeat split].
    destruct Hm; unfold createPayment, createInvoice, getPayments, createPayout,
      createBatchPayout, validated, _validateSchema; rewrite Hrej; reflexivity.
  - intros input s Hok.
    destruct Hm; unfold createPayment, createInvoice, getPayments, createPayout,
      createBatchPayout, validated, _validateSchema; rewrite Hok; reflexivity.
Qed.

Lemma invalid_parameters_are_never_sent_witness :
  createPayment flaky test_schemas (VObj [("price_currency", VStr "usd")]) initial
  = (inl (Invalid (new_ValidationError (VStr "price_amount is required") (VArr []))), initial)
  /\ forall input s,
       needs_amount input = None ->
       createPayment flaky test_schemas input s
       = request flaky {| method := "post"; Api.url := "/payment" |} s.
Proof.
  split; [reflexivity|].
  exact (proj2 (invalid_parameters_are_never_sent flaky test_schemas _ _ _ _
                  (validating_createPayment flaky test_schemas))).
Defined.

(** ** The canonical form *)

Import CanonicalProperties.

Section SortedFacts.
Context {A : Type}.
Variable leb : A -> A -> bool.
Hypothesis leb_total : forall a b, leb a b = true \/ leb b a = true.
Hypothesis leb_trans : forall a b c, leb a b = true -> leb b c = true -> leb a c = true.

Lemma insert_below_all (x : A) (l : list A) :
  (forall z, In z l -> leb x z = true) -> insert leb x l = x :: l.
Proof.
  destruct l as [|y l]; [reflexivity|]. intros H. cbn.
  now rewrite (H y) by now left.
Qed.

Lemma In_insert (x z : A) (l : list A) : In z (insert leb x l) -> z = x \/ In z l.
Proof.
  intros H. apply (Permutation_in z (insert_perm leb x l)) in H.
  destruct H; auto.
Qed.

Lemma ascending_insert (x : A) (l : list A) :
  ascending leb l -> ascending leb (insert leb x l).
Proof.
  induction 1 as [|y l Hl IH Hy]; cbn.
  - repeat constructor.
  - destruct (leb x y) eqn:Hxy.
    + constructor; [now constructor|]. constructor; [exact Hxy|].
      rewrite Forall_forall in *. intros z Hz. eauto.
    + constructor; [exact IH|]. rewrite Forall_forall in *.
      intros z Hz. apply In_insert in Hz. destruct Hz as [->|Hz]; [|auto].
      destruct (leb_total x y); congruence.
Qed.

Lemma ascending_sort (l : list A) : ascending leb (sort leb l).
Proof.
  unfold sort. induction l as [|x l IH]; cbn [fold_right]; [constructor|].
  now apply ascending_insert.
Qed.

Lemma filter_insert (p : A -> bool) (x : A) (l : list A) :
  ascending leb l ->
  filter p (insert leb x l) = if p x then insert leb x (filter p l) else filter p l.
Proof.
  induction 1 as [|y l Hl IH Hy]; cbn [insert filter].
  - destruct (p x); reflexivity.
  - destruct (leb x y) eqn:Hxy.
    + cbn [filter]. destruct (p x); [|reflexivity].
      symmetry. apply insert_below_all.
      assert (Hall : forall z, In z (y :: l) -> leb x z = true).
      { rewrite Forall_forall in Hy. intros z [<-|Hz]; eauto. }
      intros z Hz. change (In z (filter p (y :: l))) in Hz.
      apply filter_In in Hz. now apply Hall.
    + cbn [filter]. rewrite IH. destruct (p y), (p x); cbn [insert]; rewrite ?Hxy; reflexivity.
Qed.

(** Filtering and sorting commute. *)
Lemma filter_sort (p : A -> bool) (l : list A) :
  filter p (sort leb l) = sort leb (filter p l).
Proof.
  unfold sort. induction l as [|x l IH]; cbn [fold_right filter]; [reflexivity|].
  rewrite filter_insert by apply ascending_sort. fold (sort leb l) in *.
  rewrite IH. destruct (p x); reflexivity.
Qed.

End SortedFacts.

Lemma Permutation_filter_both {A : Type} (p : A -> bool) (l l' : list A) :
  Permutation l l' -> Permutation (filter p l) (filter p l').
Proof.
  induction 1 as [|x l l' _ IH|x y l|l l' l'' _ IH1 _ IH2]; cbn.
  - constructor.
  - destruct (p x); [now constructor|exact IH].
  - destruct (p x), (p y); try reflexivity. apply perm_swap.
  - now transitivity (filter p l').
Qed.

Section ProtoFacts.
Context {num : Type}.

Lemma map_fst_strip_proto (props : list (string * value num)) :
  map fst (strip_proto props) = filter (fun k => negb (is_proto k)) (map fst props).
Proof.
  induction props as [|[k v] props IH]; [reflexivity|].
  unfold strip_proto in *. cbn [filter map fst].
  destruct (is_proto k); cbn [negb map fst]; [exact IH|now rewrite IH].
Qed.

Lemma lookup_strip_proto (key : string) (props : list (string * value num)) :
  is_proto key = false -> lookup key (strip_proto props) = lookup key props.
Proof.
  intros Hkey. induction props as [|[k v] props IH]; [reflexivity|].
  unfold strip_proto in *. cbn [filter fst lookup].
  destruct (is_proto k) eqn:Hk; cbn [negb lookup].
  - destruct (String.eqb_spec k key) as [->|_]; [congruence|exact IH].
  - destruct (String.eqb k key); [reflexivity|exact IH].
Qed.

Lemma set_prop_proto (result : list (string * value num)) (key : string) (v : value num) :
  is_proto key = true -> set_prop result key v = result.
Proof. unfold set_prop, is_proto. now intros ->. Qed.

(** The reducer skips a key named [__proto__]. *)
Lemma fold_skips_proto (g : string -> value num) (keys : list string) :
  forall acc,
    fold_left (fun result key => set_prop result key (g key)) keys acc
    = fold_left (fun result key => set_prop result key (g key))
        (filter (fun k => negb (is_proto k)) keys) acc.
Proof.
  induction keys as [|k keys IH]; intros acc; cbn [fold_left filter]; [reflexivity|].
  destruct (is_proto k) eqn:Hk; cbn [negb fold_left].
  - rewrite set_prop_proto by exact Hk. apply IH.
  - apply IH.
Qed.

Lemma fold_ext (g g' : string -> value num) (keys : list string) :
  (forall k, In k keys -> g k = g' k) ->
  forall acc,
    fold_left (fun result key => set_prop result key (g key)) keys acc
    = fold_left (fun result key => set_prop result key (g' key)) keys acc.
Proof.
  induction keys as [|k keys IH]; intros H acc; cbn [fold_left]; [reflexivity|].
  rewrite (H k) by now left. apply IH. intros k' Hk'. apply H. now right.
Qed.

Lemma sorted_keys_strip_proto (props : list (string * value num)) :
  filter (fun k => negb (is_proto k)) (sort String.leb (Object_keys props))
  = sort String.leb (Object_keys (strip_proto props)).
Proof.
  rewrite (filter_sort String.leb String.leb_total string_leb_trans).
  apply sort_keys_permutation.
  rewrite (Object_keys_perm (strip_proto props)), map_fst_strip_proto.
  apply Permutation_filter_both, Object_keys_perm.
Qed.

(** An own [__proto__] member does not reach the sorted object. *)
Lemma sortObject_strip_proto (props : list (string * value num)) :
  sortObject (VObj props) = sortObject (VObj (strip_proto props)).
Proof.
  cbn [sortObject]. f_equal.
  rewrite fold_skips_proto, sorted_keys_strip_proto.
  apply fold_ext. intros k Hk.
  assert (Hnp : is_proto k = false).
  { rewrite <- sorted_keys_strip_proto in Hk. apply filter_In in Hk.
    now apply negb_true_iff. }
  unfold get. rewrite !lookup_map_values, lookup_strip_proto by exact Hnp. reflexivity.
Qed.

Lemma map_fst_map_values (f : value num -> value num) (props : list (string * value num)) :
  map fst (map_values f props) = map fst props.
Proof.
  unfold map_values. rewrite map_map. apply map_ext. now intros [k v].
Qed.

Lemma map_values_ext (f g : value num -> value num) (props : list (string * value num)) :
  Forall (fun kv => f (snd kv) = g (snd kv)) props -> map_values f props = map_values g props.
Proof.
  unfold map_values. induction 1 as [|[k v] props Hkv _ IH]; cbn; [reflexivity|].
  cbn in Hkv. now rewrite Hkv, IH.
Qed.

Lemma without_proto_obj (props : list (string * value num)) :
  without_proto (VObj props) = VObj (map_values without_proto (strip_proto props)).
Proof.
  cbn [without_proto]. f_equal.
  induction props as [|[k x] props IH]; [reflexivity|].
  unfold strip_proto, map_values in *. cbn [filter fst].
  destruct (is_proto k); cbn [negb map]; [exact IH|now rewrite IH].
Qed.

Lemma sortObject_without_proto (v : value num) : sortObject v = sortObject (without_proto v).
Proof.
  induction v as [| |b|n|s|items IH|props IH] using value_nested_ind; try reflexivity.
  - cbn [without_proto sortObject]. f_equal. rewrite map_map.
    induction IH as [|x items Hx _ IHitems]; cbn; [reflexivity|]. now rewrite Hx, IHitems.
  - rewrite sortObject_strip_proto, without_proto_obj.
    cbn [sortObject]. f_equal.
    unfold Object_keys. rewrite map_fst_map_values.
    assert (Hch : map_values sortObject (map_values without_proto (strip_proto props))
                  = map_values sortObject (strip_proto props)).
    { unfold map_values at 1 2. rewrite map_map.
      assert (Hsub : Forall (fun kv : string * value num =>
                               sortObject (snd kv) = sortObject (without_proto (snd kv)))
                            (strip_proto props)).
      { rewrite Forall_forall in *. intros kv Hkv. apply IH.
        unfold strip_proto in Hkv. apply filter_In in Hkv. apply Hkv. }
      unfold map_values. induction Hsub as [|[k x] l Hx _ IHl]; cbn; [reflexivity|].
      cbn in Hx. now rewrite <- Hx, IHl. }
    now rewrite Hch.
Qed.

End ProtoFacts.

(** The signature does not cover a [__proto__] member: [sortObject]
    assigns it with [result[key] = ...], which sets the prototype of the
    result and creates no property, so the member is not serialised.  A
    payload and the payload with its [__proto__] members removed, at any
    depth, get the same signature, and [verifyIPN] gives the same verdict
    on both. *)
Theorem signature_does_not_cover_proto
        {num : Type} (JSON_stringify : value num -> option string)
        (hmac_sha512_hex : string -> string -> string)
        (payload : value num) (secret : string) (ipnSecret : option string)
        (signature : string) :
  sortObject payload = sortObject (without_proto payload)
  /\ generateSignature JSON_stringify hmac_sha512_hex payload secret
     = generateSignature JSON_stringify hmac_sha512_hex (without_proto payload) secret
  /\ verifyIPN JSON_stringify hmac_sha512_hex ipnSecret payload signature
     = verifyIPN JSON_stringify hmac_sha512_hex ipnSecret (without_proto payload) signature.
Proof.
  pose proof (sortObject_without_proto payload) as H.
  split; [exact H|].
  unfold verifyIPN, generateSignature. rewrite <- H. split; reflexivity.
Qed.

Lemma signature_does_not_cover_proto_example :
  without_proto tampered_payload = honest_payload
  /\ verifyIPN stringify_stub hmac_stub (Some "secret") tampered_payload "secret:{}"
     = verifyIPN stringify_stub hmac_stub (Some "secret") honest_payload "secret:{}".
Proof.
  split; [reflexivity|].
  exact (proj2 (proj2 (signature_does_not_cover_proto stringify_stub hmac_stub
                         tampered_payload "secret" (Some "secret") "secret:{}"))).
Defined.

Section PlainFacts.
Context {num : Type}.

Lemma plain_arr (items : list (value num)) : plain (VArr items) <-> Forall plain items.
Proof.
  cbn [plain]. induction items as [|x items IH].
  - split; [constructor|trivial].
  - rewrite IH. split; [intros [H1 H2]; now constructor|intros H; inversion H; auto].
Qed.

Lemma plain_obj (props : list (string * value num)) :
  plain (VObj props)
  <-> NoDup (map fst props) /\ ~ In "__proto__" (map fst props)
      /\ Forall (fun kv => plain (snd kv)) props.
Proof.
  cbn [plain].
  assert (H : (fix all (l : list (string * value num)) : Prop :=
                 match l with
                 | [] => True
                 | kv :: l' => plain (snd kv) /\ all l'
                 end) props
              <-> Forall (fun kv => plain (snd kv)) props).
  { induction props as [|kv props IH].
    - split; [constructor|trivial].
    - rewrite IH. split; [intros [H1 H2]; now constructor|intros H; inversion H; auto]. }
  rewrite H. reflexivity.
Qed.

Lemma lookup_notin (key : string) (props : list (string * value num)) :
  ~ In key (map fst props) -> lookup key props = None.
Proof.
  induction props as [|[k v] props IH]; cbn; [reflexivity|].
  intros H. destruct (String.eqb_spec k key) as [->|_]; [tauto|]. apply IH. tauto.
Qed.

Lemma In_lookup (key : string) (v : value num) (props : list (string * value num)) :
  NoDup (map fst props) -> In (key, v) props -> lookup key props = Some v.
Proof.
  induction props as [|[k w] props IH]; cbn; [tauto|].
  rewrite NoDup_cons_iff. intros [Hfresh Hnd] [[= -> ->]|Hin].
  - now rewrite String.eqb_refl.
  - destruct (String.eqb_spec k key) as [->|_]; [|auto].
    exfalso. apply Hfresh. apply in_map_iff. now exists (key, v).
Qed.

(** Assigning fresh keys, none of them [__proto__], appends them in
    order. *)
Lemma fold_appends (g : string -> value num) (keys : list string) :
  NoDup keys -> ~ In "__proto__" keys ->
  forall acc,
    (forall k, In k keys -> ~ In k (map fst acc)) ->
    fold_left (fun result key => set_prop result key (g key)) keys acc
    = (acc ++ map (fun k => (k, g k)) keys)%list.
Proof.
  induction keys as [|k keys IH]; intros Hnd Hnp acc Hfresh; cbn [fold_left map].
  - now rewrite app_nil_r.
  - apply NoDup_cons_iff in Hnd. destruct Hnd as [Hk Hnd].
    assert (Hset : set_prop acc k (g k) = (acc ++ [(k, g k)])%list).
    { unfold set_prop. destruct (String.eqb_spec k "__proto__") as [->|_].
      - exfalso. apply Hnp. now left.
      - rewrite lookup_notin; [reflexivity|]. apply Hfresh. now left. }
    rewrite Hset, IH; [now rewrite <- app_assoc| assumption | |].
    + intros H. apply Hnp. now right.
    + intros k' Hk'. rewrite map_app, in_app_iff. cbn. intros [H|[<-|[]]].
      * apply (Hfresh k'); [now right|exact H].
      * contradiction.
Qed.

(** On such an object [sortObject] lists the sorted keys, each with its
    sorted child. *)
Lemma sortObject_plain_obj (props : list (string * value num)) :
  NoDup (map fst props) -> ~ In "__proto__" (map fst props) ->
  sortObject (VObj props)
  = VObj (map (fun k => (k, get (map_values sortObject props) k))
              (sort String.leb (Object_keys props))).
Proof.
  intros Hnd Hnp. cbn [sortObject]. f_equal.
  assert (Hperm : Permutation (sort String.leb (Object_keys props)) (map fst props))
    by (rewrite sort_perm; apply Object_keys_perm).
  rewrite fold_appends; [reflexivity| | |intros k _ []].
  - apply (Permutation_NoDup (Permutation_sym Hperm) Hnd).
  - intros H. apply Hnp. now apply (Permutation_in _ Hperm).
Qed.

Lemma same_entries_obj_intro (ps qs : list (string * value num)) :
  NoDup (map fst ps) -> NoDup (map fst qs) -> List.length ps = List.length qs ->
  (forall k v, In (k, v) ps -> exists w, lookup k qs = Some w /\ same_entries v w) ->
  same_entries (VObj ps) (VObj qs).
Proof.
  intros Hp Hq Hlen Hall. cbn [same_entries]. repeat split; try assumption.
  clear Hp Hlen. induction ps as [|[k v] ps IH]; [exact I|].
  split.
  - destruct (Hall k v) as (w & -> & Hvw); [now left|exact Hvw].
  - apply IH. intros k' v' Hin. apply Hall. now right.
Qed.

Lemma same_entries_arr_intro (xs ys : list (value num)) :
  Forall2 same_entries xs ys -> same_entries (VArr xs) (VArr ys).
Proof.
  cbn [same_entries]. induction 1 as [|x y xs ys Hxy _ IH]; [exact I|]. split; assumption.
Qed.

Lemma sortObject_keeps_entries (v : value num) : plain v -> same_entries (sortObject v) v.
Proof.
  induction v as [| |b|n|s|items IH|props IH] using value_nested_ind; intros Hplain;
    try reflexivity.
  - apply plain_arr in Hplain. cbn [sortObject]. apply same_entries_arr_intro.
    induction IH as [|x items Hx _ IHitems]; cbn; [constructor|].
    inversion Hplain; subst. constructor; auto.
  - apply plain_obj in Hplain. destruct Hplain as (Hnd & Hnp & Hch).
    rewrite sortObject_plain_obj by assumption.
    assert (Hperm : Permutation (sort String.leb (Object_keys props)) (map fst props))
      by (rewrite sort_perm; apply Object_keys_perm).
    assert (Hkeys : map fst (map (fun k => (k, get (map_values sortObject props) k))
                               (sort String.leb (Object_keys props)))
                    = sort String.leb (Object_keys props))
      by (rewrite map_map; apply map_id).
    apply same_entries_obj_intro.
    + rewrite Hkeys. apply (Permutation_NoDup (Permutation_sym Hperm) Hnd).
    + exact Hnd.
    + rewrite length_map, (Permutation_length Hperm). apply length_map.
    + intros k v Hin. apply in_map_iff in Hin. destruct Hin as (k' & [= <- <-] & Hk).
      apply (Permutation_in _ Hperm) in Hk.
      apply in_map_iff in Hk. destruct Hk as ([k0 w] & Hk0 & Hin). cbn in Hk0. subst k0.
      exists w. rewrite (In_lookup k' w props Hnd Hin). split; [reflexivity|].
      unfold get. rewrite lookup_map_values, (In_lookup k' w props Hnd Hin). cbn.
      rewrite Forall_forall in IH, Hch. apply (IH _ Hin). apply (Hch _ Hin).
Qed.

End PlainFacts.

(** [sortObject] only reorders: a payload in which no object has a key
    twice or a [__proto__] member keeps every entry, at every depth;
    sorting it a second time changes nothing, and signing the sorted
    payload gives the signature of the payload. *)
Theorem sortObject_only_reorders
        {num : Type} (JSON_stringify : value num -> option string)
        (hmac_sha512_hex : string -> string -> string)
        (payload : value num) (secret : string) :
  plain payload ->
  same_entries (sortObject payload) payload
  /\ sortObject (sortObject payload) = sortObject payload
  /\ generateSignature JSON_stringify hmac_sha512_hex (sortObject payload) secret
     = generateSignature JSON_stringify hmac_sha512_hex payload secret.
Proof.
  intros Hplain. pose proof (sortObject_keeps_entries payload Hplain) as H.
  pose proof (sortObject_same_entries _ _ H) as Hidem.
  split; [exact H|]. split; [exact Hidem|].
  unfold generateSignature. now rewrite Hidem.
Qed.

Lemma sortObject_only_reorders_witness :
  plain payload_2
  /\ same_entries (sortObject payload_2) payload_2
  /\ sortObject (sortObject payload_2) = sortObject payload_2.
Proof.
  assert (H : plain payload_2).
  { cbn. repeat split; repeat constructor; cbn; intuition discriminate. }
  split; [exact H|].
  destruct (sortObject_only_reorders stringify_stub hmac_stub payload_2 "secret" H)
    as (H1 & H2 & _).
  split; assumption.
Defined.

(** ** Payments and time *)

Import Payments.

(** A time value is the sum of its day, hour, minute, second and
    millisecond parts; adding to the minute adds minutes. *)
Lemma minutes_added (t m : Z) :
  MakeDate (Day t) (MakeTime (HourFromTime t) (MinFromTime t + m) (SecFromTime t)
                      (msFromTime t))
  = t + m * 60000.
Proof.
  unfold MakeDate, MakeTime, Day, HourFromTime, MinFromTime, SecFromTime, msFromTime,
    msPerDay, msPerHour, msPerMinute, msPerSecond.
  Z.div_mod_to_equations. lia.
Qed.

Section PaymentFacts.
Context {num : Type}.
Variable Date_of : value num -> option Z.
Variable LocalTZA : Z -> bool -> Z.
Variable ge : value num -> value num -> bool.
Variable now : Z.

Lemma expiration_fixed_offset (z : Z) (createdAt : value num) (t minutes : Z) :
  (forall u isUTC, LocalTZA u isUTC = z) ->
  Date_of createdAt = Some t ->
  calculatePaymentExpiration Date_of LocalTZA createdAt minutes
  = TimeClip (t + minutes * 60000).
Proof.
  intros Hz Ht. unfold calculatePaymentExpiration, getMinutes, setMinutes.
  rewrite Ht. cbn [option_map]. cbv zeta. unfold UTC, LocalTime. rewrite !Hz.
  rewrite minutes_added. f_equal. lia.
Qed.

End PaymentFacts.

(** Where local time has a fixed offset from UTC, a payment expires one
    hour after [created_at]: it is expired when the clock is past that
    instant and has the time up to it remaining, never a negative one; an
    expired payment has none left. *)
Theorem payment_expires_after_an_hour
        {num : Type} (Date_of : value num -> option Z) (LocalTZA : Z -> bool -> Z)
        (now z : Z) (payment created_at : value num) (t : Z) :
  (forall u isUTC, LocalTZA u isUTC = z) ->
  member payment "created_at" = inr created_at ->
  Date_of created_at = Some t ->
  Z.abs (t + 3600000) <= 8640000000000000 ->
  calculatePaymentExpiration Date_of LocalTZA created_at 60 = Some (t + 3600000)
  /\ isPaymentExpired Date_of LocalTZA now payment = inr (t + 3600000 <? now)
  /\ calculateRemainingTime Date_of LocalTZA now payment
     = inr (Some (Z.max 0 (t + 3600000 - now)))
  /\ (isPaymentExpired Date_of LocalTZA now payment = inr true ->
      calculateRemainingTime Date_of LocalTZA now payment = inr (Some 0)).
Proof.
  intros Hz Hc Ht Hrange.
  assert (Hexp : calculatePaymentExpiration Date_of LocalTZA created_at 60
                 = Some (t + 3600000)).
  { rewrite (expiration_fixed_offset Date_of LocalTZA z created_at t 60 Hz Ht).
    unfold TimeClip. replace (t + 60 * 60000) with (t + 3600000) by lia.
    now replace (Z.abs (t + 3600000) <=? 8640000000000000) with true by lia. }
  unfold isPaymentExpired, calculateRemainingTime. rewrite Hc, Hexp. cbn [option_map Math_max_0].
  repeat split. intros [= H]. apply Z.ltb_lt in H. do 2 f_equal. lia.
Qed.

Lemma payment_expires_after_an_hour_witness :
  isPaymentExpired numeric_date utc 4000000 finished_payment = inr false
  /\ calculateRemainingTime numeric_date utc 4000000 finished_payment = inr (Some 600000)
  /\ isPaymentExpired numeric_date utc 4600001 finished_payment = inr true.
Proof.
  destruct (payment_expires_after_an_hour numeric_date utc 4000000 0 finished_payment
              (VNum 1000000) 1000000 (fun _ _ => eq_refl) eq_refl eq_refl ltac:(cbn; lia))
    as (_ & H1 & H2 & _).
  split; [exact H1|]. split; [exact H2|]. reflexivity.
Defined.

(** A payment whose [created_at] gives no valid date is never expired,
    whatever the clock reads, and its remaining time is [NaN]; its risk
    score includes the 20 points of a payment that has not expired. *)
Theorem undated_payment_never_expires
        {num : Type} (Date_of : value num -> option Z) (LocalTZA : Z -> bool -> Z)
        (ge : value num -> value num -> bool)
        (now : Z) (payment created_at : value num) :
  member payment "created_at" = inr created_at ->
  Date_of created_at = None ->
  isPaymentExpired Date_of LocalTZA now payment = inr false
  /\ calculateRemainingTime Date_of LocalTZA now payment = inr None
  /\ forall score,
       calculatePaymentRiskScore Date_of LocalTZA ge now payment = inr score -> 20 <= score.
Proof.
  intros Hc Ht.
  assert (Hexp : isPaymentExpired Date_of LocalTZA now payment = inr false).
  { unfold isPaymentExpired, calculatePaymentExpiration. rewrite Hc, Ht. reflexivity. }
  split; [exact Hexp|]. split.
  - unfold calculateRemainingTime, calculatePaymentExpiration. rewrite Hc, Ht. reflexivity.
  - intros score. unfold calculatePaymentRiskScore. rewrite Hexp.
    destruct (member payment "actually_paid") as [te|paid]; [discriminate|].
    destruct (member payment "pay_amount") as [te|amount]; [discriminate|].
    destruct (isPaymentStatusFinal payment) as [te|final]; [discriminate|].
    cbv zeta. intros [= <-]. destruct (ge paid amount), final; cbn; lia.
Qed.

Lemma undated_payment_never_expires_witness :
  isPaymentExpired numeric_date utc 4000000 undated_payment = inr false
  /\ calculateRemainingTime numeric_date utc 4000000 undated_payment = inr None
  /\ calculatePaymentRiskScore numeric_date utc number_ge 4000000 undated_payment = inr 20.
Proof.
  destruct (undated_payment_never_expires numeric_date utc number_ge 4000000 undated_payment
              (VStr "yesterday") eq_refl eq_refl) as (H1 & H2 & _).
  split; [exact H1|]. split; [exact H2|]. reflexivity.
Defined.

(** The risk score of a payment object is one of 0, 20, 30, 50, 70, 80
    and 100, and it is 100 exactly when the payment is paid in full, its
    status is final and it has not expired. *)
Theorem risk_score_values
        {num : Type} (Date_of : value num -> option Z) (LocalTZA : Z -> bool -> Z)
        (ge : value num -> value num -> bool) (now : Z)
        (props : list (string * value num)) :
  exists score,
    calculatePaymentRiskScore Date_of LocalTZA ge now (VObj props) = inr score
    /\ In score [0; 20; 30; 50; 70; 80; 100]
    /\ (score = 100
        <-> ge (get props "actually_paid") (get props "pay_amount") = true
            /\ isPaymentStatusFinal (VObj props) = inr true
            /\ isPaymentExpired Date_of LocalTZA now (VObj props) = inr false).
Proof.
  unfold calculatePaymentRiskScore, isPaymentStatusFinal, isPaymentExpired.
  cbn [member]. fold (get props "actually_paid") (get props "pay_amount").
  assert (Hget : forall key,
             match lookup key props with Some x => inr x | None => inr VUndefined end
             = (inr (get props key) : string + value num))
    by (intros key; unfold get; destruct (lookup key props); reflexivity).
  rewrite !Hget. cbv zeta.
  destruct (ge (get props "actually_paid") (get props "pay_amount")),
    (includes finalStatuses (get props "payment_status")),
    (match calculatePaymentExpiration Date_of LocalTZA (get props "created_at") 60 with
     | Some expiration => expiration <? now
     | None => false
     end);
    cbn [negb]; eexists; (split; [reflexivity|]); (split; [cbn; tauto|]);
    (split;
     [first [intros H; exfalso; lia | intros _; repeat split]
     |intros (H1 & H2 & H3); first [discriminate | lia]]).
Qed.

(** ** Order identifiers *)

Import Orders.

Lemma digits_have_no_underscore (d : Decimal.uint) :
  has_underscore (NilEmpty.string_of_uint d) = false.
Proof. induction d; cbn; auto. Qed.

Lemma decimal_has_no_underscore (n : N) : has_underscore (decimal n) = false.
Proof.
  unfold decimal, NilZero.string_of_uint.
  destruct (N.to_uint n) eqn:E; try (rewrite <- E; apply digits_have_no_underscore).
  reflexivity.
Qed.

Lemma to_uint_not_Nil (n : N) : N.to_uint n <> Decimal.Nil.
Proof.
  destruct n as [|p]; [discriminate|]. cbn. apply DecimalPos.Unsigned.to_uint_nonnil.
Qed.

Lemma decimal_inj (n n' : N) : decimal n = decimal n' -> n = n'.
Proof.
  unfold decimal. intros H. apply DecimalN.Unsigned.to_uint_inj.
  assert (H' : NilZero.uint_of_string (NilZero.string_of_uint (N.to_uint n))
               = NilZero.uint_of_string (NilZero.string_of_uint (N.to_uint n')))
    by now rewrite H.
  rewrite !NilZero.usu in H' by apply to_uint_not_Nil. now injection H'.
Qed.

Lemma has_underscore_append (a b : string) :
  has_underscore (a ++ b) = has_underscore a || has_underscore b.
Proof. induction a as [|c a IH]; cbn; [reflexivity|]. now rewrite IH, orb_assoc. Qed.

(** The last underscore of an identifier is found without knowing its
    parts. *)
Lemma split_at_last_underscore (a a' s s' : string) :
  has_underscore s = false -> has_underscore s' = false ->
  a ++ "_" ++ s = a' ++ "_" ++ s' -> a = a' /\ s = s'.
Proof.
  intros Hs Hs'. revert a'. induction a as [|c a IH]; intros [|c' a']; cbn.
  - intros [= ->]. auto.
  - intros [= <- ->]. rewrite has_underscore_append in Hs. cbn in Hs.
    rewrite orb_true_r in Hs. discriminate.
  - intros [= -> <-]. rewrite has_underscore_append in Hs'. cbn in Hs'.
    rewrite orb_true_r in Hs'. discriminate.
  - intros [= -> H]. destruct (IH a' H) as [-> ->]. auto.
Qed.

Lemma append_assoc (a b c : string) : (a ++ b) ++ c = a ++ b ++ c.
Proof. induction a as [|x a IH]; cbn; [reflexivity|]. now rewrite IH. Qed.

(** Two order identifiers are equal exactly when their prefixes, the
    two clock readings and the two random draws are: identifiers made in
    different milliseconds, or with different draws, differ, and those
    made in the same millisecond with the same draw, one chance in a
    million, collide. *)
Theorem order_ids_collide_only_on_equal_draws
        (prefix prefix' : string) (timestamp timestamp' random random' : N) :
  generateOrderId (Some prefix) timestamp random
  = generateOrderId (Some prefix') timestamp' random'
  <-> prefix = prefix' /\ timestamp = timestamp' /\ random = random'.
Proof.
  unfold generateOrderId. split.
  - intros H.
    assert (H' : (prefix ++ "_" ++ decimal timestamp) ++ "_" ++ decimal random
                 = (prefix' ++ "_" ++ decimal timestamp') ++ "_" ++ decimal random')
      by (rewrite !append_assoc; exact H).
    apply split_at_last_underscore in H'; try apply decimal_has_no_underscore.
    destruct H' as [H1 H2].
    apply split_at_last_underscore in H1; try apply decimal_has_no_underscore.
    destruct H1 as [H0 H1].
    apply decimal_inj in H1, H2. auto.
  - intros (-> & -> & ->). reflexivity.
Qed.

(** ** Address patterns *)

Import RegExp Addresses.

Lemma strip_prefix_spec (p s rest : string) :
  strip_prefix p s = Some rest <-> s = p ++ rest.
Proof.
  revert s. induction p as [|a p IH]; intros s; cbn.
  - split; [now intros [= ->]|now intros ->].
  - destruct s as [|b s]; [split; discriminate|].
    destruct (Ascii.eqb_spec a b) as [->|Hne].
    + rewrite IH. split; [now intros ->|now intros [= ->]].
    + split; [discriminate|]. intros [= H _]. congruence.
Qed.

Lemma all_of_nil (cs : charset) : all_of cs "".
Proof. intros a []. Qed.

Lemma all_of_cons (cs : charset) (a : ascii) (s : string) :
  all_of cs (String a s) <-> matches_set cs a = true /\ all_of cs s.
Proof.
  unfold all_of. cbn. split.
  - intros H. split; [apply H; now left|]. intros b Hb. apply H. now right.
  - intros [Ha Hs] b [<-|Hb]; auto.
Qed.

(** A quantified set consumes a sequence of its characters, as many as the
    bounds allow. *)
Lemma many_spec (cs : charset) (s : string) :
  forall (min : nat) (max : option nat) (pos : nat) (q : place),
    In q (many cs min max pos s)
    <-> exists pre,
          s = pre ++ snd q /\ fst q = (pos + String.length pre)%nat
          /\ (min <= String.length pre)%nat
          /\ match max with
             | Some m => (String.length pre <= m)%nat
             | None => True
             end
          /\ all_of cs pre.
Proof.
  induction s as [|a s IH]; intros min max pos [qpos qrest].
  - cbn [many]. rewrite in_app_iff.
    assert (Hno : forall l : list place,
               In (qpos, qrest) (match max with Some O => [] | _ => l end) ->
               l = [] -> False)
      by (intros l H ->; destruct max as [[|m]|]; destruct H).
    split.
    + intros [H|H].
      * destruct (Nat.eqb_spec min 0) as [->|]; [|destruct H].
        destruct H as [[= <- <-]|[]]. exists "". cbn.
        repeat split; [lia|lia|destruct max; [lia|exact I]|apply all_of_nil].
      * exfalso. destruct max as [[|m]|]; destruct H.
    + intros (pre & Hs & Hq & Hmin & _ & _). cbn [fst snd] in *.
      destruct pre as [|b pre]; [|discriminate]. cbn in Hs, Hq, Hmin. subst qrest.
      left. replace (Nat.eqb min 0) with true by (symmetry; apply Nat.eqb_eq; lia).
      left. f_equal. lia.
  - cbn [many]. rewrite in_app_iff. split.
    + intros [H|H].
      * destruct (Nat.eqb_spec min 0) as [->|]; [|destruct H].
        destruct H as [[= <- <-]|[]]. exists "". cbn.
        repeat split; [lia|lia|destruct max; [lia|exact I]|apply all_of_nil].
      * assert (Hmax : max <> Some O) by (intros ->; destruct H).
        assert (H' : In (qpos, qrest)
                       (if matches_set cs a
                        then many cs (Nat.pred min) (option_map Nat.pred max) (S pos) s
                        else []))
          by (destruct max as [[|m]|]; [congruence|exact H|exact H]).
        destruct (matches_set cs a) eqn:Ha; [|destruct H'].
        apply IH in H'. destruct H' as (pre & Hs & Hq & Hmin & Hmx & Hall).
        cbn [fst snd] in *. exists (String a pre). cbn [String.length append fst snd].
        split; [now rewrite Hs|]. split; [lia|]. split; [lia|].
        split; [|apply all_of_cons; auto].
        destruct max as [[|m]|]; cbn in Hmx; [congruence|lia|exact I].
    + intros (pre & Hs & Hq & Hmin & Hmx & Hall). cbn [fst snd] in *.
      destruct pre as [|b pre].
      * cbn in Hs, Hq, Hmin. left.
        replace (Nat.eqb min 0) with true by (symmetry; apply Nat.eqb_eq; lia).
        left. f_equal; [lia|congruence].
      * cbn in Hs, Hq, Hmin. injection Hs as <- Hs. apply all_of_cons in Hall.
        destruct Hall as [Ha Hall]. right.
        assert (Hin : In (qpos, qrest)
                        (many cs (Nat.pred min) (option_map Nat.pred max) (S pos) s)).
        { apply IH. exists pre. cbn [fst snd].
          split; [exact Hs|]. split; [lia|]. split; [lia|]. split; [|exact Hall].
          destruct max as [m|]; cbn in *; [lia|exact I]. }
        rewrite Ha. destruct max as [[|m]|]; [cbn in Hmx; lia|exact Hin|exact Hin].
Qed.

Lemma matches_at_spec (r : regex) (p : place) :
  matches_at r p = true <-> exists q, In q (ends r p).
Proof.
  unfold matches_at. destruct (ends r p) as [|q l].
  - split; [discriminate|intros (q & [])].
  - split; [intros _; exists q; now left|reflexivity].
Qed.

Lemma ends_Seq (a b : regex) (p q : place) :
  In q (ends (Seq a b) p) <-> exists m, In m (ends a p) /\ In q (ends b m).
Proof. cbn [ends]. apply in_flat_map. Qed.

Lemma ends_Bos (p q : place) : In q (ends Bos p) <-> fst p = 0%nat /\ q = p.
Proof.
  cbn [ends]. destruct (Nat.eqb_spec (fst p) 0) as [H|H]; cbn.
  - split; [intros [<-|[]]; auto|intros [_ ->]; now left].
  - split; [intros []|intros [H' _]; contradiction].
Qed.

Lemma ends_Eos (p q : place) : In q (ends Eos p) <-> snd p = "" /\ q = p.
Proof.
  cbn [ends]. destruct (snd p) as [|a s]; cbn.
  - split; [intros [<-|[]]; auto|intros [_ ->]; now left].
  - split; [intros []|intros [H' _]; discriminate].
Qed.

Lemma ends_Lit (s : string) (p q : place) :
  In q (ends (Lit s) p)
  <-> snd p = s ++ snd q /\ fst q = (fst p + String.length s)%nat.
Proof.
  cbn [ends]. destruct (strip_prefix s (snd p)) as [rest|] eqn:E.
  - apply strip_prefix_spec in E. split.
    + intros [<-|[]]. cbn. auto.
    + intros [H1 H2]. left. destruct q as [qp qr]. cbn in *. f_equal; [lia|].
      rewrite E in H1. clear -H1. revert H1. induction s as [|a s IH]; cbn; [auto|].
      intros [= H]. auto.
  - split; [intros []|]. intros [H _]. apply strip_prefix_spec in H. congruence.
Qed.

Lemma ends_One (cs : charset) (p q : place) :
  In q (ends (One cs) p)
  <-> exists a, snd p = String a (snd q) /\ matches_set cs a = true /\ fst q = S (fst p).
Proof.
  cbn [ends]. destruct (snd p) as [|a rest].
  - split; [intros []|intros (a & H & _); discriminate].
  - destruct (matches_set cs a) eqn:Ha.
    + split.
      * intros [<-|[]]. exists a. cbn. auto.
      * intros (b & [= -> ->] & _ & Hq). left. destruct q; cbn in *. now subst.
    + split; [intros []|]. intros (b & [= -> _] & Hb & _). congruence.
Qed.

(** A pattern that opens with [^] is anchored. *)
Lemma anchored_Seq_Bos (r : regex) : anchored (Seq Bos r).
Proof.
  intros p Hp. cbn [ends]. destruct (Nat.eqb_spec (fst p) 0); [lia|reflexivity].
Qed.

Lemma anchored_Alt (a b : regex) : anchored a -> anchored b -> anchored (Alt a b).
Proof. intros Ha Hb p Hp. cbn [ends]. now rewrite Ha, Hb. Qed.

Lemma search_anchored (r : regex) (s : string) :
  anchored r -> forall pos, (0 < pos)%nat -> search r pos s = false.
Proof.
  intros Hr. induction s as [|a s IH]; intros pos Hpos; cbn [search];
    unfold matches_at; rewrite Hr by (cbn; lia); cbn; [reflexivity|].
  apply IH. lia.
Qed.

Lemma test_anchored (r : regex) (s : string) :
  anchored r -> test r s = matches_at r (0%nat, s).
Proof.
  intros Hr. unfold test. destruct s as [|a s]; cbn [search].
  - apply orb_false_r.
  - rewrite (search_anchored r s Hr) by lia. apply orb_false_r.
Qed.

Lemma length_append (a b : string) :
  String.length (a ++ b) = (String.length a + String.length b)%nat.
Proof. induction a as [|c a IH]; cbn; [reflexivity|now rewrite IH]. Qed.

Lemma append_empty_r (a : string) : a ++ "" = a.
Proof. induction a as [|c a IH]; cbn; [reflexivity|now rewrite IH]. Qed.

(** [test] on [^ prefix set{min,max} $]. *)
Lemma ends_framed (prefix : regex) (cs : charset) (min max : nat) (s : string) :
  (exists q, In q (ends (Seq Bos (Seq prefix (Seq (Many cs min (Some max)) Eos))) (0%nat, s)))
  <-> exists m body,
        In m (ends prefix (0%nat, s)) /\ snd m = body
        /\ (min <= String.length body <= max)%nat /\ all_of cs body.
Proof.
  split.
  - intros (q & Hq). apply ends_Seq in Hq. destruct Hq as (m0 & H0 & Hq).
    apply ends_Bos in H0. destruct H0 as [_ ->].
    apply ends_Seq in Hq. destruct Hq as (m & Hm & Hq).
    apply ends_Seq in Hq. destruct Hq as (m2 & H2 & Hq).
    apply ends_Eos in Hq. destruct Hq as [Hend ->].
    apply many_spec in H2. destruct H2 as (pre & Hs & _ & Hmin & Hmax & Hall).
    rewrite Hend, append_empty_r in Hs. exists m, pre. subst pre. auto.
  - intros (m & body & Hm & Hs & Hlen & Hall).
    exists ((fst m + String.length body)%nat, "").
    apply ends_Seq. exists (0%nat, s). split; [apply ends_Bos; auto|].
    apply ends_Seq. exists m. split; [exact Hm|].
    apply ends_Seq. exists ((fst m + String.length body)%nat, ""). split.
    + apply many_spec. exists body. cbn [fst snd].
      rewrite append_empty_r. repeat split; try lia; auto.
    + apply ends_Eos. auto.
Qed.

(** [isValidCryptoAddress(address, 'ETH')] accepts exactly the strings
    made of [0x] and forty hexadecimal digits of either case: 42
    characters, no checksum being looked at. *)
Theorem valid_ETH_address (address : string) :
  isValidCryptoAddress address "ETH" = Answered true
  <-> exists body,
        address = "0x" ++ body /\ String.length body = 40%nat /\ all_of hex_set body.
Proof.
  change (isValidCryptoAddress address "ETH") with (Answered (test ETH_pattern address)).
  unfold ETH_pattern. rewrite test_anchored by apply anchored_Seq_Bos.
  split.
  - intros [= H]. apply matches_at_spec in H. apply ends_framed in H.
    destruct H as (m & body & Hm & Hs & Hlen & Hall).
    apply ends_Lit in Hm. destruct Hm as [Hm _]. cbn [snd] in Hm.
    subst body. exists (snd m). split; [exact Hm|]. split; [lia|exact Hall].
  - intros (body & -> & Hlen & Hall). f_equal. apply matches_at_spec, ends_framed.
    exists (2%nat, body), body. split; [|split; [reflexivity|split; [lia|exact Hall]]].
    apply ends_Lit. split; reflexivity.
Qed.

Lemma in_range_single (a x : ascii) : in_range a (x, x) = true -> a = x.
Proof.
  unfold in_range, code_unit. cbn [fst snd]. intros H. apply andb_true_iff in H.
  destruct H as [H1 H2]. apply N.leb_le in H1, H2.
  rewrite <- (ascii_N_embedding a), <- (ascii_N_embedding x). f_equal. lia.
Qed.

(** [isValidCryptoAddress(address, 'BTC')] accepts exactly a [1] or a [3]
    followed by 25 to 34 characters of the legacy alphabet, and [bc1]
    followed by 11 to 71 characters of the lower-case bech32 alphabet. *)
Theorem valid_BTC_address (address : string) :
  isValidCryptoAddress address "BTC" = Answered true
  <-> (exists lead body,
          address = String lead body /\ (lead = "1"%char \/ lead = "3"%char)
          /\ (25 <= String.length body <= 34)%nat /\ all_of base58_set body)
      \/ (exists body,
             address = "bc1" ++ body
             /\ (11 <= String.length body <= 71)%nat /\ all_of bech32_set body).
Proof.
  change (isValidCryptoAddress address "BTC") with (Answered (test BTC_pattern address)).
  unfold BTC_pattern.
  rewrite test_anchored by (apply anchored_Alt; apply anchored_Seq_Bos).
  split.
  - intros [= H]. apply matches_at_spec in H. destruct H as (q & Hq).
    cbn [ends] in Hq. apply in_app_or in Hq. destruct Hq as [Hq|Hq].
    + left. assert (H : exists q, In q (ends (Seq Bos (Seq (One (Ranges [single "1"; single "3"]))
                                           (Seq (Many base58_set 25 (Some 34%nat)) Eos)))
                                      (0%nat, address))) by (exists q; exact Hq).
      apply ends_framed in H. destruct H as (m & body & Hm & Hs & Hlen & Hall).
      apply ends_One in Hm. destruct Hm as (a & Ha & Hset & _). cbn [snd] in Ha.
      subst body. exists a, (snd m). split; [exact Ha|].
      split; [|split; assumption].
      cbn [matches_set existsb] in Hset. rewrite orb_false_r in Hset.
      apply orb_true_iff in Hset.
      destruct Hset as [H|H]; [left|right]; exact (in_range_single a _ H).
    + right. assert (H : exists q, In q (ends (Seq Bos (Seq (Lit "bc1")
                                           (Seq (Many bech32_set 11 (Some 71%nat)) Eos)))
                                      (0%nat, address))) by (exists q; exact Hq).
      apply ends_framed in H. destruct H as (m & body & Hm & Hs & Hlen & Hall).
      apply ends_Lit in Hm. destruct Hm as [Hm _]. cbn [snd] in Hm.
      subst body. exists (snd m). split; [exact Hm|]. split; assumption.
  - intros H. f_equal. apply matches_at_spec.
    destruct H as [(lead & body & -> & Hfirst & Hlen & Hall)|(body & -> & Hlen & Hall)].
    + assert (H : exists q, In q (ends (Seq Bos (Seq (One (Ranges [single "1"; single "3"]))
                                           (Seq (Many base58_set 25 (Some 34%nat)) Eos)))
                                      (0%nat, String lead body))).
      { apply ends_framed. exists (1%nat, body), body.
        split; [|split; [reflexivity|split; assumption]].
        apply ends_One. exists lead. cbn [fst snd].
        split; [reflexivity|]. split; [|reflexivity].
        destruct Hfirst as [-> | ->]; reflexivity. }
      destruct H as (q & Hq). exists q. cbn [ends]. apply in_or_app. now left.
    + assert (H : exists q, In q (ends (Seq Bos (Seq (Lit "bc1")
                                           (Seq (Many bech32_set 11 (Some 71%nat)) Eos)))
                                      (0%nat, "bc1" ++ body))).
      { apply ends_framed. exists (3%nat, body), body.
        split; [|split; [reflexivity|split; assumption]].
        apply ends_Lit. split; reflexivity. }
      destruct H as (q & Hq). exists q. cbn [ends]. apply in_or_app. now right.
Qed.

(** The default pattern looks for one character that is no line
    terminator, anywhere. *)
Lemma search_default (s : string) :
  forall pos,
    search default_pattern pos s = true
    <-> exists a, In a (list_ascii_of_string s) /\ is_line_terminator a = false.
Proof.
  induction s as [|a s IH]; intros pos; cbn [search list_ascii_of_string].
  - cbn. split; [discriminate|intros (a & [] & _)].
  - rewrite orb_true_iff, IH. unfold matches_at, default_pattern.
    cbn [ends many fst snd Nat.eqb app matches_set].
    destruct (is_line_terminator a) eqn:Ha; cbn [negb].
    + split.
      * intros [H|(b & Hb & Hnl)]; [discriminate|]. exists b. split; [now right|exact Hnl].
      * intros (b & [<-|Hb] & Hnl); [congruence|]. right. now exists b.
    + split.
      * intros _. exists a. split; [now left|exact Ha].
      * intros _. left. destruct s; reflexivity.
Qed.

(** For a currency [addressPatterns] has no entry for, and that is no
    property name of [Object.prototype], every address that holds one
    character other than a line break is valid: nothing about the
    currency is checked. *)
Theorem unlisted_currency_accepts_any_text (address currency : string) :
  lookup currency addressPatterns = None ->
  inherited currency = false ->
  isValidCryptoAddress address currency = Answered true
  <-> exists a, In a (list_ascii_of_string address) /\ is_line_terminator a = false.
Proof.
  intros Hown Hinh. unfold isValidCryptoAddress, or_default. rewrite Hown, Hinh.
  cbn [lookup addressPatterns String.eqb Ascii.eqb Bool.eqb].
  change (lookup "default" addressPatterns) with (Some default_pattern).
  cbv iota. unfold test. rewrite <- (search_default address 0%nat).
  split; [now intros [= ->]|now intros ->].
Qed.

Lemma unlisted_currency_accepts_any_text_witness :
  In "USDT" supported_crypto
  /\ isValidCryptoAddress "not an address" "USDT" = Answered true
  /\ isValidCryptoAddress "not an address" "eth" = Answered true.
Proof.
  split; [vm_compute; tauto|]. split.
  - apply (unlisted_currency_accepts_any_text "not an address" "USDT" eq_refl eq_refl).
    exists "n"%char. split; [now left|reflexivity].
  - apply (unlisted_currency_accepts_any_text "not an address" "eth" eq_refl eq_refl).
    exists "n"%char. split; [now left|reflexivity].
Defined.
